(** * Momentum strategy and backtest analytics: a shallow embedding

    Embedded sources:
    - [DS/Algo_trading_competiton/strategy1.py]      (class [AlgoEvent])
    - [DS/Algo_trading_competiton/backtest_analysis.py]
      (class [StrategyBacktester])
    - [MSL/HatredTextFilter.py]                      ([setOfWords2Vec])

    Numbers.  The Python code computes with floats.  Here every price,
    score, quantity and return is an exact rational ([Qc], canonical
    rationals with Leibniz equality), so all statements are about the
    arithmetic the formulas denote, not about rounding.  The two places
    where float arithmetic does not return a number are kept explicit:
    a Python division by zero raises [ZeroDivisionError], and pandas
    yields NaN for [0/0] (modelled by [None] in the analytics part).

    Integers that Python uses as indices, slice bounds and counters are
    [Z], with Python's rules for negative indices and slices written out. *)

From Stdlib Require Import ZArith QArith Qcanon Lia Lqa.
From stdpp Require Import base tactics option list numbers strings gmap sorting.

Local Open Scope Z_scope.

(** ** Python primitives *)

Module Py.

Inductive exn := IndexError | KeyError | ZeroDivisionError.

Inductive result (A : Type) :=
| Ok (a : A)
| Raise (e : exn).
Arguments Ok {A} a.
Arguments Raise {A} e.

#[global] Instance result_ret : MRet result := @Ok.
#[global] Instance result_bind : MBind result := fun A B f m =>
  match m with
  | Ok a => f a
  | Raise e => Raise e
  end.

#[global] Instance exn_eq_dec : EqDecision exn.
Proof. solve_decision. Defined.

(** [l[i]] on a list: negative [i] counts from the end, out of range
    raises [IndexError]. *)
Definition getitem {A} (l : list A) (i : Z) : result A :=
  let n := Z.of_nat (length l) in
  let j := if decide (i < 0) then i + n else i in
  if decide (0 <= j < n)
  then from_option Ok (Raise IndexError) (l !! Z.to_nat j)
  else Raise IndexError.

(** [l[:k]]: a negative bound counts from the end, bounds are clipped. *)
Definition slice_to {A} (l : list A) (k : Z) : list A :=
  let n := Z.of_nat (length l) in
  let j := if decide (k < 0) then Z.max 0 (k + n) else k in
  take (Z.to_nat j) l.

(** [l[j:]]: same rule for the lower bound.  Note that [l[-0:]] is
    [l[0:]], the whole list. *)
Definition slice_from {A} (l : list A) (j : Z) : list A :=
  let n := Z.of_nat (length l) in
  let i := if decide (j < 0) then Z.max 0 (j + n) else j in
  drop (Z.to_nat i) l.

(** [d[k]] on a dict: a missing key raises [KeyError]. *)
Definition lookup_key {V} (d : gmap string V) (k : string) : result V :=
  from_option Ok (Raise KeyError) (d !! k).

(** [x / y] on numbers. *)
Definition div (x y : Qc) : result Qc :=
  if decide (y = 0%Qc) then Raise ZeroDivisionError else Ok (x / y)%Qc.

(** [abs(x)]. *)
Definition abs (x : Qc) : Qc := if decide (x < 0)%Qc then (- x)%Qc else x.

(** A dict that is iterated: Python dicts keep insertion order, and
    assigning to an existing key keeps the key's position. *)
Definition dict (V : Type) := list (string * V).

Fixpoint dict_set {V} (d : dict V) (k : string) (v : V) : dict V :=
  match d with
  | [] => [(k, v)]
  | (k', v') :: d' =>
      if decide (k = k') then (k, v) :: d' else (k', v') :: dict_set d' k v
  end.

(** [sorted(l, key=key, reverse=True)]: a stable sort into descending
    key order; elements with equal keys keep their original order. *)
Fixpoint insert_desc {A} (key : A -> Qc) (x : A) (l : list A) : list A :=
  match l with
  | [] => [x]
  | y :: l' =>
      if decide (key x < key y)%Qc then y :: insert_desc key x l' else x :: l
  end.

Definition sorted_reverse {A} (key : A -> Qc) (l : list A) : list A :=
  foldr (insert_desc key) [] l.

End Py.

Import Py.

(** ** strategy1.py *)

(** The market-data record handed to the handler: only [md.instrument]
    and [md.close] are read. *)
Record MarketData := { instrument : string; close : Qc }.

(** [sendOrder(instrument, volume, ordertype, price, mode)]. *)
Record Order := {
  order_instrument : string;
  order_volume : Qc;
  order_type : string;
  order_price : Qc;
  order_mode : string
}.

#[global] Instance Order_eq_dec : EqDecision Order.
Proof. solve_decision. Defined.

Module AlgoEvent.

(** The attributes of an [AlgoEvent] object.  [evt], the handle to the
    platform, is not state of the strategy: its [log] is dropped, its
    [getPortfolio().getPortfolioValue()] is an input of the handler and
    its [sendOrder] calls are the handler's output. *)
Record t := {
  instrument_list : list string;
  lookback_period : Z;
  rebalance_period : Z;
  hold_N_assets : Z;
  rebalance_counter : Z;
  historical_data : gmap string (list Qc)
}.

Definition set_counter (c : Z) (s : t) : t :=
  {| instrument_list := instrument_list s;
     lookback_period := lookback_period s;
     rebalance_period := rebalance_period s;
     hold_N_assets := hold_N_assets s;
     rebalance_counter := c;
     historical_data := historical_data s |}.

Definition set_history (h : gmap string (list Qc)) (s : t) : t :=
  {| instrument_list := instrument_list s;
     lookback_period := lookback_period s;
     rebalance_period := rebalance_period s;
     hold_N_assets := hold_N_assets s;
     rebalance_counter := rebalance_counter s;
     historical_data := h |}.

(** The body of [__init__] with the four literals of lines 7, 10, 13
    and 16 abstracted, so that properties of a session can be stated
    for every value of the attributes.  The source's constructor itself
    takes no argument: it is [__init__] below. *)
Definition construct (universe : list string) (lookback period hold : Z)
  : result t :=
  Ok {| instrument_list := universe;
        lookback_period := lookback;
        rebalance_period := period;
        hold_N_assets := hold;
        rebalance_counter := 0;
        historical_data := ∅ |}.

(** [__init__] as written: lines 7, 10, 13 and 16. *)
Definition __init__ : result t :=
  construct ["SPY"; "QQQ"; "IWM"; "EFA"; "EEM"; "GLD"; "USO"]%string 120 20 2.

(** [start]: every universe instrument gets an empty history. *)
Definition start (s : t) : t :=
  set_history
    (foldl (fun h inst => <[inst := []]> h) (historical_data s)
           (instrument_list s))
    s.

(** [on_bulkdatafeed] as it runs once [start] has been called: line 41
    logs through [self.evt], which is [None] until [start] sets it, so
    the handler is modelled for the calls of a session.  [bd] maps an
    instrument to the close prices of its bars.
    [self.historical_data[instrument]] raises [KeyError] for an
    instrument that has no history list; what was appended before stays
    appended. *)
Fixpoint bulk_loop (bd : gmap string (list Qc)) (l : list string)
    (h : gmap string (list Qc)) : gmap string (list Qc) * option exn :=
  match l with
  | [] => (h, None)
  | inst :: l' =>
      match bd !! inst with
      | None => bulk_loop bd l' h
      | Some [] => bulk_loop bd l' h
      | Some bars =>
          match h !! inst with
          | None => (h, Some KeyError)
          | Some prices => bulk_loop bd l' (<[inst := prices ++ bars]> h)
          end
      end
  end.

Definition on_bulkdatafeed (isSync : bool) (bd : gmap string (list Qc))
    (s : t) : t * option exn :=
  if isSync then
    let '(h, e) := bulk_loop bd (instrument_list s) (historical_data s) in
    (set_history h s, e)
  else (s, None).

(** Line 86: [(prices[-1] / prices[-lookback]) - 1]. *)
Definition momentum (prices : list Qc) (lookback : Z) : result Qc :=
  last ← getitem prices (-1);
  base ← getitem prices (- lookback);
  q ← div last base;
  mret (q - 1)%Qc.

(** Lines 75-78: the first instrument whose history is shorter than
    the lookback period, if any. *)
Fixpoint check_history (h : gmap string (list Qc)) (lookback : Z)
    (l : list string) : result (option string) :=
  match l with
  | [] => Ok None
  | inst :: l' =>
      prices ← lookup_key h inst;
      if decide (Z.of_nat (length prices) < lookback)
      then Ok (Some inst)
      else check_history h lookback l'
  end.

(** Lines 81-87. *)
Fixpoint momentum_loop (h : gmap string (list Qc)) (lookback : Z)
    (l : list string) (momentum_scores : dict Qc) : result (dict Qc) :=
  match l with
  | [] => Ok momentum_scores
  | inst :: l' =>
      prices ← lookup_key h inst;
      m ← momentum prices lookback;
      momentum_loop h lookback l' (dict_set momentum_scores inst m)
  end.

(** Lines 89-98: ranking and the long, short and flat lists. *)
Definition ranked_instruments (momentum_scores : dict Qc)
  : list (string * Qc) :=
  sorted_reverse snd momentum_scores.

Definition longs_of (ranked : list (string * Qc)) (hold : Z) : list string :=
  fst <$> slice_to ranked hold.

Definition shorts_of (ranked : list (string * Qc)) (hold : Z) : list string :=
  fst <$> slice_from ranked (- hold).

Definition flats_of (universe longs shorts : list string) : list string :=
  filter (λ inst, (inst ∉ longs) ∧ (inst ∉ shorts)) universe.

Definition sendOrder (inst : string) (volume : Qc) : Order :=
  {| order_instrument := inst; order_volume := volume;
     order_type := "MKT"; order_price := 0%Qc;
     order_mode := "TARGET_SHARES" |}.

(** Lines 120-121 and 126-128: the target quantity of one position. *)
Definition target_quantity (h : gmap string (list Qc))
    (capital_per_position : Qc) (short : bool) (inst : string)
  : result Qc :=
  prices ← lookup_key h inst;
  last_price ← getitem prices (-1);
  q ← div capital_per_position last_price;
  mret (if short then (- q)%Qc else q).

(** Lines 119-122 and 125-129: the orders sent by one loop and the
    exception that ended it early, if any. *)
Fixpoint place_orders (h : gmap string (list Qc))
    (capital_per_position : Qc) (short : bool) (l : list string)
  : list Order * option exn :=
  match l with
  | [] => ([], None)
  | inst :: l' =>
      match target_quantity h capital_per_position short inst with
      | Raise e => ([], Some e)
      | Ok q =>
          let '(os, e) := place_orders h capital_per_position short l' in
          (sendOrder inst q :: os, e)
      end
  end.

(** How one call of [on_marketdatafeed] ended. *)
Inductive outcome :=
| NotRebalanceDay                 (* [return] of line 68 *)
| SkippedRebalance (inst : string)  (* [return] of line 78 *)
| NoPositions                     (* [return] of line 109 *)
| Rebalanced                      (* end of the body, line 129 *)
| Raised (e : exn).

#[global] Instance outcome_eq_dec : EqDecision outcome.
Proof. solve_decision. Defined.

(** Lines 104-129, given the three lists. *)
Definition execute_trades (s : t) (portfolio_value : Qc)
    (longs shorts flats : list string) : list Order * outcome :=
  let num_positions := Z.of_nat (length longs) + Z.of_nat (length shorts) in
  if decide (num_positions = 0) then ([], NoPositions)
  else
    match div portfolio_value (Qc_of_Z num_positions) with
    | Raise e => ([], Raised e)
    | Ok capital_per_position =>
        let flat_orders := (fun inst => sendOrder inst 0%Qc) <$> flats in
        match place_orders (historical_data s) capital_per_position
                           false longs with
        | (long_orders, Some e) => (flat_orders ++ long_orders, Raised e)
        | (long_orders, None) =>
            match place_orders (historical_data s) capital_per_position
                               true shorts with
            | (short_orders, Some e) =>
                (flat_orders ++ long_orders ++ short_orders, Raised e)
            | (short_orders, None) =>
                (flat_orders ++ long_orders ++ short_orders, Rebalanced)
            end
        end
    end.

(** Lines 74-129: the rebalancing-day logic after the counter reset. *)
Definition rebalance (s : t) (portfolio_value : Qc) : list Order * outcome :=
  match check_history (historical_data s) (lookback_period s)
                      (instrument_list s) with
  | Raise e => ([], Raised e)
  | Ok (Some inst) => ([], SkippedRebalance inst)
  | Ok None =>
      match momentum_loop (historical_data s) (lookback_period s)
                          (instrument_list s) [] with
      | Raise e => ([], Raised e)
      | Ok momentum_scores =>
          let ranked := ranked_instruments momentum_scores in
          let longs := longs_of ranked (hold_N_assets s) in
          let shorts := shorts_of ranked (hold_N_assets s) in
          let flats := flats_of (instrument_list s) longs shorts in
          execute_trades s portfolio_value longs shorts flats
      end
  end.

(** Lines 56-58: the close is appended only to an existing history. *)
Definition append_close (md : MarketData) (s : t) : t :=
  set_history
    (alter (fun prices => prices ++ [close md]) (instrument md)
           (historical_data s))
    s.

Record reply := {
  state : t;
  orders : list Order;
  out : outcome
}.

(** Lines 63-64: the counter follows the first instrument's feed. *)
Definition count_tick (md : MarketData) (s : t) : result t :=
  reference ← getitem (instrument_list s) 0;
  mret (if decide (instrument md = reference)
        then set_counter (rebalance_counter s + 1) s
        else s).

(** [on_marketdatafeed].  [portfolio_value] is what the platform
    answers to [getPortfolio().getPortfolioValue()] during this call. *)
Definition on_marketdatafeed (portfolio_value : Qc) (md : MarketData)
    (s : t) : reply :=
  let s1 := append_close md s in
  match count_tick md s1 with
  | Raise e => {| state := s1; orders := []; out := Raised e |}
  | Ok s2 =>
      if decide (rebalance_counter s2 < rebalance_period s2)
      then {| state := s2; orders := []; out := NotRebalanceDay |}
      else
        let s3 := set_counter 0 s2 in
        let '(os, o) := rebalance s3 portfolio_value in
        {| state := s3; orders := os; out := o |}
  end.

(** The calls of a session after [start]: each tick comes with the
    portfolio value the platform would report during it. *)
Fixpoint run (s : t) (ticks : list (Qc * MarketData)) : list reply :=
  match ticks with
  | [] => []
  | (pv, md) :: ticks' =>
      let r := on_marketdatafeed pv md s in
      r :: run (state r) ticks'
  end.

(** Lines 76 and 86 as they apply to one price history: the length
    guard that makes the cycle wait, then the momentum itself.  The
    guard's branch is what the specification calls
    [InsufficientHistory]. *)
Inductive momentum_result :=
| InsufficientHistory
| Momentum (m : Qc)
| MomentumRaised (e : exn).

Definition guarded_momentum (prices : list Qc) (lookback : Z)
  : momentum_result :=
  if decide (Z.of_nat (length prices) < lookback) then InsufficientHistory
  else
    match momentum prices lookback with
    | Ok m => Momentum m
    | Raise e => MomentumRaised e
    end.

(** The dict that lines 81-87 build when instrument [inst] has
    momentum [score inst]. *)
Definition momentum_scores_of (score : string -> Qc)
    (universe : list string) : dict Qc :=
  foldl (fun d inst => dict_set d inst (score inst)) [] universe.

(** States of a session: [start] on the constructed object, then any
    bulk feeds and market-data ticks. *)
Inductive reachable (s0 : t) : t -> Prop :=
| reach_start : reachable s0 (start s0)
| reach_bulk s isSync bd :
    reachable s0 s -> reachable s0 (on_bulkdatafeed isSync bd s).1
| reach_tick s pv md :
    reachable s0 s -> reachable s0 (state (on_marketdatafeed pv md s)).

(** The last recorded price of an instrument (0 when there is none). *)
Definition last_price (h : gmap string (list Qc)) (inst : string) : Qc :=
  List.last (default [] (h !! inst)) 0%Qc.

(** How many of the ticks come from instrument [reference]. *)
Definition reference_ticks (reference : string)
    (ticks : list (Qc * MarketData)) : Z :=
  Z.of_nat (length (filter (λ t, instrument t.2 = reference) ticks)).

(** What holds of every state of a session: exactly the universe
    instruments have a history, and the counter stays below the
    period. *)
Definition well_formed (s : t) : Prop :=
  (forall inst,
     is_Some (historical_data s !! inst) <-> inst ∈ instrument_list s) ∧
  0 <= rebalance_counter s < rebalance_period s.

(** *** The allocation in the specification's words

    The momentum score of an instrument, the three lists of a cycle,
    and the orders an equal-weight allocation asks for.  The theorems
    compare the handler's output with these. *)
Definition momentum_score (h : gmap string (list Qc)) (lookback : Z)
    (inst : string) : Qc :=
  match momentum (default [] (h !! inst)) lookback with
  | Ok m => m
  | Raise _ => 0%Qc
  end.

(** Momentum in the specification's words: a history is short when it
    has fewer than [lookback] prices; otherwise the score is the last
    price divided by the price [lookback] periods back, minus one. *)
Definition short_history (h : gmap string (list Qc)) (lookback : Z)
    (inst : string) : Prop :=
  Z.of_nat (length (default [] (h !! inst))) < lookback.

Definition price_back (h : gmap string (list Qc)) (lookback : Z)
    (inst : string) : Qc :=
  let prices := default [] (h !! inst) in
  nth (length prices - Z.to_nat lookback) prices 0%Qc.

Definition trailing_return (h : gmap string (list Qc)) (lookback : Z)
    (inst : string) : Qc :=
  (last_price h inst / price_back h lookback inst - 1)%Qc.

Definition cycle_ranking (s : t) : list (string * Qc) :=
  ranked_instruments
    (momentum_scores_of
       (momentum_score (historical_data s) (lookback_period s))
       (instrument_list s)).

Definition cycle_longs (s : t) : list string :=
  longs_of (cycle_ranking s) (hold_N_assets s).

Definition cycle_shorts (s : t) : list string :=
  shorts_of (cycle_ranking s) (hold_N_assets s).

Definition cycle_flats (s : t) : list string :=
  flats_of (instrument_list s) (cycle_longs s) (cycle_shorts s).

Definition capital_per_position (pv : Qc) (s : t) : Qc :=
  (pv / Qc_of_Z (Z.of_nat (length (cycle_longs s))
                 + Z.of_nat (length (cycle_shorts s))))%Qc.

Definition flat_orders (s : t) : list Order :=
  (fun inst => sendOrder inst 0%Qc) <$> cycle_flats s.

Definition long_orders (pv : Qc) (s : t) : list Order :=
  (fun inst =>
     sendOrder inst
       (capital_per_position pv s / last_price (historical_data s) inst)%Qc)
    <$> cycle_longs s.

Definition short_orders (pv : Qc) (s : t) : list Order :=
  (fun inst =>
     sendOrder inst
       (- (capital_per_position pv s
           / last_price (historical_data s) inst))%Qc)
    <$> cycle_shorts s.

(** The sum over the given orders of |target quantity x last price|. *)
Definition notional (h : gmap string (list Qc)) (os : list Order) : Qc :=
  foldr Qcplus 0%Qc
    ((fun o => abs (order_volume o * last_price h (order_instrument o))%Qc)
       <$> os).

(** *** A session seen from outside *)

(** The state after a run of ticks. *)
Definition run_state (s : t) (ticks : list (Qc * MarketData)) : t :=
  foldl (fun s tick => state (on_marketdatafeed tick.1 tick.2 s)) s ticks.

(** The closes that the ticks carry for instrument [inst], in order. *)
Definition closes_of (inst : string) (ticks : list (Qc * MarketData))
  : list Qc :=
  (fun tick => close tick.2) <$> filter (λ tick, instrument tick.2 = inst) ticks.

(** The sum over the given orders of target quantity x last price, with
    its sign: long exposure minus short exposure. *)
Definition net_notional (h : gmap string (list Qc)) (os : list Order) : Qc :=
  foldr Qcplus 0%Qc
    ((fun o => (order_volume o * last_price h (order_instrument o))%Qc)
       <$> os).

(** The fixed arguments of every [sendOrder] call of the handler. *)
Definition standard_order (o : Order) : Prop :=
  order_type o = "MKT"%string ∧ order_price o = 0%Qc ∧
  order_mode o = "TARGET_SHARES"%string.

(** No recorded price is zero. *)
Definition prices_nonzero (h : gmap string (list Qc)) : Prop :=
  forall inst prices, h !! inst = Some prices -> Forall (λ p, p ≠ 0%Qc) prices.

End AlgoEvent.

(** ** backtest_analysis.py *)

Module StrategyBacktester.

Local Open Scope Qc_scope.

(** pandas [Series] of numbers as lists; a [Series] that may hold NaN
    as a list of [option Qc], [None] being NaN. *)

Definition sum (l : list Qc) : Qc := foldr Qcplus 0 l.
Definition prod (l : list Qc) : Qc := foldr Qcmult 1 l.

(** [returns.mean()] of a nonempty series. *)
Definition mean (l : list Qc) : Qc := sum l / Qc_of_Z (Z.of_nat (length l)).

(** [Series.cumprod()]. *)
Fixpoint cumprod_from (acc : Qc) (l : list Qc) : list Qc :=
  match l with
  | [] => []
  | x :: l' => acc * x :: cumprod_from (acc * x) l'
  end.

Definition cumprod (l : list Qc) : list Qc := cumprod_from 1 l.

(** [Series.expanding().max()]. *)
Definition max (x y : Qc) : Qc := if decide (x < y) then y else x.

Fixpoint expanding_max_from (m : Qc) (l : list Qc) : list Qc :=
  match l with
  | [] => []
  | x :: l' => max m x :: expanding_max_from (max m x) l'
  end.

Definition expanding_max (l : list Qc) : list Qc :=
  match l with
  | [] => []
  | x :: l' => x :: expanding_max_from x l'
  end.

(** Elementwise [x / y] of two float series: no exception; a zero
    divisor gives NaN for [0/0] and an infinity otherwise.  The only
    division of this kind below has a zero numerator whenever its
    divisor is zero (lemma [drawdown_zero_over_zero]), so the result
    at a zero divisor is NaN. *)
Definition nan_div (x y : Qc) : option Qc :=
  if decide (y = 0) then None else Some (x / y).

(** [Series.min()]: NaN entries are skipped; NaN when nothing is left. *)
Definition min (x y : Qc) : Qc := if decide (y < x) then y else x.

Fixpoint series_min (l : list (option Qc)) : option Qc :=
  match l with
  | [] => None
  | None :: l' => series_min l'
  | Some x :: l' =>
      match series_min l' with
      | None => Some x
      | Some m => Some (min x m)
      end
  end.

(** Line 87. *)
Definition cumulative (returns : list Qc) : list Qc :=
  cumprod ((fun r => 1 + r) <$> returns).

(** Lines 88-89. *)
Definition drawdown (returns : list Qc) : list (option Qc) :=
  let cumulative := cumulative returns in
  let running_max := expanding_max cumulative in
  zip_with (fun c m => nan_div (c - m) m) cumulative running_max.

(** [calculate_max_drawdown]. *)
Definition calculate_max_drawdown (returns : list Qc) : option Qc :=
  series_min (drawdown returns).

(** [x ** e] for floats: exact for a whole, non-negative exponent;
    other exponents give irrational values in general, which this
    model does not represent ([None]). *)
Definition pow (x e : Qc) : option Qc :=
  if decide (Qden e = 1%positive ∧ (0 <= Qnum e)%Z)
  then Some (x ^ Z.to_nat (Qnum e))
  else None.

(** The entries of the metrics dict that are rational functions of the
    returns.  Volatility and the Sharpe ratio need a square root, the
    other entries play no role here. *)
Record metrics := {
  Total_Return : Qc;
  Annualized_Return : option Qc;
  Max_Drawdown : option Qc;
  Calmar_Ratio : option Qc
}.

(** Line 75: [(returns.mean() * 252) / abs(mdd) if mdd != 0 else 0].
    NaN is different from 0 and any arithmetic on NaN is NaN. *)
Definition calmar (returns : list Qc) : option Qc :=
  match calculate_max_drawdown returns with
  | None => None
  | Some mdd =>
      if decide (mdd ≠ 0) then Some (mean returns * Qc_of_Z 252 / abs mdd)
      else Some 0
  end.

(** [calculate_performance_metrics]; [None] is the empty dict of
    line 61. *)
Definition calculate_performance_metrics (returns : list Qc)
  : option metrics :=
  if decide (length returns = 0%nat) then None
  else
    let gross := prod ((fun r => r + 1) <$> returns) in
    Some {|
      Total_Return := gross - 1;
      Annualized_Return :=
        (fun g => g - 1) <$>
          pow gross (Qc_of_Z 252 / Qc_of_Z (Z.of_nat (length returns)));
      Max_Drawdown := calculate_max_drawdown returns;
      Calmar_Ratio := calmar returns
    |}.

(** Lines 71-74: the entries computed from the winning and the losing
    periods.  [returns[returns > 0]] is the sub-series of the positive
    returns; the [mean] of a nonempty series is its sum over its
    length, the [sum] of an empty one is 0. *)
Definition wins (returns : list Qc) : list Qc :=
  filter (λ r, 0 < r) returns.

Definition losses (returns : list Qc) : list Qc :=
  filter (λ r, r < 0) returns.

(** ['Win Rate']: [(returns > 0).sum() / len(returns)]. *)
Definition win_rate (returns : list Qc) : Qc :=
  Qc_of_Z (Z.of_nat (length (wins returns)))
  / Qc_of_Z (Z.of_nat (length returns)).

(** ['Average Win'] and ['Average Loss']. *)
Definition average_win (returns : list Qc) : Qc :=
  if decide (wins returns ≠ []) then mean (wins returns) else 0.

Definition average_loss (returns : list Qc) : Qc :=
  if decide (losses returns ≠ []) then mean (losses returns) else 0.

(** ['Profit Factor']: a number, or [float('inf')] when no return is
    negative.  The divisor is the sum of the negative returns, which is
    not zero when there is one. *)
Inductive factor :=
| Finite (q : Qc)
| Infinite.

Definition profit_factor (returns : list Qc) : factor :=
  if decide (losses returns ≠ [])
  then Finite (abs (sum (wins returns) / sum (losses returns)))
  else Infinite.

(** [analyze_trade_distribution]: a trade is read through its ['pnl']
    and ['duration'] columns. *)
Record Trade := { pnl : Qc; duration : Qc }.

Record trade_analysis := {
  Total_Trades : nat;
  Winning_Trades : nat;
  Losing_Trades : nat;
  Average_Trade_Duration : Qc;
  Best_Trade : Qc;
  Worst_Trade : Qc;
  Average_Trade_PnL : Qc;
  Trade_Frequency : Qc
}.

(** [Series.max()] and [Series.min()] of a series with first entry [x]. *)
Definition series_max (x : Qc) (l : list Qc) : Qc := foldr max x l.
Definition series_least (x : Qc) (l : list Qc) : Qc := foldr min x l.

Definition analyze_trade_distribution (trades : list Trade)
  : option trade_analysis :=
  match trades with
  | [] => None
  | first :: rest =>
      let pnls := pnl <$> trades in
      Some {|
        Total_Trades := length trades;
        Winning_Trades := length (filter (λ x, 0 < x) pnls);
        Losing_Trades := length (filter (λ x, x < 0) pnls);
        Average_Trade_Duration := mean (duration <$> trades);
        Best_Trade := series_max (pnl first) (pnl <$> rest);
        Worst_Trade := series_least (pnl first) (pnl <$> rest);
        Average_Trade_PnL := mean pnls;
        Trade_Frequency :=
          Qc_of_Z (Z.of_nat (length trades)) / Qc_of_Z 252
      |}
  end.

(** Lines 42-44 of [generate_sample_data]: the price path that a series
    of returns builds from [start_price].  (The returns themselves are
    drawn at random there.) *)
Fixpoint extend_prices (last_price : Qc) (returns : list Qc) : list Qc :=
  match returns with
  | [] => []
  | ret :: returns' =>
      last_price * (1 + ret)
      :: extend_prices (last_price * (1 + ret)) returns'
  end.

Definition price_path (start_price : Qc) (returns : list Qc) : list Qc :=
  start_price :: extend_prices start_price returns.

End StrategyBacktester.

(** ** HatredTextFilter.py *)

Module HatredTextFilter.

(** [vocabList.index(word)] for a word that is in the list: the position
    of its first occurrence. *)
Fixpoint index (vocabList : list string) (word : string) : nat :=
  match vocabList with
  | [] => 0
  | w :: rest => if decide (w = word) then 0 else S (index rest word)
  end.

(** [setOfWords2Vec]: the loop over [inputSet], on [returnVec]; a word
    that is not in the vocabulary is reported and skipped. *)
Fixpoint mark_words (vocabList inputSet : list string) (returnVec : list Z)
  : list Z :=
  match inputSet with
  | [] => returnVec
  | word :: rest =>
      if decide (word ∈ vocabList)
      then mark_words vocabList rest (<[index vocabList word := 1%Z]> returnVec)
      else mark_words vocabList rest returnVec
  end.

Definition setOfWords2Vec (vocabList inputSet : list string) : list Z :=
  mark_words vocabList inputSet (replicate (length vocabList) 0%Z).

End HatredTextFilter.

(** ** Sample values *)

Module Sample.
Import AlgoEvent.

(** The object that [__init__] builds. *)
Definition shipped : AlgoEvent.t :=
  {| instrument_list := ["SPY"; "QQQ"; "IWM"; "EFA"; "EEM"; "GLD"; "USO"]%string;
     lookback_period := 120; rebalance_period := 20; hold_N_assets := 2;
     rebalance_counter := 0; historical_data := ∅ |}.

(** A two-instrument engine: lookback 2, rebalance every tick of [A],
    one long and one short. *)
Definition small : AlgoEvent.t :=
  {| instrument_list := ["A"; "B"]%string;
     lookback_period := 2; rebalance_period := 1; hold_N_assets := 1;
     rebalance_counter := 0; historical_data := ∅ |}.

(** The same with a rebalance period of two reference ticks. *)
Definition slow : AlgoEvent.t :=
  {| instrument_list := ["A"; "B"]%string;
     lookback_period := 2; rebalance_period := 2; hold_N_assets := 1;
     rebalance_counter := 0; historical_data := ∅ |}.

(** The scores of the scenario: A 0.10, B -0.05, C 0.02, D -0.10. *)
Definition scenario_score (inst : string) : Qc :=
  if decide (inst = "A"%string) then Q2Qc 0.10
  else if decide (inst = "B"%string) then Q2Qc (-0.05)
  else if decide (inst = "C"%string) then Q2Qc 0.02
  else Q2Qc (-0.10).

Definition tick (inst : string) (price : Z) : MarketData :=
  {| instrument := inst; close := Qc_of_Z price |}.

(** [small] after [start] and a bulk feed of two bars per instrument. *)
Definition small_loaded : AlgoEvent.t :=
  (on_bulkdatafeed true
     {[ "A"%string := [Qc_of_Z 10; Qc_of_Z 11];
        "B"%string := [Qc_of_Z 20; Qc_of_Z 19] ]}
     (start small)).1.

(** The same state written out. *)
Definition small_histories : gmap string (list Qc) :=
  <["A"%string := [Qc_of_Z 10; Qc_of_Z 11]]>
    (<["B"%string := [Qc_of_Z 20; Qc_of_Z 19]]> ∅).

Definition small_preloaded : AlgoEvent.t := set_history small_histories small.

(** [small_loaded] after a tick of [B] with close 0: the last price of
    [B] is 0, its price two periods back is not. *)
Definition small_zero_last : AlgoEvent.t :=
  state (on_marketdatafeed (Qc_of_Z 100) (tick "B" 0) small_loaded).
End Sample.

(** ** Statements that are tested against the code

    Each is the property of a call or of a return series that a sentence
    of the specification asserts for all inputs. *)

Module Stated.
Import AlgoEvent StrategyBacktester.
Local Open Scope Qc_scope.

(** Equal-weight allocation: an executed cycle sends the flat, long
    and short orders of the allocation, and the long and short orders
    together have a notional equal to the portfolio value. *)
Definition equal_weight (pv : Qc) (md : MarketData) (s : AlgoEvent.t)
  : Prop :=
  let r := on_marketdatafeed pv md s in
  out r = Rebalanced ->
  orders r = flat_orders (state r) ++ long_orders pv (state r)
             ++ short_orders pv (state r) ∧
  notional (historical_data (state r))
           (long_orders pv (state r) ++ short_orders pv (state r)) = pv.

(** One order per instrument: on an executed cycle of an engine whose
    universe has room for [K] longs and [K] shorts, the three lists
    are pairwise disjoint and cover the universe, and there is exactly
    one target-shares order per universe instrument, with target 0 for
    a flat, a positive target for a long and a negative one for a
    short instrument. *)
Definition one_order_each (pv : Qc) (md : MarketData) (s : AlgoEvent.t)
  : Prop :=
  let r := on_marketdatafeed pv md s in
  let longs := cycle_longs (state r) in
  let shorts := cycle_shorts (state r) in
  let flats := cycle_flats (state r) in
  out r = Rebalanced ->
  (2 * hold_N_assets (state r)
     <= Z.of_nat (length (instrument_list (state r))))%Z ->
  NoDup (longs ++ shorts ++ flats) ∧
  (forall inst,
     inst ∈ instrument_list (state r) <-> inst ∈ longs ++ shorts ++ flats) ∧
  order_instrument <$> orders r ≡ₚ instrument_list (state r) ∧
  Forall (λ o, order_mode o = "TARGET_SHARES"%string) (orders r) ∧
  Forall (λ o, (order_instrument o ∈ flats -> order_volume o = 0) ∧
               (order_instrument o ∈ longs -> 0 < order_volume o) ∧
               (order_instrument o ∈ shorts -> order_volume o < 0))
         (orders r).

(** Calmar is the annualized return over |max drawdown|, and 0 when
    the max drawdown is 0. *)
Definition calmar_from_annualized (returns : list Qc) : Prop :=
  forall m d,
    calculate_performance_metrics returns = Some m ->
    Max_Drawdown m = Some d ->
    (d ≠ 0 ->
     forall annualized, Annualized_Return m = Some annualized ->
       Calmar_Ratio m = Some (annualized / abs d)) ∧
    (d = 0 -> Calmar_Ratio m = Some 0).

(** The max drawdown of a nonempty series is a number that is at most
    0, and it is 0 only for a non-decreasing cumulative path. *)
Definition drawdown_sign (returns : list Qc) : Prop :=
  returns ≠ [] ->
  exists d, calculate_max_drawdown returns = Some d ∧ d <= 0 ∧
            (d = 0 -> StronglySorted Qcle (cumulative returns)).
End Stated.

Import AlgoEvent.
Import StrategyBacktester.

(** * Properties *)

(** ** Arithmetic on [Qc] *)

Lemma Qc_eq_Qeq (x y : Qc) : x = y <-> (x == y)%Q.
Proof. split; [by intros ->|apply Qc_is_canon]. Qed.

(** Turns a goal about [Qc] sums, products and comparisons into the same
    goal about [Q], where [lra] and [nra] apply. *)
Ltac to_Q :=
  repeat match goal with
  | H : @eq Qc _ _ |- _ => apply Qc_eq_Qeq in H
  | H : ~ @eq Qc _ _ |- _ => rewrite Qc_eq_Qeq in H
  | |- @eq Qc _ _ => apply Qc_is_canon
  | |- ~ @eq Qc _ _ => rewrite Qc_eq_Qeq
  end;
  unfold Qcle, Qclt, Qcminus in *;
  unfold Qcplus, Qcmult, Qcopp in *;
  cbn [this Q2Qc] in *;
  rewrite ?Qred_correct in *.

Section arithmetic.
Local Open Scope Qc_scope.
Implicit Types x y c : Qc.

Lemma Qc_pos_nonzero x : 0 < x -> x ≠ 0.
Proof. intros H. to_Q. lra. Qed.

Lemma abs_nonneg x : 0 <= x -> abs x = x.
Proof.
  intros H. unfold abs. destruct (decide (x < 0)); [|done]. to_Q. lra.
Qed.

Lemma abs_opp x : abs (- x) = abs x.
Proof.
  unfold abs. destruct (decide (- x < 0)), (decide (x < 0));
    to_Q; lra.
Qed.

Lemma Qcdiv_neg_iff x y : 0 < y -> (x / y < 0 <-> x < 0).
Proof.
  intros Hy. assert (x = x / y * y) as Hx
    by (field; by apply Qc_pos_nonzero).
  split; intros H.
  - rewrite Hx. rewrite <- (Qcmult_0_l y). by apply Qcmult_lt_compat_r.
  - apply Qcnot_le_lt. intros Hle.
    apply (Qcmult_le_compat_r _ _ y) in Hle; [|by apply Qclt_le_weak].
    rewrite <- Hx, Qcmult_0_l in Hle. by apply Qcle_not_lt in Hle.
Qed.

Lemma abs_share x y : 0 < y -> y * abs (x / y) = abs x.
Proof.
  intros Hy. pose proof (Qcdiv_neg_iff x y Hy) as Hiff.
  pose proof (Qc_pos_nonzero y Hy).
  unfold abs. destruct (decide (x / y < 0)), (decide (x < 0));
    try tauto; by field.
Qed.

Lemma abs_quantity_price c p : p ≠ 0 -> abs (c / p * p) = abs c.
Proof. intros. f_equal. by field. Qed.

Lemma abs_short_quantity_price c p : p ≠ 0 -> abs (- (c / p) * p) = abs c.
Proof. intros. rewrite <- (abs_opp c). f_equal. by field. Qed.

Lemma sum_constant {A} (f : A -> Qc) (l : list A) c :
  Forall (λ a, f a = c) l ->
  foldr Qcplus 0 (f <$> l) = Qc_of_Z (Z.of_nat (length l)) * c.
Proof.
  induction 1 as [|a l Ha _ IH].
  - rewrite fmap_nil. cbn [foldr length].
    change (Z.of_nat 0) with 0%Z. rewrite Z2Qc_inj_0. ring.
  - rewrite fmap_cons. cbn [foldr length]. rewrite Nat2Z.inj_succ.
    unfold Z.succ. rewrite Z2Qc_inj_add, Z2Qc_inj_1, IH, Ha. ring.
Qed.
End arithmetic.

(** ** Python primitives *)

Section primitives.
Context {A : Type}.
Implicit Types l : list A.

Lemma getitem_nonneg l (i : nat) x :
  l !! i = Some x -> getitem l (Z.of_nat i) = Ok x.
Proof.
  intros Hx. pose proof (lookup_lt_Some _ _ _ Hx) as Hlt.
  unfold getitem. cbv zeta. destruct (decide (Z.of_nat i < 0)); [lia|].
  rewrite decide_True by lia. by rewrite Nat2Z.id, Hx.
Qed.

Lemma getitem_from_end l (k : Z) x :
  0 < k <= Z.of_nat (length l) ->
  l !! (length l - Z.to_nat k)%nat = Some x ->
  getitem l (- k) = Ok x.
Proof.
  intros Hk Hx. unfold getitem. cbv zeta.
  destruct (decide (- k < 0)); [|lia]. rewrite decide_True by lia.
  replace (Z.to_nat (- k + Z.of_nat (length l)))
    with (length l - Z.to_nat k)%nat by lia.
  by rewrite Hx.
Qed.

Lemma getitem_head x l : getitem (x :: l) 0 = Ok x.
Proof. by apply (getitem_nonneg (x :: l) 0%nat). Qed.

Lemma getitem_nil (i : Z) : getitem (@nil A) i = Raise IndexError.
Proof.
  unfold getitem. simpl. destruct (decide (i < 0)).
  - destruct (decide _); [lia|done].
  - destruct (decide _); [lia|done].
Qed.

Lemma getitem_last l x : getitem (l ++ [x]) (-1) = Ok x.
Proof.
  apply (getitem_from_end (l ++ [x]) 1 x); rewrite length_app;
    cbn [length]; [lia|].
  replace (length l + 1 - Z.to_nat 1)%nat with (length l) by lia.
  by rewrite lookup_app_r, Nat.sub_diag by lia.
Qed.

Lemma slice_to_take l (k : Z) :
  0 <= k -> slice_to l k = take (Z.to_nat k) l.
Proof. intros. unfold slice_to. by destruct (decide (k < 0)); [lia|]. Qed.

Lemma slice_from_drop l (k : Z) :
  0 < k -> slice_from l (- k) = drop (length l - Z.to_nat k) l.
Proof.
  intros. unfold slice_from. destruct (decide (- k < 0)); [|lia].
  f_equal. lia.
Qed.

End primitives.

(** ** The engine's state *)

Section engine_state.
Implicit Types (s : AlgoEvent.t) (md : MarketData) (pv : Qc).

Lemma set_history_same s : set_history (historical_data s) s = s.
Proof. by destruct s. Qed.

Lemma append_close_foreign md s :
  historical_data s !! instrument md = None -> append_close md s = s.
Proof.
  intros Hnone. unfold append_close.
  assert (alter (fun prices => prices ++ [close md]) (instrument md)
            (historical_data s) = historical_data s) as ->;
    [|apply set_history_same].
  apply map_eq. intros k. destruct (decide (k = instrument md)) as [->|].
  - by rewrite lookup_alter_eq, Hnone.
  - by rewrite lookup_alter_ne.
Qed.

Lemma count_tick_head md s reference rest :
  instrument_list s = reference :: rest ->
  count_tick md s =
    Ok (if decide (instrument md = reference)
        then set_counter (rebalance_counter s + 1) s else s).
Proof. intros Hl. unfold count_tick. by rewrite Hl, getitem_head. Qed.

Lemma count_tick_empty md s :
  instrument_list s = [] -> count_tick md s = Raise IndexError.
Proof. intros Hl. unfold count_tick. by rewrite Hl, getitem_nil. Qed.

Lemma execute_trades_out s pv longs shorts flats :
  (execute_trades s pv longs shorts flats).2 ≠ NotRebalanceDay.
Proof.
  unfold execute_trades. repeat case_match; simpl; congruence.
Qed.

Lemma rebalance_out s pv : (rebalance s pv).2 ≠ NotRebalanceDay.
Proof.
  unfold rebalance. repeat case_match; simpl;
    try congruence; apply execute_trades_out.
Qed.

(** The parameters are never written by the handler. *)
Lemma on_marketdatafeed_params pv md s :
  let s' := state (on_marketdatafeed pv md s) in
  instrument_list s' = instrument_list s ∧
  lookback_period s' = lookback_period s ∧
  rebalance_period s' = rebalance_period s ∧
  hold_N_assets s' = hold_N_assets s.
Proof.
  unfold on_marketdatafeed, count_tick. simpl.
  destruct (getitem (instrument_list s) 0); simpl; [|done].
  repeat case_match; simpl; done.
Qed.

(** One call, seen from the counter: the call passes line 68 exactly
    when the tick is the reference instrument's and completes the
    period. *)
Lemma on_marketdatafeed_counter pv md s reference rest :
  instrument_list s = reference :: rest ->
  0 <= rebalance_counter s < rebalance_period s ->
  let r := on_marketdatafeed pv md s in
  if decide (instrument md = reference ∧
             rebalance_counter s + 1 = rebalance_period s)
  then out r ≠ NotRebalanceDay ∧ rebalance_counter (state r) = 0
  else out r = NotRebalanceDay ∧ orders r = [] ∧
       rebalance_counter (state r) =
         rebalance_counter s + (if decide (instrument md = reference) then 1 else 0).
Proof.
  intros Hl Hc. unfold on_marketdatafeed.
  rewrite (count_tick_head md _ reference rest) by done.
  destruct (decide (instrument md = reference)) as [Href|Href];
    cbn [rebalance_counter rebalance_period set_counter append_close
         set_history].
  - destruct (decide (rebalance_counter s + 1 < rebalance_period s)).
    + rewrite decide_False by (intros [_ ?]; lia). simpl. done.
    + rewrite decide_True by (split; [done|lia]).
      pose proof (rebalance_out
        (set_counter 0 (set_counter (rebalance_counter s + 1) (append_close md s))) pv).
      unfold append_close in *.
      destruct (rebalance _ _); simpl in *. done.
  - destruct (decide (rebalance_counter s < rebalance_period s)); [|lia].
    rewrite decide_False by tauto. simpl.
    split; [done|]. split; [done|lia].
Qed.
End engine_state.

(** ** The rebalance trigger over a run of ticks *)

Section trigger.
Implicit Types (s : AlgoEvent.t) (ticks : list (Qc * MarketData)).

Lemma reference_ticks_cons reference pv md ticks :
  reference_ticks reference ((pv, md) :: ticks) =
    (if decide (instrument md = reference) then 1 else 0)
    + reference_ticks reference ticks.
Proof.
  unfold reference_ticks. rewrite filter_cons. simpl.
  destruct (decide (instrument md = reference)); simpl; lia.
Qed.

Lemma reference_ticks_nonneg reference ticks :
  0 <= reference_ticks reference ticks.
Proof. unfold reference_ticks. lia. Qed.

(** Where the rebalancing days of a run fall, and how many there are. *)
Lemma run_rebalance_days reference rest ticks : forall s,
  instrument_list s = reference :: rest ->
  0 <= rebalance_counter s < rebalance_period s ->
  (forall i r, run s ticks !! i = Some r ->
     (out r ≠ NotRebalanceDay <->
      exists pv md, ticks !! i = Some (pv, md) ∧ instrument md = reference ∧
        (rebalance_counter s + reference_ticks reference (take (S i) ticks))
          `mod` rebalance_period s = 0)) ∧
  Z.of_nat (length (filter (λ r, out r ≠ NotRebalanceDay) (run s ticks))) =
    (rebalance_counter s + reference_ticks reference ticks)
      `div` rebalance_period s.
Proof.
  induction ticks as [|[pv md] ticks IH]; intros s Hl Hc.
  { split; [intros i r; by rewrite lookup_nil|].
    simpl. unfold reference_ticks. simpl.
    rewrite Z.add_0_r, Z.div_small by lia. done. }
  pose proof (on_marketdatafeed_counter pv md s reference rest Hl Hc) as Hstep.
  pose proof (on_marketdatafeed_params pv md s) as (Hl' & _ & Hp' & _).
  simpl in Hstep, Hl', Hp'. simpl run.
  set (r0 := on_marketdatafeed pv md s) in *.
  assert (0 <= rebalance_counter (state r0) < rebalance_period (state r0)) as Hc'.
  { rewrite Hp'. destruct (decide _) as [[? ?]|?] in Hstep.
    - destruct Hstep as [_ ->]. lia.
    - destruct Hstep as (_ & _ & ->). case_decide; [|lia].
      assert (rebalance_counter s + 1 ≠ rebalance_period s) by tauto. lia. }
  destruct (IH (state r0)) as [IHat IHcount]; [by rewrite Hl', Hl|done|].
  rewrite Hp' in IHat, IHcount.
  assert (forall x,
    (rebalance_counter (state r0) + x) `mod` rebalance_period s =
    (rebalance_counter s +
       ((if decide (instrument md = reference) then 1 else 0) + x))
      `mod` rebalance_period s) as Hmod.
  { intros x. destruct (decide _) as [[Href Hfull]|Hno] in Hstep.
    - destruct Hstep as [_ ->]. rewrite decide_True by done.
      replace (rebalance_counter s + (1 + x))
        with (x + 1 * rebalance_period s) by lia.
      by rewrite Z_mod_plus_full.
    - destruct Hstep as (_ & _ & ->). f_equal. lia. }
  split.
  - intros [|i] r Hr; simpl in Hr.
    + injection Hr as <-.
      change (take 1 ((pv, md) :: ticks)) with ((pv, md) :: take 0 ticks).
      rewrite take_0, reference_ticks_cons.
      unfold reference_ticks at 1. simpl. rewrite Z.add_0_r.
      destruct (decide _) as [[Href Hfull]|Hno] in Hstep.
      * destruct Hstep as [Hout _]. split; [intros _|done].
        exists pv, md. rewrite decide_True by done.
        rewrite Hfull, Z_mod_same_full. done.
      * destruct Hstep as (Hout & _ & _). split; [done|].
        intros (pv' & md' & Heq & Href & Hm). simpl in Heq.
        injection Heq as <- <-. rewrite decide_True in Hm by done.
        destruct (decide (rebalance_counter s + 1 = rebalance_period s));
          [tauto|].
        rewrite Z.mod_small in Hm by lia. lia.
    + rewrite (IHat i r Hr), Hmod.
      change (take (S (S i)) ((pv, md) :: ticks))
        with ((pv, md) :: take (S i) ticks).
      by rewrite reference_ticks_cons.
  - rewrite filter_cons. rewrite reference_ticks_cons.
    destruct (decide _) as [[Href Hfull]|Hno] in Hstep.
    + destruct Hstep as [Hout Hzero]. rewrite decide_True by done.
      rewrite decide_True by done. cbn [length]. rewrite Nat2Z.inj_succ, IHcount.
      rewrite Hzero, Z.add_0_l.
      replace (rebalance_counter s + (1 + reference_ticks reference ticks))
        with (reference_ticks reference ticks + 1 * rebalance_period s) by lia.
      rewrite Z_div_plus_full by lia. lia.
    + destruct Hstep as (Hout & _ & Hcnt). rewrite decide_False by (by rewrite Hout; intros []).
      rewrite IHcount, Hcnt. f_equal. lia.
Qed.
End trigger.

(** ** Invariants of a session *)

Section session.
Implicit Types (s : AlgoEvent.t) (h : gmap string (list Qc)).

Lemma start_lookup (l : list string) : forall h inst,
  is_Some (foldl (fun h inst => <[inst := []]> h) h l !! inst) <->
  inst ∈ l ∨ is_Some (h !! inst).
Proof.
  induction l as [|k l IH]; intros h inst; simpl.
  - rewrite elem_of_nil. tauto.
  - rewrite IH, elem_of_cons. destruct (decide (inst = k)) as [->|Hne].
    + rewrite lookup_insert_eq. split; [auto|]. intros _. right. eauto.
    + rewrite lookup_insert_ne by done. tauto.
Qed.

Lemma bulk_loop_lookup bd (l : list string) : forall h inst,
  is_Some ((bulk_loop bd l h).1 !! inst) <-> is_Some (h !! inst).
Proof.
  induction l as [|k l IH]; intros h inst; simpl; [done|].
  destruct (bd !! k) as [[|bar bars]|]; [apply IH| |apply IH].
  destruct (h !! k) as [prices|] eqn:Hk; [|done].
  rewrite IH. destruct (decide (inst = k)) as [->|Hne].
  - rewrite lookup_insert_eq, Hk. split; eauto.
  - by rewrite lookup_insert_ne.
Qed.

Lemma on_bulkdatafeed_frame isSync bd s :
  let s' := (on_bulkdatafeed isSync bd s).1 in
  instrument_list s' = instrument_list s ∧
  lookback_period s' = lookback_period s ∧
  rebalance_period s' = rebalance_period s ∧
  hold_N_assets s' = hold_N_assets s ∧
  rebalance_counter s' = rebalance_counter s ∧
  forall inst, is_Some (historical_data s' !! inst) <->
               is_Some (historical_data s !! inst).
Proof.
  unfold on_bulkdatafeed. destruct isSync; [|done].
  pose proof (bulk_loop_lookup bd (instrument_list s) (historical_data s)) as H.
  destruct (bulk_loop _ _ _) as [h e]. simpl in *. done.
Qed.

Lemma on_marketdatafeed_history pv md s :
  historical_data (state (on_marketdatafeed pv md s)) =
  historical_data (append_close md s).
Proof.
  unfold on_marketdatafeed, count_tick.
  destruct (getitem _ _); simpl; [|done].
  repeat case_match; simpl; done.
Qed.

Lemma on_marketdatafeed_well_formed pv md s :
  well_formed s -> well_formed (state (on_marketdatafeed pv md s)).
Proof.
  intros [Hdom Hc].
  pose proof (on_marketdatafeed_params pv md s) as (Hl & _ & Hp & _).
  simpl in Hl, Hp. split.
  - intros inst. rewrite on_marketdatafeed_history, Hl, <- Hdom.
    unfold append_close. simpl. apply lookup_alter_is_Some.
  - rewrite Hp. destruct (instrument_list s) as [|reference rest] eqn:Hu.
    + unfold on_marketdatafeed.
      rewrite count_tick_empty by done. simpl. done.
    + pose proof (on_marketdatafeed_counter pv md s reference rest Hu Hc) as H.
      simpl in H. destruct (decide _) as [[? ?]|Hno] in H.
      * destruct H as [_ ->]. lia.
      * destruct H as (_ & _ & ->). case_decide; [|lia].
        assert (rebalance_counter s + 1 ≠ rebalance_period s) by tauto. lia.
Qed.

Lemma reachable_well_formed universe lookback period hold s0 s :
  construct universe lookback period hold = Ok s0 ->
  0 < period ->
  reachable s0 s ->
  well_formed s ∧ instrument_list s = universe ∧
  lookback_period s = lookback ∧ rebalance_period s = period ∧
  hold_N_assets s = hold.
Proof.
  intros [= <-] Hp Hreach. induction Hreach as [|s isSync bd _ IH|s pv md _ IH].
  - split; [|done]. split; simpl; [|lia].
    intros inst. rewrite start_lookup, lookup_empty.
    split; [intros [?|[? [=]]]; done|auto].
  - destruct IH as ([Hdom Hc] & Hl & Hlb & Hper & Hk).
    pose proof (on_bulkdatafeed_frame isSync bd s)
      as (Hl' & Hlb' & Hp' & Hk' & Hc' & Hd).
    simpl in *.
    split; [|repeat split; congruence]. split.
    + intros inst. by rewrite Hd, Hdom, Hl', Hl.
    + by rewrite Hc', Hp'.
  - destruct IH as (Hwf & Hl & Hlb & Hper & Hk).
    pose proof (on_marketdatafeed_params pv md s) as (Hl' & Hlb' & Hp' & Hk').
    simpl in *.
    split; [|repeat split; congruence]. by apply on_marketdatafeed_well_formed.
Qed.
End session.

(** ** The history guard and the shape of one call *)

Section guard.
Implicit Types (s : AlgoEvent.t) (h : gmap string (list Qc)).

Lemma check_history_enough h lookback (l : list string) :
  check_history h lookback l = Ok None <->
  forall inst, inst ∈ l ->
    exists prices, h !! inst = Some prices ∧
                   lookback <= Z.of_nat (length prices).
Proof.
  induction l as [|k l IH]; simpl.
  - split; [intros _ inst Hin; by apply elem_of_nil in Hin|done].
  - unfold lookup_key. destruct (h !! k) as [prices|] eqn:Hk; simpl.
    + destruct (decide (Z.of_nat (length prices) < lookback)).
      * split; [done|]. intros Hall.
        destruct (Hall k) as (prices' & Hk' & Hlen); [by left|].
        rewrite Hk in Hk'. injection Hk' as <-. lia.
      * rewrite IH. split.
        -- intros Hall inst [->|Hin]%elem_of_cons; [|by apply Hall].
           exists prices. split; [done|lia].
        -- intros Hall inst Hin. apply Hall. by right.
    + split; [done|]. intros Hall.
      destruct (Hall k) as (prices' & Hk' & _); [by left|]. congruence.
Qed.

Lemma check_history_short h lookback (l : list string) inst :
  check_history h lookback l = Ok (Some inst) ->
  inst ∈ l ∧ exists prices, h !! inst = Some prices ∧
                            Z.of_nat (length prices) < lookback.
Proof.
  induction l as [|k l IH]; simpl; [done|].
  unfold lookup_key. destruct (h !! k) as [prices|] eqn:Hk; simpl; [|done].
  destruct (decide (Z.of_nat (length prices) < lookback)).
  - intros [= <-]. split; [by left|]. by exists prices.
  - intros [Hin Hex]%IH. split; [by right|done].
Qed.

Lemma check_history_total h lookback (l : list string) :
  (forall inst, inst ∈ l -> is_Some (h !! inst)) ->
  exists o, check_history h lookback l = Ok o.
Proof.
  induction l as [|k l IH]; simpl; intros Hall; [by eexists|].
  destruct (Hall k) as [prices Hk]; [by left|].
  unfold lookup_key. rewrite Hk. simpl.
  destruct (decide _); [by eexists|]. apply IH. intros inst Hin.
  apply Hall. by right.
Qed.

(** The three ways a call of the handler can go. *)
Lemma on_marketdatafeed_cases pv md s :
  let r := on_marketdatafeed pv md s in
  (out r = NotRebalanceDay ∧ orders r = []) ∨
  (out r = Raised IndexError ∧ orders r = [] ∧ instrument_list s = []) ∨
  (state r = set_counter 0 (append_close md s) ∧
   orders r = (rebalance (state r) pv).1 ∧
   out r = (rebalance (state r) pv).2).
Proof.
  unfold on_marketdatafeed.
  destruct (instrument_list s) as [|reference rest] eqn:Hu.
  - rewrite count_tick_empty by done. simpl. auto.
  - rewrite (count_tick_head md _ reference rest) by done.
    destruct (decide (_ < _)); simpl; [auto|]. right. right.
    assert (forall c s', set_counter 0 (set_counter c s') = set_counter 0 s')
      as Htwice by done.
    destruct (decide (instrument md = reference)); rewrite ?Htwice;
      destruct (rebalance _ _) as [os o] eqn:Hreb; cbn [state orders out];
      rewrite Hreb; done.
Qed.

Lemma rebalance_orders_enough s pv :
  (rebalance s pv).1 ≠ [] ->
  check_history (historical_data s) (lookback_period s)
                (instrument_list s) = Ok None.
Proof.
  unfold rebalance. destruct (check_history _ _ _) as [[inst|]|e]; simpl; done.
Qed.

(** A run with too few reference ticks to complete the period has no
    rebalancing day. *)
Lemma run_idle reference rest ticks : forall s,
  instrument_list s = reference :: rest ->
  0 <= rebalance_counter s ->
  rebalance_counter s + reference_ticks reference ticks
    < rebalance_period s ->
  Forall (λ r, out r = NotRebalanceDay ∧ orders r = []) (run s ticks).
Proof.
  induction ticks as [|[pv md] ticks IH]; intros s Hl Hc Hlt; simpl;
    [constructor|].
  rewrite reference_ticks_cons in Hlt.
  pose proof (reference_ticks_nonneg reference ticks).
  assert (0 <= rebalance_counter s < rebalance_period s) as Hc'
    by (case_decide; lia).
  pose proof (on_marketdatafeed_counter pv md s reference rest Hl Hc') as Hstep.
  pose proof (on_marketdatafeed_params pv md s) as (Hl' & _ & Hp' & _).
  simpl in Hstep, Hl', Hp'.
  destruct (decide _) as [[Href Hfull]|Hno] in Hstep.
  { rewrite decide_True in Hlt by done. lia. }
  destruct Hstep as (Hout & Hord & Hcnt). constructor; [done|].
  apply IH; [by rewrite Hl'|rewrite Hcnt; case_decide; lia|].
  rewrite Hcnt, Hp'. lia.
Qed.
End guard.

(** ** Claims about the handler's control flow *)

(** C10.  A market-data tick for an instrument outside the configured
    universe leaves the whole engine state as it was (no history is
    created or extended, the rebalance counter does not move) and sends
    no order; with a nonempty universe the call ends at the early
    [return] of line 68.  The states are those of a session ([start],
    then any feeds) of an engine with a positive rebalance period. *)
Theorem foreign_tick_is_ignored universe lookback period hold s0 s pv md :
  construct universe lookback period hold = Ok s0 ->
  0 < period ->
  reachable s0 s ->
  instrument md ∉ universe ->
  let r := on_marketdatafeed pv md s in
  state r = s ∧ orders r = [] ∧ (universe ≠ [] -> out r = NotRebalanceDay).
Proof.
  intros Hs0 Hp Hreach Hforeign.
  destruct (reachable_well_formed _ _ _ _ _ _ Hs0 Hp Hreach)
    as ([Hdom Hc] & Hl & _ & Hper & _).
  assert (historical_data s !! instrument md = None) as Hnone.
  { apply eq_None_not_Some. rewrite Hdom, Hl. done. }
  simpl. unfold on_marketdatafeed. rewrite (append_close_foreign md s Hnone).
  destruct universe as [|reference rest].
  - rewrite count_tick_empty by done. done.
  - rewrite (count_tick_head md s reference rest) by done.
    destruct (decide (instrument md = reference)) as [<-|_];
      [exfalso; apply Hforeign; by left|].
    destruct (decide (rebalance_counter s < rebalance_period s)); [done|lia].
Qed.

Lemma foreign_tick_is_ignored_witness :
  let s := start Sample.shipped in
  let r := on_marketdatafeed (Qc_of_Z 100000) (Sample.tick "AAPL" 150) s in
  state r = s ∧ orders r = [] ∧
  (instrument_list Sample.shipped ≠ [] -> out r = NotRebalanceDay).
Proof.
  apply (foreign_tick_is_ignored
           (instrument_list Sample.shipped) 120 20 2 Sample.shipped).
  - reflexivity.
  - lia.
  - apply reach_start.
  - apply (bool_decide_unpack _). vm_compute. exact I.
Defined.

(** C8.  Over any sequence of ticks the rebalancing-day logic runs on
    exactly every [rebalance_period]-th tick of the reference instrument
    (the first instrument of the universe), counted from the counter's
    value at the start, and on no other tick: call [i] passes the early
    [return] iff tick [i] is a reference tick and the counter plus the
    reference ticks up to and including [i] is a multiple of the period.
    Hence the number of rebalancing days is that total divided by the
    period, however many other instruments report in between. *)
Theorem rebalance_once_per_period universe lookback period hold s0 s
    reference rest ticks :
  construct universe lookback period hold = Ok s0 ->
  0 < period ->
  universe = reference :: rest ->
  reachable s0 s ->
  (forall i r, run s ticks !! i = Some r ->
     (out r ≠ NotRebalanceDay <->
      exists pv md, ticks !! i = Some (pv, md) ∧ instrument md = reference ∧
        (rebalance_counter s + reference_ticks reference (take (S i) ticks))
          `mod` period = 0)) ∧
  Z.of_nat (length (filter (λ r, out r ≠ NotRebalanceDay) (run s ticks))) =
    (rebalance_counter s + reference_ticks reference ticks) `div` period.
Proof.
  intros Hs0 Hp Hu Hreach.
  destruct (reachable_well_formed _ _ _ _ _ _ Hs0 Hp Hreach)
    as ([Hdom Hc] & Hl & _ & Hper & _).
  rewrite <- Hper. apply (run_rebalance_days reference rest); [congruence|done].
Qed.

Lemma rebalance_once_per_period_witness :
  let ticks := [(Qc_of_Z 100, Sample.tick "A" 10); (Qc_of_Z 100, Sample.tick "B" 20);
                (Qc_of_Z 100, Sample.tick "A" 11); (Qc_of_Z 100, Sample.tick "B" 19);
                (Qc_of_Z 100, Sample.tick "A" 12)] in
  let s := start Sample.slow in
  (forall i r, run s ticks !! i = Some r ->
     (out r ≠ NotRebalanceDay <->
      exists pv md, ticks !! i = Some (pv, md) ∧ instrument md = "A"%string ∧
        (rebalance_counter s + reference_ticks "A" (take (S i) ticks))
          `mod` 2 = 0)) ∧
  Z.of_nat (length (filter (λ r, out r ≠ NotRebalanceDay) (run s ticks))) =
    (rebalance_counter s + reference_ticks "A" ticks) `div` 2.
Proof.
  apply (rebalance_once_per_period ["A"; "B"]%string 2 2 1 Sample.slow
           (start Sample.slow) "A"%string ["B"%string]).
  - reflexivity.
  - lia.
  - reflexivity.
  - apply reach_start.
Defined.

(** C7.  In a session of an engine with a positive rebalance period:
    (1) a call sends orders only if every universe instrument has at
    least [lookback_period] recorded prices; (2) when a call reaches the
    rebalancing-day logic while some universe instrument has fewer, it
    sends no order, ends at the [return] of line 78 (no exception), and
    leaves the counter at 0, so that no further rebalancing day comes
    before the reference instrument has ticked [rebalance_period] more
    times. *)
Theorem short_history_skips_cycle universe lookback period hold s0 s pv md :
  construct universe lookback period hold = Ok s0 ->
  0 < period ->
  reachable s0 s ->
  let r := on_marketdatafeed pv md s in
  (orders r ≠ [] ->
   forall inst, inst ∈ universe ->
     exists prices, historical_data (state r) !! inst = Some prices ∧
                    lookback <= Z.of_nat (length prices)) ∧
  (out r ≠ NotRebalanceDay ->
   (exists inst prices, inst ∈ universe ∧
      historical_data (state r) !! inst = Some prices ∧
      Z.of_nat (length prices) < lookback) ->
   orders r = [] ∧
   (exists inst, out r = SkippedRebalance inst) ∧
   rebalance_counter (state r) = 0 ∧
   forall reference ticks,
     head universe = Some reference ->
     reference_ticks reference ticks < period ->
     Forall (λ r', out r' = NotRebalanceDay ∧ orders r' = [])
            (run (state r) ticks)).
Proof.
  intros Hs0 Hp Hreach r.
  assert (reachable s0 (state r)) as Hreach' by apply reach_tick, Hreach.
  destruct (reachable_well_formed _ _ _ _ _ _ Hs0 Hp Hreach')
    as ([Hdom Hc] & Hl & Hlb & Hper & _).
  pose proof (on_marketdatafeed_cases pv md s) as Hcases.
  fold r in Hcases. split.
  - intros Hord inst Hin.
    destruct Hcases as [[_ ?]|[(_ & ? & _)|(_ & Hos & _)]]; [done..|].
    rewrite Hos in Hord. apply rebalance_orders_enough in Hord.
    rewrite Hl, Hlb in Hord.
    by apply (proj1 (check_history_enough _ _ _) Hord).
  - intros Hout (inst & prices & Hin & Hprices & Hshort).
    destruct Hcases as [[? _]|[(_ & _ & Hnil)|(Hst & Hos & Ho)]]; [done| |].
    { assert (instrument_list (state r) = instrument_list s) as Hl'
        by apply on_marketdatafeed_params.
      rewrite <- Hl, Hl', Hnil in Hin. by apply elem_of_nil in Hin. }
    destruct (check_history_total (historical_data (state r)) lookback universe)
      as [o Hcheck].
    { intros k Hk. apply Hdom. by rewrite Hl. }
    destruct o as [k|].
    + assert (rebalance (state r) pv = ([], SkippedRebalance k)) as Hreb.
      { unfold rebalance. by rewrite Hl, Hlb, Hcheck. }
      rewrite Hreb in Hos, Ho. simpl in Hos, Ho.
      split; [done|]. split; [by exists k|].
      split; [by rewrite Hst|].
      intros reference ticks Href Hticks.
      destruct universe as [|reference' rest]; [done|].
      injection Href as ->.
      apply (run_idle reference rest); [done|rewrite Hst; simpl; lia|].
      rewrite Hper. rewrite Hst at 1. simpl. lia.
    + destruct (proj1 (check_history_enough _ _ _) Hcheck inst Hin)
        as (prices' & Hprices' & Hlen).
      rewrite Hprices in Hprices'. injection Hprices' as <-. lia.
Qed.

Lemma short_history_skips_cycle_witness :
  let r := on_marketdatafeed (Qc_of_Z 100) (Sample.tick "A" 10)
             (start Sample.small) in
  orders r = [] ∧
  (exists inst, out r = SkippedRebalance inst) ∧
  rebalance_counter (state r) = 0 ∧
  forall reference ticks,
    head ["A"; "B"]%string = Some reference ->
    reference_ticks reference ticks < 1 ->
    Forall (λ r', out r' = NotRebalanceDay ∧ orders r' = [])
           (run (state r) ticks).
Proof.
  apply (short_history_skips_cycle ["A"; "B"]%string 2 1 1 Sample.small
           (start Sample.small) (Qc_of_Z 100) (Sample.tick "A" 10)).
  - reflexivity.
  - lia.
  - apply reach_start.
  - vm_compute. discriminate.
  - exists "B"%string, []. split; [|split].
    + apply (bool_decide_unpack _). vm_compute. exact I.
    + vm_compute. reflexivity.
    + simpl. lia.
Defined.

(** ** Momentum *)

Section momentum.
Local Open Scope Qc_scope.

Lemma momentum_defined (prices : list Qc) (lookback : Z) :
  (0 < lookback <= Z.of_nat (length prices))%Z ->
  nth (length prices - Z.to_nat lookback) prices 0 ≠ 0 ->
  momentum prices lookback =
    Ok (List.last prices 0
        / nth (length prices - Z.to_nat lookback) prices 0 - 1).
Proof.
  intros Hk Hbase. unfold momentum.
  destruct (exists_last (l := prices)) as (front & x & Hsplit).
  { intros ->. simpl in Hk. lia. }
  assert (getitem prices (-1) = Ok x) as -> by (rewrite Hsplit; apply getitem_last).
  assert (List.last prices 0 = x) as -> by (rewrite Hsplit; apply last_last).
  destruct (lookup_lt_is_Some_2 prices (length prices - Z.to_nat lookback))
    as [base Hlookup]; [lia|].
  rewrite (getitem_from_end prices lookback base) by done.
  rewrite nth_lookup, Hlookup in Hbase |- *. simpl in *.
  unfold div. by rewrite decide_False by done.
Qed.
(** Line 86 on a history of at least [lookback >= 1] prices: the
    division is Python's. *)
Lemma momentum_at (prices : list Qc) (lookback : Z) :
  (0 < lookback <= Z.of_nat (length prices))%Z ->
  momentum prices lookback =
    if decide (nth (length prices - Z.to_nat lookback) prices 0 = 0)
    then Raise ZeroDivisionError
    else Ok (List.last prices 0
             / nth (length prices - Z.to_nat lookback) prices 0 - 1).
Proof.
  intros Hk. unfold momentum.
  destruct (exists_last (l := prices)) as (front & x & Hsplit).
  { intros ->. simpl in Hk. lia. }
  assert (getitem prices (-1) = Ok x) as -> by (rewrite Hsplit; apply getitem_last).
  assert (List.last prices 0 = x) as -> by (rewrite Hsplit; apply last_last).
  destruct (lookup_lt_is_Some_2 prices (length prices - Z.to_nat lookback))
    as [base Hlookup]; [lia|].
  rewrite (getitem_from_end prices lookback base) by done.
  rewrite nth_lookup, Hlookup. simpl. unfold div.
  by destruct (decide (base = 0)).
Qed.

(** The loop of lines 81-87 past the guard: every instrument gets its
    trailing return, unless a division raises. *)
Lemma momentum_loop_value h lookback (l : list string) : forall d,
  (0 < lookback)%Z ->
  (forall inst, inst ∈ l ->
     exists prices, h !! inst = Some prices ∧
                    (lookback <= Z.of_nat (length prices))%Z) ->
  momentum_loop h lookback l d =
    if decide (Forall (λ inst, price_back h lookback inst ≠ 0) l)
    then Ok (foldl (fun d inst =>
                      dict_set d inst (trailing_return h lookback inst)) d l)
    else Raise ZeroDivisionError.
Proof.
  induction l as [|k l IH]; intros d Hlb Hall.
  - by rewrite decide_True by constructor.
  - destruct (Hall k) as (prices & Hk & Hlen); [by left|].
    assert (price_back h lookback k
            = nth (length prices - Z.to_nat lookback) prices 0) as Hback
      by (unfold price_back; by rewrite Hk).
    assert (last_price h k = List.last prices 0) as Hlast
      by (unfold last_price; by rewrite Hk).
    cbn [momentum_loop]. unfold lookup_key. rewrite Hk. simpl.
    rewrite momentum_at by lia.
    destruct (decide (nth (length prices - Z.to_nat lookback) prices 0 = 0))
      as [Hzero|Hnonzero]; simpl.
    + rewrite decide_False; [done|].
      intros [Hhead _]%Forall_cons. apply Hhead. by rewrite Hback.
    + rewrite IH; [|done|intros inst Hin; apply Hall; by right].
      destruct (decide (Forall (λ inst, price_back h lookback inst ≠ 0) l))
        as [Hrest|Hrest].
      * rewrite decide_True by (constructor; [cbv beta; by rewrite Hback|done]).
        assert (trailing_return h lookback k
                = List.last prices 0
                  / nth (length prices - Z.to_nat lookback) prices 0 - 1)
          as Hscore by (unfold trailing_return; by rewrite Hback, Hlast).
        cbn [foldl]. by rewrite Hscore.
      * rewrite decide_False; [done|]. by intros [_ ?]%Forall_cons.
Qed.

Lemma execute_trades_not_skipped (s : AlgoEvent.t) (pv : Qc)
    longs shorts flats inst :
  (execute_trades s pv longs shorts flats).2 ≠ SkippedRebalance inst.
Proof. unfold execute_trades. repeat case_match; simpl; congruence. Qed.

Lemma rebalance_skipped (s : AlgoEvent.t) (pv : Qc) inst :
  (rebalance s pv).2 = SkippedRebalance inst ->
  check_history (historical_data s) (lookback_period s) (instrument_list s)
    = Ok (Some inst).
Proof.
  unfold rebalance.
  destruct (check_history _ _ _) as [[k|]|e]; simpl; [congruence| |done].
  destruct (momentum_loop _ _ _ _); simpl; [|done].
  intros H. by apply execute_trades_not_skipped in H.
Qed.
End momentum.

(** C1.  The momentum computation of a rebalancing day (lines 74-87),
    in a session of an engine with a positive rebalance period and a
    lookback period of at least 1 (20 and 120 in the code).  A call
    stops at the length guard of line 76, the outcome the specification
    calls [InsufficientHistory], if and only if it reaches the
    rebalancing-day logic while some universe instrument has fewer than
    [lookback] prices; it then names such an instrument and sends
    nothing.  When no history is short, the loop of lines 81-87 gives
    every instrument exactly the last price divided by the price
    [lookback] periods back, minus one.  The division is Python's: a
    price of exactly 0 [lookback] periods back (closes are positive in
    the data model) makes it raise [ZeroDivisionError]. *)
Theorem momentum_of_history universe lookback period hold s0
    (s : AlgoEvent.t) pv md :
  construct universe lookback period hold = Ok s0 ->
  0 < period ->
  0 < lookback ->
  reachable s0 s ->
  let r := on_marketdatafeed pv md s in
  let h := historical_data (state r) in
  ((exists inst, out r = SkippedRebalance inst) <->
   out r ≠ NotRebalanceDay ∧
   exists inst, inst ∈ universe ∧ short_history h lookback inst) ∧
  (forall inst, out r = SkippedRebalance inst ->
     inst ∈ universe ∧ short_history h lookback inst ∧ orders r = []) ∧
  ((forall inst, inst ∈ universe -> ¬ short_history h lookback inst) ->
   momentum_loop h lookback universe [] =
     if decide (Forall (λ inst, price_back h lookback inst ≠ 0%Qc) universe)
     then Ok (momentum_scores_of (trailing_return h lookback) universe)
     else Raise ZeroDivisionError).
Proof.
  intros Hs0 Hp Hlb Hreach r h.
  assert (reachable s0 (state r)) as Hreach' by apply reach_tick, Hreach.
  destruct (reachable_well_formed _ _ _ _ _ _ Hs0 Hp Hreach)
    as (_ & Hl0 & _).
  destruct (reachable_well_formed _ _ _ _ _ _ Hs0 Hp Hreach')
    as ([Hdom _] & Hl & Hlbk & _).
  pose proof (on_marketdatafeed_cases pv md s) as Hcases. fold r in Hcases.
  fold h in Hdom.
  assert (forall inst, inst ∈ universe -> is_Some (h !! inst)) as Hkeys.
  { intros inst Hin. apply Hdom. by rewrite Hl. }
  assert (forall inst, out r = SkippedRebalance inst ->
            inst ∈ universe ∧ short_history h lookback inst ∧ orders r = [])
    as Hnamed.
  { intros inst Hout.
    destruct Hcases as [[Hnot _]|[(Hraised & _)|(_ & Hos & Hrun)]];
      [congruence..|].
    rewrite Hrun in Hout. apply rebalance_skipped in Hout.
    rewrite Hl, Hlbk in Hout. fold h in Hout.
    destruct (check_history_short _ _ _ _ Hout) as (Hin & prices & Hp' & Hlen).
    split; [done|]. split.
    - unfold short_history. by rewrite Hp'.
    - rewrite Hos. unfold rebalance. rewrite Hl, Hlbk. fold h.
      by rewrite Hout. }
  split; [|split; [done|]].
  - split.
    + intros [inst Hout]. split; [by rewrite Hout|].
      exists inst. by destruct (Hnamed inst Hout) as (? & ? & _).
    + intros [Hnot (inst & Hin & Hshort)].
      destruct Hcases as [[? _]|[(_ & _ & Hnil)|(_ & _ & Hrun)]]; [done| |].
      { rewrite Hl0 in Hnil. rewrite Hnil in Hin. by apply elem_of_nil in Hin. }
      rewrite Hrun. unfold rebalance. rewrite Hl, Hlbk. fold h.
      destruct (check_history_total h lookback universe Hkeys) as [o Ho].
      rewrite Ho. destruct o as [k|]; [by exists k|].
      destruct (proj1 (check_history_enough _ _ _) Ho inst Hin)
        as (prices & Hp' & Hlen).
      unfold short_history in Hshort. rewrite Hp' in Hshort.
      simpl in Hshort. lia.
  - intros Hlong. unfold momentum_scores_of.
    apply momentum_loop_value; [done|].
    intros inst Hin. destruct (Hkeys inst Hin) as [prices Hp'].
    exists prices. split; [done|].
    specialize (Hlong inst Hin). unfold short_history in Hlong.
    rewrite Hp' in Hlong. simpl in Hlong. lia.
Qed.

Lemma momentum_of_history_witness :
  let r := on_marketdatafeed (Qc_of_Z 100) (Sample.tick "A" 12)
             Sample.small_loaded in
  let h := historical_data (state r) in
  momentum_loop h 2 ["A"; "B"]%string [] =
    if decide (Forall (λ inst, price_back h 2 inst ≠ 0%Qc)
                      ["A"; "B"]%string)
    then Ok (momentum_scores_of (trailing_return h 2) ["A"; "B"]%string)
    else Raise ZeroDivisionError.
Proof.
  apply (momentum_of_history ["A"; "B"]%string 2 1 1 Sample.small
           Sample.small_loaded (Qc_of_Z 100) (Sample.tick "A" 12)).
  - reflexivity.
  - lia.
  - lia.
  - apply (reach_bulk Sample.small (start Sample.small)), reach_start.
  - intros inst Hin. rewrite !elem_of_cons in Hin.
    destruct Hin as [->|[->|Hnil]].
    + vm_compute. discriminate.
    + vm_compute. discriminate.
    + by apply elem_of_nil in Hnil.
Defined.

(** A zero price [lookback] periods back makes line 86 raise. *)
Example momentum_zero_base :
  momentum [0%Qc; Qc_of_Z 5] 2 = Raise ZeroDivisionError.
Proof. reflexivity. Qed.

(** ** [sorted(..., reverse=True)] is a stable descending sort *)

Section sorting.
Context {A : Type} (key : A -> Qc).
Implicit Types (x : A) (l : list A).
Local Open Scope Qc_scope.

Lemma insert_desc_perm x l : insert_desc key x l ≡ₚ x :: l.
Proof.
  induction l as [|y l IH]; simpl; [done|].
  destruct (decide (key x < key y)); [|done].
  by rewrite IH, Permutation_swap.
Qed.

Lemma sorted_reverse_perm l : sorted_reverse key l ≡ₚ l.
Proof.
  induction l as [|x l IH]; simpl; [done|].
  by rewrite insert_desc_perm, IH.
Qed.

Lemma insert_desc_sorted x l :
  StronglySorted (λ a b, key b <= key a) l ->
  StronglySorted (λ a b, key b <= key a) (insert_desc key x l).
Proof.
  induction 1 as [|y l Hsorted IH Hall]; simpl.
  - repeat constructor.
  - destruct (decide (key x < key y)) as [Hlt|Hge].
    + constructor; [done|]. rewrite insert_desc_perm.
      constructor; [by apply Qclt_le_weak|done].
    + apply Qcnot_lt_le in Hge. constructor; [by constructor|].
      constructor; [done|]. eapply Forall_impl; [exact Hall|].
      intros z Hz. simpl in Hz. by apply Qcle_trans with (key y).
Qed.

Lemma sorted_reverse_sorted l :
  StronglySorted (λ a b, key b <= key a) (sorted_reverse key l).
Proof.
  induction l as [|x l IH]; simpl; [constructor|].
  by apply insert_desc_sorted.
Qed.

Lemma insert_desc_stable x l v :
  filter (λ a, key a = v) (insert_desc key x l) =
  filter (λ a, key a = v) (x :: l).
Proof.
  induction l as [|y l IH]; simpl; [done|].
  destruct (decide (key x < key y)) as [Hlt|Hge]; [|done].
  rewrite filter_cons, IH, !filter_cons.
  destruct (decide (key y = v)) as [Hy|Hy]; [|done].
  destruct (decide (key x = v)) as [Hx|Hx]; [|done].
  rewrite Hx, Hy in Hlt. by apply Qclt_not_eq in Hlt.
Qed.

Lemma sorted_reverse_stable l v :
  filter (λ a, key a = v) (sorted_reverse key l) =
  filter (λ a, key a = v) l.
Proof.
  induction l as [|x l IH]; simpl; [done|].
  by rewrite insert_desc_stable, !filter_cons, IH.
Qed.
End sorting.

Section sorting_fmap.
Context {A B : Type} (f : A -> B) (key : B -> Qc).

Lemma insert_desc_fmap x (l : list A) :
  insert_desc key (f x) (f <$> l) = f <$> insert_desc (key ∘ f) x l.
Proof.
  induction l as [|y l IH]; [done|].
  rewrite fmap_cons. cbn [insert_desc]. unfold compose at 1 2.
  destruct (decide _); [|done]. by rewrite fmap_cons, IH.
Qed.

Lemma sorted_reverse_fmap (l : list A) :
  sorted_reverse key (f <$> l) = f <$> sorted_reverse (key ∘ f) l.
Proof.
  unfold sorted_reverse. induction l as [|x l IH]; [done|].
  rewrite fmap_cons. cbn [foldr]. rewrite IH. apply insert_desc_fmap.
Qed.
End sorting_fmap.

(** ** Ranking *)

Section ranking.
Implicit Types (score : string -> Qc) (universe : list string).
Local Open Scope Qc_scope.

Lemma dict_set_fresh {V} (d : dict V) k v :
  k ∉ d.*1 -> dict_set d k v = d ++ [(k, v)].
Proof.
  induction d as [|[k' v'] d IH]; simpl; [done|].
  rewrite not_elem_of_cons. intros [Hne Hnotin].
  rewrite decide_False by done. by rewrite IH.
Qed.

Lemma momentum_scores_from score universe : forall d : dict Qc,
  NoDup (d.*1 ++ universe) ->
  foldl (fun d inst => dict_set d inst (score inst)) d universe =
    d ++ ((fun inst => (inst, score inst)) <$> universe).
Proof.
  induction universe as [|k universe IH]; intros d Hnodup; simpl.
  - by rewrite app_nil_r.
  - apply NoDup_app in Hnodup as (Hd & Hdisj & [Hk Hu]%NoDup_cons).
    rewrite dict_set_fresh by (intros Hin; apply (Hdisj k Hin); by left).
    rewrite IH, <- app_assoc; [done|].
    rewrite fmap_app. simpl. rewrite <- app_assoc. simpl.
    apply NoDup_app. split; [done|]. split; [|by apply NoDup_cons].
    exact Hdisj.
Qed.

Lemma momentum_scores_of_nodup score universe :
  NoDup universe ->
  momentum_scores_of score universe =
    (fun inst => (inst, score inst)) <$> universe.
Proof.
  intros Hnodup. unfold momentum_scores_of.
  by rewrite momentum_scores_from.
Qed.

(** With distinct instruments, ranking the score dict is sorting the
    universe by score. *)
Lemma ranked_instruments_names score universe :
  NoDup universe ->
  ranked_instruments (momentum_scores_of score universe) =
    (fun inst => (inst, score inst)) <$> sorted_reverse score universe.
Proof.
  intros Hnodup. unfold ranked_instruments.
  rewrite momentum_scores_of_nodup by done.
  by rewrite sorted_reverse_fmap.
Qed.

Lemma fmap_fst_scored score (l : list string) :
  ((fun inst => (inst, score inst)) <$> l).*1 = l.
Proof. induction l as [|x l IH]; simpl; [done|]. by f_equal. Qed.
End ranking.

Section ranking_lists.
Local Open Scope Qc_scope.

Lemma longs_of_take (ranked : list (string * Qc)) (hold : Z) :
  (0 <= hold)%Z -> longs_of ranked hold = take (Z.to_nat hold) ranked.*1.
Proof.
  intros. unfold longs_of. by rewrite slice_to_take, fmap_take.
Qed.

Lemma shorts_of_drop (ranked : list (string * Qc)) (hold : Z) :
  (0 < hold)%Z ->
  shorts_of ranked hold =
    drop (length ranked.*1 - Z.to_nat hold) ranked.*1.
Proof.
  intros. unfold shorts_of.
  by rewrite slice_from_drop, fmap_drop, length_fmap.
Qed.

(** With a hold count of zero the short list is the whole ranking:
    [ranked[-0:]] is [ranked[0:]]. *)
Lemma shorts_of_hold_zero (ranked : list (string * Qc)) :
  shorts_of ranked 0 = ranked.*1.
Proof. reflexivity. Qed.
End ranking_lists.

(** C2.  For every assignment [score] of momentum scores to a universe
    of distinct instruments and every hold count [K >= 1]: the ranking
    is the universe rearranged into descending score order, instruments
    with equal scores staying in universe order (which fixes the ranking
    uniquely); the long list is the first [K] of the ranking, the short
    list its last [K], and the flat list is every other universe
    instrument, in universe order.  In the scenario A 0.10, B -0.05,
    C 0.02, D -0.10 with [K = 1]: longs [A], shorts [D], flats [B, C]. *)
Theorem ranking_and_partition (score : string -> Qc)
    (universe : list string) (hold : Z) :
  NoDup universe ->
  0 < hold ->
  let ranked := ranked_instruments (momentum_scores_of score universe) in
  let names := ranked.*1 in
  let longs := longs_of ranked hold in
  let shorts := shorts_of ranked hold in
  let flats := flats_of universe longs shorts in
  (ranked = (fun inst => (inst, score inst)) <$> names ∧
   names ≡ₚ universe ∧
   StronglySorted (λ a b, score b <= score a)%Qc names ∧
   (forall v, filter (λ inst, score inst = v) names =
              filter (λ inst, score inst = v) universe)) ∧
  (longs = take (Z.to_nat hold) names ∧
   shorts = drop (length names - Z.to_nat hold) names ∧
   (forall inst, inst ∈ flats <->
      inst ∈ universe ∧ (inst ∉ longs) ∧ (inst ∉ shorts)) ∧
   flats `sublist_of` universe) ∧
  (let scenario :=
     ranked_instruments
       (momentum_scores_of Sample.scenario_score ["A"; "B"; "C"; "D"]%string) in
   longs_of scenario 1 = ["A"%string] ∧
   shorts_of scenario 1 = ["D"%string] ∧
   flats_of ["A"; "B"; "C"; "D"]%string
     (longs_of scenario 1) (shorts_of scenario 1) = ["B"; "C"]%string).
Proof.
  intros Hnodup Hhold ranked names longs shorts flats.
  assert (ranked = (fun inst => (inst, score inst)) <$> sorted_reverse score universe)
    as Hranked by by apply ranked_instruments_names.
  assert (names = sorted_reverse score universe) as Hnames
    by (unfold names; by rewrite Hranked, fmap_fst_scored).
  split; [|split].
  - rewrite Hnames. split; [done|]. split; [apply sorted_reverse_perm|].
    split; [apply sorted_reverse_sorted|]. intros v.
    apply (sorted_reverse_stable score).
  - split; [by apply longs_of_take; lia|].
    split; [by apply shorts_of_drop|]. split.
    + intros inst. unfold flats, flats_of. rewrite list_elem_of_filter. tauto.
    + apply sublist_filter.
  - vm_compute. done.
Qed.

Lemma ranking_and_partition_witness :
  let universe := instrument_list Sample.shipped in
  let ranked :=
    ranked_instruments (momentum_scores_of Sample.scenario_score universe) in
  ranked.*1 ≡ₚ universe ∧
  longs_of ranked 2 = take 2 ranked.*1 ∧
  shorts_of ranked 2 = drop (length ranked.*1 - 2) ranked.*1.
Proof.
  destruct (ranking_and_partition Sample.scenario_score
              (instrument_list Sample.shipped) 2)
    as ((_ & Hperm & _) & (Hlongs & Hshorts & _) & _).
  - apply (bool_decide_unpack _). vm_compute. exact I.
  - lia.
  - split; [exact Hperm|]. split; [exact Hlongs|exact Hshorts].
Defined.

(** ** An executed rebalancing cycle *)

Section executed_cycle.
Implicit Types (s : AlgoEvent.t) (h : gmap string (list Qc)) (pv : Qc).
Local Open Scope Qc_scope.

Lemma getitem_last_inv (prices : list Qc) x :
  getitem prices (-1) = Ok x -> List.last prices 0 = x.
Proof.
  destruct (decide (prices = [])) as [->|Hne].
  - by rewrite getitem_nil.
  - destruct (exists_last Hne) as (front & y & ->).
    rewrite getitem_last, last_last. by intros [= ->].
Qed.

Lemma target_quantity_inv h cpp short inst q :
  target_quantity h cpp short inst = Ok q ->
  last_price h inst ≠ 0 ∧
  q = if short then - (cpp / last_price h inst) else cpp / last_price h inst.
Proof.
  unfold target_quantity, lookup_key, last_price.
  destruct (h !! inst) as [prices|]; simpl; [|done].
  destruct (getitem prices (-1)) as [x|] eqn:Hlast; simpl; [|done].
  apply getitem_last_inv in Hlast as ->. unfold div.
  destruct (decide (x = 0)); simpl; [done|]. by intros [= <-].
Qed.

Lemma place_orders_inv h cpp short (l : list string) os :
  place_orders h cpp short l = (os, None) ->
  os = (fun inst =>
          sendOrder inst
            (if short then - (cpp / last_price h inst)
             else cpp / last_price h inst)) <$> l ∧
  Forall (λ inst, last_price h inst ≠ 0) l.
Proof.
  revert os. induction l as [|inst l IH]; simpl; intros os.
  - by intros [= <-].
  - destruct (target_quantity h cpp short inst) as [q|] eqn:Hq; [|done].
    apply target_quantity_inv in Hq as [Hne ->].
    destruct (place_orders h cpp short l) as [os' e].
    intros [= <- ->]. destruct (IH os' eq_refl) as [-> Hall].
    split; [done|]. by constructor.
Qed.

Lemma momentum_loop_scores h lookback (l : list string) :
  forall d scores,
    momentum_loop h lookback l d = Ok scores ->
    scores = foldl (fun d inst => dict_set d inst (momentum_score h lookback inst))
                   d l.
Proof.
  induction l as [|inst l IH]; simpl; intros d scores.
  - by intros [= <-].
  - unfold lookup_key.
    destruct (h !! inst) as [prices|] eqn:Hh; simpl; [|done].
    destruct (momentum prices lookback) as [m|] eqn:Hm; simpl; [|done].
    assert (momentum_score h lookback inst = m) as ->
      by (unfold momentum_score; rewrite Hh; simpl; by rewrite Hm).
    apply IH.
Qed.

Lemma Qc_of_Z_nonzero (n : Z) : n ≠ 0%Z -> Qc_of_Z n ≠ 0.
Proof.
  intros Hn Heq. apply Hn. apply (f_equal (fun q : Qc => Qnum q)) in Heq.
  exact Heq.
Qed.

(** What a call that ran to the end of line 129 has sent. *)
Lemma rebalance_executed s pv :
  (rebalance s pv).2 = Rebalanced ->
  (Z.of_nat (length (cycle_longs s)) + Z.of_nat (length (cycle_shorts s))
     ≠ 0)%Z ∧
  (rebalance s pv).1 = flat_orders s ++ long_orders pv s ++ short_orders pv s ∧
  Forall (λ inst, last_price (historical_data s) inst ≠ 0)
         (cycle_longs s ++ cycle_shorts s).
Proof.
  unfold rebalance.
  destruct (check_history _ _ _) as [[inst|]|e]; simpl; [done| |done].
  destruct (momentum_loop _ _ _ _) as [scores|e] eqn:Hloop; simpl; [|done].
  apply momentum_loop_scores in Hloop.
  fold (momentum_scores_of
          (momentum_score (historical_data s) (lookback_period s))
          (instrument_list s)) in Hloop. subst scores.
  fold (cycle_ranking s). fold (cycle_longs s). fold (cycle_shorts s).
  fold (cycle_flats s). unfold execute_trades.
  destruct (decide (_ = 0%Z)) as [|Hnum]; simpl; [done|].
  unfold div. rewrite decide_False by by apply Qc_of_Z_nonzero.
  fold (capital_per_position pv s).
  destruct (place_orders _ _ false _) as [los [e|]] eqn:Hlongs; simpl; [done|].
  destruct (place_orders _ _ true _) as [sos [e|]] eqn:Hshorts; simpl; [done|].
  apply place_orders_inv in Hlongs as [-> Hl].
  apply place_orders_inv in Hshorts as [-> Hs].
  intros _. split; [done|]. split; [done|]. by apply Forall_app.
Qed.
End executed_cycle.

(** ** Equal-weight allocation *)

Section allocation.
Implicit Types (s : AlgoEvent.t) (pv : Qc).
Local Open Scope Qc_scope.

Lemma on_marketdatafeed_executed pv md s :
  let r := on_marketdatafeed pv md s in
  out r = Rebalanced ->
  (rebalance (state r) pv).2 = Rebalanced ∧
  orders r = (rebalance (state r) pv).1.
Proof.
  intros r Hout.
  destruct (on_marketdatafeed_cases pv md s)
    as [[Ho _]|[(Ho & _)|(_ & Hos & Ho)]]; fold r in Ho; try congruence.
  fold r in Hos. split; congruence.
Qed.

Lemma notional_positions pv s :
  (Z.of_nat (length (cycle_longs s)) + Z.of_nat (length (cycle_shorts s))
     ≠ 0)%Z ->
  Forall (λ inst, last_price (historical_data s) inst ≠ 0)
         (cycle_longs s ++ cycle_shorts s) ->
  notional (historical_data s) (long_orders pv s ++ short_orders pv s)
    = abs pv.
Proof.
  intros Hnum [Hlongs Hshorts]%Forall_app. unfold notional.
  rewrite (sum_constant _ _ (abs (capital_per_position pv s))).
  - rewrite length_app. unfold long_orders, short_orders.
    rewrite !length_fmap, Nat2Z.inj_add. unfold capital_per_position.
    apply abs_share. rewrite <- Z2Qc_inj_0.
    apply (proj1 (Z2Qc_inj_lt 0 _)). lia.
  - apply Forall_app. split; apply Forall_fmap; simpl.
    + eapply Forall_impl; [exact Hlongs|]. intros inst Hne. simpl.
      by apply abs_quantity_price.
    + eapply Forall_impl; [exact Hshorts|]. intros inst Hne. simpl.
      by apply abs_short_quantity_price.
Qed.
End allocation.

(** C3, as amended.  On every call that executes a rebalancing cycle
    (it ends after the last order of line 129) the long and short lists
    are not both empty, and the orders sent are a zero-target order for
    each flat instrument, then for each long instrument the target
    [capital_per_position / last_price], then for each short instrument
    that value negated, where capital per position is the portfolio
    value divided by [|longs| + |shorts|].  The sum over the long and
    short orders of |target x last price| is the absolute value of the
    portfolio value, hence the portfolio value itself whenever that is
    not negative. *)
Theorem equal_weight_allocation pv md s :
  let r := on_marketdatafeed pv md s in
  out r = Rebalanced ->
  (Z.of_nat (length (cycle_longs (state r)))
   + Z.of_nat (length (cycle_shorts (state r))) ≠ 0) ∧
  orders r = flat_orders (state r) ++ long_orders pv (state r)
             ++ short_orders pv (state r) ∧
  notional (historical_data (state r))
           (long_orders pv (state r) ++ short_orders pv (state r)) = abs pv ∧
  ((0 <= pv)%Qc ->
   notional (historical_data (state r))
            (long_orders pv (state r) ++ short_orders pv (state r)) = pv).
Proof.
  intros r Hout.
  destruct (on_marketdatafeed_executed pv md s Hout) as [Hreb Hos].
  fold r in Hreb, Hos.
  destruct (rebalance_executed (state r) pv Hreb) as (Hnum & Horders & Hprices).
  split; [done|]. split; [congruence|].
  pose proof (notional_positions pv (state r) Hnum Hprices) as Hsum.
  split; [done|]. intros Hpv. by rewrite Hsum, abs_nonneg.
Qed.

Lemma equal_weight_allocation_witness :
  let pv := Qc_of_Z 100 in
  let r := on_marketdatafeed pv (Sample.tick "A" 12) Sample.small_loaded in
  notional (historical_data (state r))
           (long_orders pv (state r) ++ short_orders pv (state r)) = pv.
Proof.
  apply (equal_weight_allocation (Qc_of_Z 100) (Sample.tick "A" 12)
           Sample.small_loaded).
  - vm_compute. reflexivity.
  - apply (bool_decide_unpack _). vm_compute. exact I.
Defined.

(** C3, as stated, fails for a negative portfolio value: with -100 the
    two positions have notional 50 each, 100 in total. *)
Lemma equal_weight_fails_for_negative_value :
  ¬ Stated.equal_weight (Qc_of_Z (-100)) (Sample.tick "A" 12)
      Sample.small_loaded.
Proof.
  unfold Stated.equal_weight. intros Hclaim.
  destruct Hclaim as [_ Hsum]; [vm_compute; reflexivity|].
  apply (f_equal this) in Hsum. vm_compute in Hsum. discriminate.
Qed.

(** ** The three lists of a cycle *)

Section partition.
Implicit Types (s : AlgoEvent.t).
Local Open Scope Qc_scope.

Lemma take_drop_disjoint {A} (l : list A) (k j : nat) x :
  NoDup l -> (k <= j)%nat -> x ∈ take k l -> x ∉ drop j l.
Proof.
  intros Hnodup Hkj Hin Hin'.
  rewrite <- (take_drop k l) in Hnodup.
  apply NoDup_app in Hnodup as (_ & Hdisj & _).
  apply (Hdisj x Hin).
  replace j with (k + (j - k))%nat in Hin' by lia.
  rewrite <- drop_drop in Hin'.
  eapply elem_of_sublist; [exact Hin'|apply sublist_drop].
Qed.

Lemma cycle_ranking_names s :
  NoDup (instrument_list s) ->
  (cycle_ranking s).*1 =
    sorted_reverse (momentum_score (historical_data s) (lookback_period s))
                   (instrument_list s).
Proof.
  intros Hnodup. unfold cycle_ranking.
  by rewrite ranked_instruments_names, fmap_fst_scored.
Qed.

Lemma cycle_ranking_perm s :
  NoDup (instrument_list s) -> (cycle_ranking s).*1 ≡ₚ instrument_list s.
Proof.
  intros Hnodup. rewrite cycle_ranking_names by done.
  apply sorted_reverse_perm.
Qed.

(** Longs are a prefix and shorts a suffix of the ranking that starts
    no earlier than the prefix ends. *)
Lemma cycle_lists s :
  NoDup (instrument_list s) ->
  (0 <= hold_N_assets s)%Z ->
  (2 * hold_N_assets s <= Z.of_nat (length (instrument_list s)))%Z ->
  exists j : nat,
    (Z.to_nat (hold_N_assets s) <= j)%nat ∧
    cycle_longs s = take (Z.to_nat (hold_N_assets s)) (cycle_ranking s).*1 ∧
    cycle_shorts s = drop j (cycle_ranking s).*1.
Proof.
  intros Hnodup Hk H2k.
  assert (length (cycle_ranking s).*1 = length (instrument_list s)) as Hlen
    by by rewrite cycle_ranking_perm.
  unfold cycle_longs, cycle_shorts.
  destruct (decide (hold_N_assets s = 0%Z)) as [Hzero|Hpos].
  - exists 0%nat. rewrite Hzero. split; [simpl; lia|].
    split; [by apply longs_of_take|]. by rewrite shorts_of_hold_zero.
  - exists (length (cycle_ranking s).*1 - Z.to_nat (hold_N_assets s))%nat.
    split; [lia|]. split; [by apply longs_of_take|].
    apply shorts_of_drop. lia.
Qed.

Lemma cycle_partition s :
  NoDup (instrument_list s) ->
  (0 <= hold_N_assets s)%Z ->
  (2 * hold_N_assets s <= Z.of_nat (length (instrument_list s)))%Z ->
  NoDup (cycle_longs s ++ cycle_shorts s ++ cycle_flats s) ∧
  (forall inst,
     inst ∈ instrument_list s <->
     inst ∈ cycle_longs s ++ cycle_shorts s ++ cycle_flats s) ∧
  (forall inst, inst ∈ cycle_longs s -> inst ∉ cycle_shorts s).
Proof.
  intros Hnodup Hk H2k.
  destruct (cycle_lists s Hnodup Hk H2k) as (j & Hj & Hlongs & Hshorts).
  pose proof (cycle_ranking_perm s Hnodup) as Hperm.
  assert (NoDup (cycle_ranking s).*1) as Hnames by by rewrite Hperm.
  assert (forall inst, inst ∈ cycle_longs s -> inst ∈ instrument_list s)
    as Hlongs_in.
  { intros inst Hin. rewrite <- Hperm. rewrite Hlongs in Hin.
    eapply elem_of_sublist; [exact Hin|apply sublist_take]. }
  assert (forall inst, inst ∈ cycle_shorts s -> inst ∈ instrument_list s)
    as Hshorts_in.
  { intros inst Hin. rewrite <- Hperm. rewrite Hshorts in Hin.
    eapply elem_of_sublist; [exact Hin|apply sublist_drop]. }
  assert (forall inst, inst ∈ cycle_longs s -> inst ∉ cycle_shorts s)
    as Hdisj.
  { intros inst. rewrite Hlongs, Hshorts. by apply take_drop_disjoint. }
  assert (forall inst, inst ∈ cycle_flats s <->
            inst ∈ instrument_list s ∧ (inst ∉ cycle_longs s)
            ∧ (inst ∉ cycle_shorts s)) as Hflats.
  { intros inst. unfold cycle_flats, flats_of.
    rewrite list_elem_of_filter. tauto. }
  split; [|split; [|done]].
  - apply NoDup_app. split; [|split].
    + rewrite Hlongs. eapply sublist_NoDup; [exact Hnames|apply sublist_take].
    + intros inst Hin [Hin'|Hin']%elem_of_app.
      * by apply (Hdisj inst).
      * apply Hflats in Hin'. tauto.
    + apply NoDup_app. split; [|split].
      * rewrite Hshorts.
        eapply sublist_NoDup; [exact Hnames|apply sublist_drop].
      * intros inst Hin Hin'. apply Hflats in Hin'. tauto.
      * eapply sublist_NoDup; [exact Hnodup|apply sublist_filter].
  - intros inst. rewrite !elem_of_app, Hflats. split.
    + intros Hin. destruct (decide (inst ∈ cycle_longs s)); [tauto|].
      destruct (decide (inst ∈ cycle_shorts s)); tauto.
    + intros [?|[?|?]]; [auto|auto|tauto].
Qed.
End partition.

(** ** One order per instrument *)

Section orders.
Implicit Types (s : AlgoEvent.t) (pv : Qc).
Local Open Scope Qc_scope.

Lemma sendOrder_instruments (volume : string -> Qc) (l : list string) :
  order_instrument <$> ((fun inst => sendOrder inst (volume inst)) <$> l) = l.
Proof. induction l as [|inst l IH]; simpl; [done|]. by f_equal. Qed.

Lemma sendOrder_modes (volume : string -> Qc) (l : list string) :
  Forall (λ o, order_mode o = "TARGET_SHARES"%string)
         ((fun inst => sendOrder inst (volume inst)) <$> l).
Proof. apply Forall_fmap, Forall_true. done. Qed.

Lemma capital_per_position_pos pv s :
  0 < pv ->
  (Z.of_nat (length (cycle_longs s)) + Z.of_nat (length (cycle_shorts s))
     ≠ 0)%Z ->
  0 < capital_per_position pv s.
Proof.
  intros Hpv Hnum. unfold capital_per_position, Qcdiv.
  apply Qcmult_pos_pos; [done|]. apply Qcinv_pos.
  rewrite <- Z2Qc_inj_0. apply (proj1 (Z2Qc_inj_lt 0 _)). lia.
Qed.

Lemma Qcopp_neg (q : Qc) : 0 < q -> - q < 0.
Proof. intros. to_Q. lra. Qed.
End orders.

(** C9, as amended.  On every call that executes a rebalancing cycle,
    for a universe of distinct instruments and a hold count [K] with
    [0 <= 2K <= universe size], when the portfolio value is positive and
    the last price of every universe instrument is positive: the long,
    short and flat lists are pairwise disjoint and cover the universe,
    and exactly one target-shares order is sent per universe instrument,
    with target 0 for a flat, a positive target for a long and a
    negative target for a short instrument. *)
Theorem one_order_per_instrument pv md s :
  let r := on_marketdatafeed pv md s in
  NoDup (instrument_list (state r)) ->
  0 <= hold_N_assets (state r) ->
  (0 < pv)%Qc ->
  (forall inst, inst ∈ instrument_list (state r) ->
     (0 < last_price (historical_data (state r)) inst)%Qc) ->
  Stated.one_order_each pv md s.
Proof.
  intros r Hnodup Hk Hpv Hprices. unfold Stated.one_order_each. fold r.
  intros Hout H2k.
  destruct (on_marketdatafeed_executed pv md s Hout) as [Hreb Hos].
  fold r in Hreb, Hos.
  destruct (rebalance_executed (state r) pv Hreb) as (Hnum & Horders & _).
  rewrite Horders in Hos. clear Horders Hreb.
  destruct (cycle_partition (state r) Hnodup Hk H2k)
    as (Hpart & Hcover & Hlong_short).
  pose proof (capital_per_position_pos pv (state r) Hpv Hnum) as Hcpp.
  pose proof Hpart as Hpart'.
  apply NoDup_app in Hpart' as (_ & Hlongs_out & Hrest).
  apply NoDup_app in Hrest as (_ & Hshorts_out & _).
  assert (forall inst, inst ∈ cycle_longs (state r) ->
            inst ∉ cycle_flats (state r)) as Hlong_flat.
  { intros inst Hin Hin'. apply (Hlongs_out inst Hin).
    apply elem_of_app. by right. }
  assert (forall inst, inst ∈ cycle_longs (state r) ->
            (0 < capital_per_position pv (state r)
                 / last_price (historical_data (state r)) inst)%Qc) as Hpos.
  { intros inst Hin. unfold Qcdiv. apply Qcmult_pos_pos; [done|].
    apply Qcinv_pos, Hprices, Hcover, elem_of_app. by left. }
  assert (forall inst, inst ∈ cycle_shorts (state r) ->
            (0 < capital_per_position pv (state r)
                 / last_price (historical_data (state r)) inst)%Qc) as Hpos'.
  { intros inst Hin. unfold Qcdiv. apply Qcmult_pos_pos; [done|].
    apply Qcinv_pos, Hprices, Hcover. rewrite !elem_of_app. auto. }
  split; [done|]. split; [done|]. rewrite Hos. split; [|split].
  - rewrite !fmap_app. unfold flat_orders, long_orders, short_orders.
    rewrite !sendOrder_instruments.
    apply NoDup_Permutation; [|done|].
    + rewrite (Permutation_app_comm (cycle_flats (state r))), <- app_assoc.
      done.
    + intros inst. rewrite Hcover, !elem_of_app. tauto.
  - rewrite !Forall_app. unfold flat_orders, long_orders, short_orders.
    split; [|split]; apply sendOrder_modes.
  - rewrite !Forall_app. unfold flat_orders, long_orders, short_orders.
    split; [|split]; apply Forall_fmap, Forall_forall; intros inst Hin;
      simpl.
    + split; [done|]. split; intros Hin'.
      * by destruct (Hlong_flat inst).
      * by destruct (Hshorts_out inst).
    + split; [intros Hin'; by destruct (Hlong_flat inst)|].
      split; [intros _; by apply Hpos|].
      intros Hin'. by destruct (Hlong_short inst).
    + split; [intros Hin'; by destruct (Hshorts_out inst)|].
      split; [intros Hin'; by destruct (Hlong_short inst)|].
      intros _. by apply Qcopp_neg, Hpos'.
Qed.

Lemma one_order_per_instrument_witness :
  Stated.one_order_each (Qc_of_Z 100) (Sample.tick "A" 12) Sample.small_loaded.
Proof.
  apply one_order_per_instrument.
  - apply (bool_decide_unpack _). vm_compute. exact I.
  - vm_compute. discriminate.
  - apply (bool_decide_unpack _). vm_compute. exact I.
  - intros inst Hin.
    assert (inst = "A"%string ∨ inst = "B"%string) as [-> | ->].
    { assert (instrument_list
                (state (on_marketdatafeed (Qc_of_Z 100) (Sample.tick "A" 12)
                          Sample.small_loaded)) = ["A"; "B"]%string) as Hu
        by (vm_compute; reflexivity).
      rewrite Hu, !elem_of_cons in Hin.
      destruct Hin as [?|[?|Hnil]]; [auto|auto|by apply elem_of_nil in Hnil]. }
    + apply (bool_decide_unpack _). vm_compute. exact I.
    + apply (bool_decide_unpack _). vm_compute. exact I.
Defined.

(** C9, as stated, fails when the portfolio value is zero: the long
    instrument's target is 0, not positive. *)
Lemma one_order_each_fails_for_zero_value :
  ¬ Stated.one_order_each 0%Qc (Sample.tick "A" 12) Sample.small_loaded.
Proof.
  unfold Stated.one_order_each. intros Hclaim.
  destruct Hclaim as (_ & _ & _ & _ & Hsigns);
    [vm_compute; reflexivity|vm_compute; discriminate|].
  revert Hsigns. apply (bool_decide_unpack _). vm_compute. exact I.
Qed.

(** ** Construction *)

Example init_builds_shipped : __init__ = Ok Sample.shipped.
Proof. reflexivity. Qed.

(** With the hold-count attribute set to more than half the universe
    the handler still runs: both instruments are long and short at
    once. *)
Example oversized_hold_overlaps :
  let s := set_history {[ "A"%string := [Qc_of_Z 10; Qc_of_Z 11];
                          "B"%string := [Qc_of_Z 20; Qc_of_Z 19] ]}
             {| instrument_list := ["A"; "B"]%string; lookback_period := 2;
                rebalance_period := 1; hold_N_assets := 2;
                rebalance_counter := 0; historical_data := ∅ |} in
  cycle_longs s = ["A"; "B"]%string ∧ cycle_shorts s = ["A"; "B"]%string ∧
  cycle_flats s = [].
Proof. vm_compute. done. Qed.



(** ** Performance metrics *)

(** C5, as amended.  For every nonempty return series the metrics are
    computed, and when the max drawdown [d] is a nonzero number the
    Calmar ratio is the arithmetic mean return times 252 (not the
    compounded annualized return), divided by [|d|]; the Calmar ratio is
    0 when the max drawdown is 0. *)
Theorem calmar_uses_mean_return (returns : list Qc) :
  returns ≠ [] ->
  exists m,
    calculate_performance_metrics returns = Some m ∧
    Max_Drawdown m = calculate_max_drawdown returns ∧
    (forall d, Max_Drawdown m = Some d -> d ≠ 0%Qc ->
       Calmar_Ratio m =
         Some (StrategyBacktester.sum returns
               / Qc_of_Z (Z.of_nat (length returns)) * Qc_of_Z 252
               / abs d)%Qc) ∧
    (Max_Drawdown m = Some 0%Qc -> Calmar_Ratio m = Some 0%Qc).
Proof.
  intros Hne. unfold calculate_performance_metrics.
  rewrite decide_False by (by destruct returns).
  eexists. split; [reflexivity|]. simpl. split; [done|].
  unfold calmar. split.
  - intros d -> Hd. by rewrite decide_True.
  - intros ->. by rewrite decide_False by (intros H; by apply H).
Qed.

Lemma calmar_uses_mean_return_witness :
  exists m,
    calculate_performance_metrics [Qc_of_Z 1; Q2Qc (-0.5)] = Some m ∧
    Calmar_Ratio m = Some (Qc_of_Z 126).
Proof.
  destruct (calmar_uses_mean_return [Qc_of_Z 1; Q2Qc (-0.5)])
    as (m & Hm & Hmdd & Hcalmar & _); [done|].
  exists m. split; [exact Hm|].
  rewrite (Hcalmar (Q2Qc (-0.5))).
  - apply (bool_decide_unpack _). vm_compute. exact I.
  - rewrite Hmdd. apply (bool_decide_unpack _). vm_compute. exact I.
  - apply (bool_decide_unpack _). vm_compute. exact I.
Defined.

(** C5, as stated, fails: for the returns +100%, -50% the compounded
    return is 0, so the annualized return is 0 and the claimed Calmar
    ratio is 0, but the code returns 126 ([0.25 * 252 / 0.5]). *)
Lemma calmar_is_not_annualized_return :
  ¬ Stated.calmar_from_annualized [Qc_of_Z 1; Q2Qc (-0.5)].
Proof.
  unfold Stated.calmar_from_annualized. intros Hclaim.
  edestruct Hclaim as [Hratio _]; [reflexivity|reflexivity|].
  specialize (Hratio ltac:(by apply (bool_decide_unpack _)) 0%Qc).
  revert Hratio. apply (bool_decide_unpack _). vm_compute. exact I.
Qed.

(** ** Max drawdown *)

Section max_drawdown.
Local Open Scope Qc_scope.
Implicit Types (l : list Qc) (m c : Qc).

Local Abbreviation dd_from start l :=
  (zip_with (fun c' m' => nan_div (c' - m') m') l
            (expanding_max_from start l)).

Lemma max_ge_l m c : m <= StrategyBacktester.max m c.
Proof.
  unfold StrategyBacktester.max. destruct (decide (m < c)).
  - by apply Qclt_le_weak.
  - apply Qcle_refl.
Qed.

Lemma max_ge_r m c : c <= StrategyBacktester.max m c.
Proof.
  unfold StrategyBacktester.max. destruct (decide (m < c)).
  - apply Qcle_refl.
  - by apply Qcnot_lt_le.
Qed.

Lemma drawdown_entry_nonpos c m :
  0 < m -> c <= m -> (c - m) / m <= 0.
Proof.
  intros Hm Hc. apply (Qcmult_lt_0_le_reg_r _ _ m Hm).
  replace ((c - m) / m * m) with (c - m)
    by (field; by apply Qc_pos_nonzero).
  rewrite Qcmult_0_l. to_Q. lra.
Qed.

Lemma drawdown_entry_zero c m :
  0 < m -> (c - m) / m = 0 -> c = m.
Proof.
  intros Hm Hzero.
  assert (c - m = (c - m) / m * m) as Heq
    by (field; by apply Qc_pos_nonzero).
  rewrite Hzero, Qcmult_0_l in Heq. to_Q. lra.
Qed.

(** The zero divisors of line 89 are [0/0]: a running maximum of 0
    means the cumulative product has reached 0 and stays there. *)
Lemma drawdown_zero_over_zero_from l : forall acc m i c' m',
  (m = 0 -> acc = 0) ->
  cumprod_from acc l !! i = Some c' ->
  expanding_max_from m (cumprod_from acc l) !! i = Some m' ->
  m' = 0 -> c' - m' = 0.
Proof.
  induction l as [|x l IH]; intros acc m i c' m' Hinv; simpl; [done|].
  assert (StrategyBacktester.max m (acc * x) = 0 -> acc * x = 0) as Hinv'.
  { unfold StrategyBacktester.max. destruct (decide (m < acc * x)); [done|].
    intros Hm. rewrite (Hinv Hm). ring. }
  destruct i as [|i]; simpl.
  - intros [= <-] [= <-] Hzero. rewrite Hzero, (Hinv' Hzero). ring.
  - by apply IH.
Qed.

Lemma drawdown_zero_over_zero (returns : list Qc) i c m :
  cumulative returns !! i = Some c ->
  expanding_max (cumulative returns) !! i = Some m ->
  m = 0 -> c - m = 0.
Proof.
  unfold cumulative, cumprod. destruct returns as [|r returns]; simpl; [done|].
  destruct i as [|i]; simpl.
  - intros [= <-] [= <-] _. ring.
  - by apply drawdown_zero_over_zero_from.
Qed.

(** Above a positive running maximum every drawdown entry is a number,
    none is positive, and they are all 0 only along a non-decreasing
    path that never falls below the maximum it started from. *)
Lemma dd_from_positive l : forall m,
  0 < m ->
  exists ds, dd_from m l = Some <$> ds ∧
    Forall (λ d, d <= 0) ds ∧
    (Forall (λ d, d = 0) ds ->
     Forall (Qcle m) l ∧ StronglySorted Qcle l).
Proof.
  induction l as [|c l IH]; intros m Hm; simpl.
  - exists []. repeat split; constructor.
  - set (m' := StrategyBacktester.max m c).
    assert (0 < m') as Hm'
      by (apply Qclt_le_trans with m; [done|apply max_ge_l]).
    destruct (IH m' Hm') as (ds & Hds & Hle & Hzero).
    exists ((c - m') / m' :: ds). split; [|split].
    + rewrite Hds. unfold nan_div.
      by rewrite decide_False by by apply Qc_pos_nonzero.
    + constructor; [|done].
      apply drawdown_entry_nonpos; [done|apply max_ge_r].
    + intros [Hhead Htail]%Forall_cons.
      apply drawdown_entry_zero in Hhead; [|done].
      destruct (Hzero Htail) as [Hge Hsorted].
      assert (m <= c) as Hmc by (rewrite Hhead; apply max_ge_l).
      rewrite <- Hhead in Hge. split.
      * constructor; [done|]. eapply Forall_impl; [exact Hge|].
        intros y Hy. simpl in Hy. by apply Qcle_trans with c.
      * by constructor.
Qed.

Lemma series_min_numbers d (ds : list Qc) :
  exists dmin, series_min (Some <$> (d :: ds)) = Some dmin ∧
               dmin ∈ d :: ds ∧ Forall (Qcle dmin) (d :: ds).
Proof.
  revert d. induction ds as [|d' ds IH]; intros d.
  - exists d. split; [done|]. split; [by left|].
    constructor; [apply Qcle_refl|constructor].
  - destruct (IH d') as (dmin & Hmin & Hin & Hall).
    rewrite fmap_cons. cbn [series_min]. rewrite Hmin.
    unfold StrategyBacktester.min. destruct (decide (dmin < d)) as [Hlt|Hge].
    + exists dmin. split; [done|]. split; [by right|].
      constructor; [by apply Qclt_le_weak|done].
    + apply Qcnot_lt_le in Hge. exists d. split; [done|].
      split; [by left|]. constructor; [apply Qcle_refl|].
      eapply Forall_impl; [exact Hall|]. intros y Hy. simpl in Hy.
      by apply Qcle_trans with dmin.
Qed.
End max_drawdown.

(** C6, as amended.  For every nonempty return series whose first
    return is above -100% (so that the cumulative path starts positive),
    the max drawdown is a number that is at most 0, and it is 0 only
    when the cumulative path [(1+r_1)...(1+r_t)] is non-decreasing. *)
Theorem max_drawdown_sign (first : Qc) (rest : list Qc) :
  (0 < 1 + first)%Qc ->
  Stated.drawdown_sign (first :: rest).
Proof.
  intros Hfirst _. unfold calculate_max_drawdown, drawdown, cumulative, cumprod.
  cbn [fmap list_fmap cumprod_from expanding_max zip_with].
  set (c0 := (1 * (1 + first))%Qc).
  assert (0 < c0)%Qc as Hc0 by (unfold c0; by rewrite Qcmult_1_l).
  destruct (dd_from_positive
              (cumprod_from c0 ((fun r => (1 + r)%Qc) <$> rest))
              c0 Hc0) as (ds & -> & Hle & Hzero).
  assert (nan_div (c0 - c0) c0 = Some 0%Qc) as ->.
  { unfold nan_div. rewrite decide_False by by apply Qc_pos_nonzero.
    f_equal. field. by apply Qc_pos_nonzero. }
  destruct (series_min_numbers 0%Qc ds) as (dmin & Hmin & Hin & Hall).
  exists dmin. rewrite <- fmap_cons. split; [done|].
  apply Forall_cons in Hall as [Hhead Htail]. split; [done|].
  intros ->. destruct Hzero as [Hge Hsorted].
  - apply Forall_forall. intros d Hd.
    apply Qcle_antisym; [by apply (proj1 (Forall_forall _ _) Hle)|].
    by apply (proj1 (Forall_forall _ _) Htail).
  - by constructor.
Qed.

Lemma max_drawdown_sign_witness :
  Stated.drawdown_sign [Q2Qc 0.01; Q2Qc (-0.02); Q2Qc 0.03].
Proof.
  apply max_drawdown_sign.
  apply (bool_decide_unpack _). vm_compute. exact I.
Defined.

(** C6, as stated, fails: after a first return of -200% the cumulative
    path is -1, -2, which decreases, and the max drawdown is 0. *)
Lemma max_drawdown_zero_on_falling_path :
  ¬ Stated.drawdown_sign [Qc_of_Z (-2); Qc_of_Z 1].
Proof.
  unfold Stated.drawdown_sign. intros Hclaim.
  destruct Hclaim as (d & Hd & _ & Hsorted); [done|].
  assert (d = 0%Qc) as ->.
  { revert Hd. vm_compute. intros [= <-]. apply Qc_is_canon. reflexivity. }
  specialize (Hsorted eq_refl).
  apply StronglySorted_inv in Hsorted as [_ Hall].
  apply Forall_inv in Hall. revert Hall.
  apply (bool_decide_unpack _). vm_compute. exact I.
Qed.

(** * Further properties of the code *)

(** ** [start] and [on_bulkdatafeed] *)

Section loading.
Implicit Types (s : AlgoEvent.t) (h bd : gmap string (list Qc)).

Lemma start_history (l : list string) : forall h inst,
  foldl (fun h inst => <[inst := []]> h) h l !! inst =
    if decide (inst ∈ l) then Some [] else h !! inst.
Proof.
  induction l as [|k l IH]; intros h inst; simpl.
  - done.
  - rewrite IH. destruct (decide (inst ∈ l)) as [Hin|Hnotin].
    + rewrite decide_True by by right. done.
    + destruct (decide (inst = k)) as [->|Hne].
      * rewrite lookup_insert_eq. rewrite decide_True by by left. done.
      * rewrite lookup_insert_ne by done.
        rewrite decide_False; [done|].
        intros [?|?]%elem_of_cons; done.
Qed.

Lemma bulk_loop_appends bd (l : list string) : forall h,
  NoDup l ->
  (forall inst, inst ∈ l -> is_Some (h !! inst)) ->
  (bulk_loop bd l h).2 = None ∧
  forall inst,
    (bulk_loop bd l h).1 !! inst =
      if decide (inst ∈ l)
      then (fun prices => prices ++ default [] (bd !! inst)) <$> h !! inst
      else h !! inst.
Proof.
  induction l as [|k l IH]; intros h Hnodup Hkeys.
  { split; [done|]. intros inst. done. }
  apply NoDup_cons in Hnodup as [Hk Hnodup].
  assert (forall h', (forall inst, inst ∈ l -> is_Some (h' !! inst)) ->
            h' !! k = (fun prices => prices ++ default [] (bd !! k)) <$> h !! k ->
            (forall inst, inst ≠ k -> h' !! inst = h !! inst) ->
            (bulk_loop bd l h').2 = None ∧
            forall inst,
              (bulk_loop bd l h').1 !! inst =
                if decide (inst ∈ k :: l)
                then (fun prices => prices ++ default [] (bd !! inst)) <$> h !! inst
                else h !! inst) as Hstep.
  { intros h' Hkeys' Hat Hother. destruct (IH h' Hnodup Hkeys') as [He Hl].
    split; [done|]. intros inst. rewrite Hl.
    destruct (decide (inst = k)) as [->|Hne].
    - rewrite decide_False by done. rewrite decide_True by by left. done.
    - rewrite Hother by done. destruct (decide (inst ∈ l)).
      + rewrite decide_True by by right. done.
      + rewrite decide_False; [done|]. intros [?|?]%elem_of_cons; done. }
  destruct (Hkeys k) as [prices Hprices]; [by left|].
  simpl. destruct (bd !! k) as [[|bar bars]|] eqn:Hbd.
  - apply Hstep.
    + intros inst Hin. apply Hkeys. by right.
    + rewrite Hprices. simpl. by rewrite app_nil_r.
    + done.
  - rewrite Hprices. apply Hstep.
    + intros inst Hin. destruct (decide (inst = k)) as [->|Hne].
      * rewrite lookup_insert_eq. by eexists.
      * rewrite lookup_insert_ne by done. apply Hkeys. by right.
    + rewrite lookup_insert_eq, Hprices. done.
    + intros inst Hne. by rewrite lookup_insert_ne.
  - apply Hstep.
    + intros inst Hin. apply Hkeys. by right.
    + rewrite Hprices. simpl. by rewrite app_nil_r.
    + done.
Qed.

Lemma bulk_loop_raises bd (l : list string) : forall h,
  match (bulk_loop bd l h).2 with
  | None =>
      forall inst, inst ∈ l -> bd !! inst ≠ None -> bd !! inst ≠ Some [] ->
                   is_Some (h !! inst)
  | Some e =>
      e = KeyError ∧
      exists inst, inst ∈ l ∧ bd !! inst ≠ None ∧ bd !! inst ≠ Some [] ∧
                   h !! inst = None
  end.
Proof.
  induction l as [|k l IH]; intros h; simpl.
  { intros inst Hin. by apply elem_of_nil in Hin. }
  assert (forall h', (forall inst, is_Some (h' !! inst) <-> is_Some (h !! inst)) ->
            (bd !! k = None ∨ bd !! k = Some [] ∨ is_Some (h !! k)) ->
            match (bulk_loop bd l h').2 with
            | None =>
                forall inst, inst ∈ k :: l -> bd !! inst ≠ None ->
                  bd !! inst ≠ Some [] -> is_Some (h !! inst)
            | Some e =>
                e = KeyError ∧
                exists inst, inst ∈ k :: l ∧ bd !! inst ≠ None ∧
                  bd !! inst ≠ Some [] ∧ h !! inst = None
            end) as Hstep.
  { intros h' Hdom Hk. specialize (IH h').
    destruct (bulk_loop bd l h').2 as [e|].
    - destruct IH as (-> & inst & Hin & H1 & H2 & Hnone). split; [done|].
      exists inst. split; [by right|]. split; [done|]. split; [done|].
      apply eq_None_not_Some. rewrite <- Hdom. by rewrite Hnone; intros [? [=]].
    - intros inst [->|Hin]%elem_of_cons H1 H2.
      + destruct Hk as [?|[?|?]]; done.
      + apply Hdom. by apply IH. }
  destruct (bd !! k) as [[|bar bars]|] eqn:Hbd.
  - apply Hstep; auto.
  - destruct (h !! k) as [prices|] eqn:Hk.
    + apply Hstep.
      * intros inst. destruct (decide (inst = k)) as [->|Hne].
        -- rewrite lookup_insert_eq, Hk. split; eauto.
        -- by rewrite lookup_insert_ne.
      * right. right. by eexists.
    + simpl. split; [done|]. exists k. split; [by left|]. by rewrite Hbd.
  - apply Hstep; auto.
Qed.
End loading.

(** X1.  [start] gives every universe instrument an empty price history,
    whatever was recorded for it before; the histories of other keys,
    the four parameters and the counter stay as they were. *)
Theorem start_resets_histories (s : AlgoEvent.t) :
  (forall inst,
     historical_data (start s) !! inst =
       if decide (inst ∈ instrument_list s) then Some []
       else historical_data s !! inst) ∧
  instrument_list (start s) = instrument_list s ∧
  lookback_period (start s) = lookback_period s ∧
  rebalance_period (start s) = rebalance_period s ∧
  hold_N_assets (start s) = hold_N_assets s ∧
  rebalance_counter (start s) = rebalance_counter s.
Proof.
  split; [|done]. intros inst. unfold start. simpl. apply start_history.
Qed.

(** X2.  In a state where the universe instruments are distinct and each
    has a history list, a synchronous bulk feed raises nothing and
    appends to the history of every universe instrument the closes of
    its bars, in order (nothing for an instrument without bars);
    histories of other keys, the parameters and the counter are
    untouched. *)
Theorem bulk_feed_appends (bd : gmap string (list Qc)) (s : AlgoEvent.t) :
  NoDup (instrument_list s) ->
  (forall inst, inst ∈ instrument_list s ->
     is_Some (historical_data s !! inst)) ->
  let s' := (on_bulkdatafeed true bd s).1 in
  (on_bulkdatafeed true bd s).2 = None ∧
  (forall inst,
     historical_data s' !! inst =
       if decide (inst ∈ instrument_list s)
       then (fun prices => prices ++ default [] (bd !! inst))
              <$> historical_data s !! inst
       else historical_data s !! inst) ∧
  instrument_list s' = instrument_list s ∧
  lookback_period s' = lookback_period s ∧
  rebalance_period s' = rebalance_period s ∧
  hold_N_assets s' = hold_N_assets s ∧
  rebalance_counter s' = rebalance_counter s.
Proof.
  intros Hnodup Hkeys.
  destruct (bulk_loop_appends bd (instrument_list s) (historical_data s)
              Hnodup Hkeys) as [He Hl].
  unfold on_bulkdatafeed.
  destruct (bulk_loop bd (instrument_list s) (historical_data s)) as [h e].
  simpl in *. done.
Qed.

Lemma bulk_feed_appends_witness :
  let bd : gmap string (list Qc) := {[ "A"%string := [Qc_of_Z 10; Qc_of_Z 11] ]} in
  (on_bulkdatafeed true bd (start Sample.small)).2 = None.
Proof.
  apply (bulk_feed_appends _ (start Sample.small)).
  - apply (bool_decide_unpack _). vm_compute. exact I.
  - intros inst Hin. apply start_lookup. by left.
Defined.

(** X3.  [start] followed by a synchronous bulk feed loads the bars: for
    distinct universe instruments, the history of each is then exactly
    the closes of its bars (empty if the feed has none for it), and
    nothing is raised. *)
Theorem start_then_bulk_loads_bars (bd : gmap string (list Qc))
    (s : AlgoEvent.t) inst :
  NoDup (instrument_list s) ->
  inst ∈ instrument_list s ->
  (on_bulkdatafeed true bd (start s)).2 = None ∧
  historical_data (on_bulkdatafeed true bd (start s)).1 !! inst =
    Some (default [] (bd !! inst)).
Proof.
  intros Hnodup Hin.
  destruct (bulk_loop_appends bd (instrument_list s)
              (historical_data (start s)) Hnodup) as [He Hl].
  { intros k Hk. apply start_lookup. by left. }
  unfold on_bulkdatafeed.
  change (instrument_list (start s)) with (instrument_list s).
  destruct (bulk_loop bd (instrument_list s) (historical_data (start s)))
    as [h e].
  simpl in *. split; [done|]. rewrite Hl, decide_True by done.
  unfold start. simpl. rewrite start_history, decide_True by done. done.
Qed.

Lemma start_then_bulk_loads_bars_witness :
  let bd : gmap string (list Qc) := {[ "A"%string := [Qc_of_Z 10; Qc_of_Z 11] ]} in
  (on_bulkdatafeed true bd (start Sample.small)).2 = None ∧
  historical_data (on_bulkdatafeed true bd (start Sample.small)).1 !! "B"%string =
    Some (default [] (bd !! "B"%string)).
Proof.
  apply start_then_bulk_loads_bars.
  - apply (bool_decide_unpack _). vm_compute. exact I.
  - apply (bool_decide_unpack _). vm_compute. exact I.
Defined.

(** X4.  In a session no bulk feed raises: the [KeyError] of line 47
    needs a universe instrument without a history list, and after
    [start] every universe instrument has one, also when the universe
    names an instrument twice.  A feed that is not synchronous leaves
    the state as it is. *)
Theorem bulk_feed_is_safe_in_session universe lookback period hold s0
    (s : AlgoEvent.t) (isSync : bool) (bd : gmap string (list Qc)) :
  construct universe lookback period hold = Ok s0 ->
  0 < period ->
  reachable s0 s ->
  (on_bulkdatafeed isSync bd s).2 = None ∧
  on_bulkdatafeed false bd s = (s, None).
Proof.
  intros Hs0 Hp Hreach. split; [|done].
  destruct (reachable_well_formed _ _ _ _ _ _ Hs0 Hp Hreach)
    as ([Hdom _] & _).
  unfold on_bulkdatafeed. destruct isSync; [|done].
  pose proof (bulk_loop_raises bd (instrument_list s) (historical_data s))
    as Hloop.
  destruct (bulk_loop bd (instrument_list s) (historical_data s))
    as [h [e|]]; simpl in *; [|done].
  destruct Hloop as (_ & inst & Hin & _ & _ & Hnone).
  apply Hdom in Hin. rewrite Hnone in Hin. by destruct Hin.
Qed.

Lemma bulk_feed_is_safe_in_session_witness :
  let bd : gmap string (list Qc) := {[ "A"%string := [Qc_of_Z 12] ]} in
  (on_bulkdatafeed true bd Sample.small_loaded).2 = None ∧
  on_bulkdatafeed false bd Sample.small_loaded = (Sample.small_loaded, None).
Proof.
  apply (bulk_feed_is_safe_in_session ["A"; "B"]%string 2 1 1 Sample.small).
  - reflexivity.
  - lia.
  - apply (reach_bulk Sample.small (start Sample.small)), reach_start.
Defined.

(** ** Histories over a run of ticks *)

Section histories.
Implicit Types (s : AlgoEvent.t) (ticks : list (Qc * MarketData)).

Lemma run_state_last s ticks pv md :
  last (state <$> run s (ticks ++ [(pv, md)])) =
    Some (run_state s (ticks ++ [(pv, md)])).
Proof.
  revert s. induction ticks as [|[pv' md'] ticks IH]; intros s; [done|].
  simpl. specialize (IH (state (on_marketdatafeed pv' md' s))).
  destruct (run (state (on_marketdatafeed pv' md' s)) (ticks ++ [(pv, md)]))
    as [|r rs] eqn:Hrun; [|exact IH].
  destruct ticks; discriminate.
Qed.

Lemma closes_of_cons inst pv md ticks :
  closes_of inst ((pv, md) :: ticks) =
    if decide (instrument md = inst) then close md :: closes_of inst ticks
    else closes_of inst ticks.
Proof.
  unfold closes_of. rewrite filter_cons. simpl.
  by destruct (decide (instrument md = inst)).
Qed.

Lemma tick_history pv md s inst :
  historical_data (state (on_marketdatafeed pv md s)) !! inst =
    (fun prices =>
       prices ++ (if decide (instrument md = inst) then [close md] else []))
      <$> historical_data s !! inst.
Proof.
  rewrite on_marketdatafeed_history. unfold append_close. simpl.
  destruct (decide (instrument md = inst)) as [<-|Hne].
  - by rewrite lookup_alter_eq.
  - rewrite lookup_alter_ne by done.
    destruct (historical_data s !! inst); simpl; [|done].
    by rewrite app_nil_r.
Qed.
End histories.

(** X5.  Histories are append-only over any run of ticks, whatever the
    calls do otherwise (return early, skip, trade or raise): afterwards
    the history of an instrument is its old history followed by the
    closes of its own ticks in order; an instrument without a history
    list still has none. *)
Theorem histories_are_append_only (ticks : list (Qc * MarketData))
    (s : AlgoEvent.t) (inst : string) :
  historical_data (run_state s ticks) !! inst =
    (fun prices => prices ++ closes_of inst ticks)
      <$> historical_data s !! inst.
Proof.
  revert s. induction ticks as [|[pv md] ticks IH]; intros s.
  - simpl. destruct (historical_data s !! inst); simpl; [|done].
    by rewrite app_nil_r.
  - simpl. rewrite IH, tick_history, closes_of_cons.
    destruct (historical_data s !! inst); simpl; [|done].
    f_equal. rewrite <- app_assoc.
    by destruct (decide (instrument md = inst)).
Qed.

(** ** What a call can send *)

Section sent_orders.
Implicit Types (s : AlgoEvent.t) (h : gmap string (list Qc)) (pv : Qc).
Local Open Scope Qc_scope.

Lemma place_orders_from h cpp short (l : list string) o :
  o ∈ (place_orders h cpp short l).1 ->
  order_instrument o ∈ l ∧ standard_order o.
Proof.
  induction l as [|inst l IH]; simpl.
  - intros Hin. by apply elem_of_nil in Hin.
  - destruct (target_quantity h cpp short inst) as [q|]; simpl.
    + destruct (place_orders h cpp short l) as [os e]. simpl in *.
      intros [->|Hin]%elem_of_cons.
      * split; [by left|done].
      * destruct (IH Hin). split; [by right|done].
    + intros Hin. by apply elem_of_nil in Hin.
Qed.

Lemma dict_set_keys {V} (d : dict V) k v k' :
  k' ∈ (dict_set d k v).*1 -> k' ∈ d.*1 ∨ k' = k.
Proof.
  induction d as [|[k0 v0] d IH]; simpl.
  - intros [->|Hin]%elem_of_cons; [auto|by apply elem_of_nil in Hin].
  - destruct (decide (k = k0)) as [->|Hne]; simpl.
    + intros [->|Hin]%elem_of_cons; [auto|]. left. by right.
    + intros [->|Hin]%elem_of_cons; [left; by left|].
      destruct (IH Hin); [left; by right|auto].
Qed.

Lemma momentum_loop_keys h lookback (l : list string) : forall d scores k,
  momentum_loop h lookback l d = Ok scores ->
  k ∈ scores.*1 -> k ∈ d.*1 ∨ k ∈ l.
Proof.
  induction l as [|inst l IH]; intros d scores k; simpl.
  - intros [= <-]. auto.
  - unfold lookup_key. destruct (h !! inst) as [prices|]; simpl; [|done].
    destruct (momentum prices lookback) as [m|]; simpl; [|done].
    intros Hloop Hin. destruct (IH _ _ _ Hloop Hin) as [Hd|Hl].
    + apply dict_set_keys in Hd as [?|Heq]; [auto|]. right.
      rewrite Heq. by left.
    + right. by right.
Qed.

Lemma longs_of_ranked (ranked : list (string * Qc)) hold inst :
  inst ∈ longs_of ranked hold -> inst ∈ ranked.*1.
Proof.
  unfold longs_of, slice_to. rewrite fmap_take. intros Hin.
  eapply elem_of_sublist; [exact Hin|apply sublist_take].
Qed.

Lemma shorts_of_ranked (ranked : list (string * Qc)) hold inst :
  inst ∈ shorts_of ranked hold -> inst ∈ ranked.*1.
Proof.
  unfold shorts_of, slice_from. rewrite fmap_drop. intros Hin.
  eapply elem_of_sublist; [exact Hin|apply sublist_drop].
Qed.

Lemma ranked_instruments_keys (scores : dict Qc) :
  (ranked_instruments scores).*1 ≡ₚ scores.*1.
Proof. unfold ranked_instruments. by rewrite sorted_reverse_perm. Qed.

Lemma execute_trades_from s pv longs shorts flats o :
  o ∈ (execute_trades s pv longs shorts flats).1 ->
  order_instrument o ∈ flats ++ longs ++ shorts ∧ standard_order o.
Proof.
  unfold execute_trades.
  destruct (decide _); [intros Hin; by apply elem_of_nil in Hin|].
  destruct (div pv _) as [cpp|]; [|intros Hin; by apply elem_of_nil in Hin].
  pose proof (place_orders_from (historical_data s) cpp false longs o) as Hl.
  pose proof (place_orders_from (historical_data s) cpp true shorts o) as Hs.
  assert (o ∈ (fun inst => sendOrder inst 0) <$> flats ->
          order_instrument o ∈ flats ∧ standard_order o) as Hf.
  { intros Hin. apply list_elem_of_fmap in Hin as (inst & -> & Hin). done. }
  destruct (place_orders _ cpp false longs) as [los [e|]]; simpl in *.
  - rewrite !elem_of_app. intros [?|?]; [destruct Hf|destruct Hl]; auto.
  - destruct (place_orders _ cpp true shorts) as [sos [e|]]; simpl in *;
      rewrite !elem_of_app; intros [?|[?|?]];
      [destruct Hf|destruct Hl|destruct Hs|destruct Hf|destruct Hl|destruct Hs];
      auto.
Qed.

Lemma rebalance_from s pv o :
  o ∈ (rebalance s pv).1 ->
  order_instrument o ∈ instrument_list s ∧ standard_order o.
Proof.
  unfold rebalance.
  destruct (check_history _ _ _) as [[inst|]|e]; simpl;
    try (intros Hin; by apply elem_of_nil in Hin).
  destruct (momentum_loop _ _ _ _) as [scores|e] eqn:Hloop; simpl;
    [|intros Hin; by apply elem_of_nil in Hin].
  intros [Hin Hstd]%execute_trades_from. split; [|done].
  assert (forall k, k ∈ (ranked_instruments scores).*1 -> k ∈ instrument_list s)
    as Hkeys.
  { intros k Hk. rewrite ranked_instruments_keys in Hk.
    destruct (momentum_loop_keys _ _ _ _ _ _ Hloop Hk) as [Hnil|?]; [|done].
    by apply elem_of_nil in Hnil. }
  rewrite !elem_of_app in Hin. destruct Hin as [Hf|[Hl|Hs]].
  - unfold flats_of in Hf. apply list_elem_of_filter in Hf. tauto.
  - apply longs_of_ranked in Hl. by apply Hkeys.
  - apply shorts_of_ranked in Hs. by apply Hkeys.
Qed.
End sent_orders.

(** X6.  Whatever the state and the tick, every order that a call of
    [on_marketdatafeed] sends is for an instrument of the universe and
    is a market order with price 0 in target-shares mode; this includes
    the orders sent before an exception ends the call. *)
Theorem orders_stay_in_universe pv md (s : AlgoEvent.t) (o : Order) :
  o ∈ orders (on_marketdatafeed pv md s) ->
  order_instrument o ∈ instrument_list s ∧
  order_type o = "MKT"%string ∧ order_price o = 0%Qc ∧
  order_mode o = "TARGET_SHARES"%string.
Proof.
  intros Hin.
  assert (instrument_list (state (on_marketdatafeed pv md s)) = instrument_list s)
    as Hl by apply on_marketdatafeed_params.
  destruct (on_marketdatafeed_cases pv md s)
    as [[_ Hnil]|[(_ & Hnil & _)|(_ & Hos & _)]].
  - rewrite Hnil in Hin. by apply elem_of_nil in Hin.
  - rewrite Hnil in Hin. by apply elem_of_nil in Hin.
  - rewrite Hos in Hin. apply rebalance_from in Hin. by rewrite Hl in Hin.
Qed.

Lemma orders_stay_in_universe_witness :
  let o := sendOrder "A" (Q2Qc (25 # 6)) in
  order_instrument o ∈ instrument_list Sample.small_loaded ∧
  order_type o = "MKT"%string ∧ order_price o = 0%Qc ∧
  order_mode o = "TARGET_SHARES"%string.
Proof.
  apply (orders_stay_in_universe (Qc_of_Z 100) (Sample.tick "A" 12)
           Sample.small_loaded).
  apply (bool_decide_unpack _). vm_compute. exact I.
Defined.

(** ** Partial emission *)

Section partial_emission.
Implicit Types (s : AlgoEvent.t) (h : gmap string (list Qc)) (pv : Qc).
Local Open Scope Qc_scope.

Lemma place_orders_prefix h cpp short (l : list string) :
  (place_orders h cpp short l).1 `prefix_of`
    (fun inst =>
       sendOrder inst
         (if short then - (cpp / last_price h inst)
          else cpp / last_price h inst)) <$> l.
Proof.
  induction l as [|inst l IH]; simpl; [done|].
  destruct (target_quantity h cpp short inst) as [q|] eqn:Hq; simpl;
    [|apply prefix_nil].
  apply target_quantity_inv in Hq as [_ ->].
  destruct (place_orders h cpp short l) as [os e]. simpl in *.
  by apply prefix_cons.
Qed.

Lemma rebalance_prefix s pv :
  (rebalance s pv).1 `prefix_of`
    flat_orders s ++ long_orders pv s ++ short_orders pv s.
Proof.
  unfold rebalance.
  destruct (check_history _ _ _) as [[inst|]|e]; simpl; try apply prefix_nil.
  destruct (momentum_loop _ _ _ _) as [scores|e] eqn:Hloop; simpl;
    [|apply prefix_nil].
  apply momentum_loop_scores in Hloop.
  fold (momentum_scores_of
          (momentum_score (historical_data s) (lookback_period s))
          (instrument_list s)) in Hloop. subst scores.
  fold (cycle_ranking s). fold (cycle_longs s). fold (cycle_shorts s).
  fold (cycle_flats s). unfold execute_trades.
  destruct (decide (_ = 0%Z)) as [|Hnum]; simpl; [apply prefix_nil|].
  unfold div. rewrite decide_False by by apply Qc_of_Z_nonzero.
  fold (capital_per_position pv s). fold (flat_orders s).
  pose proof (place_orders_prefix (historical_data s)
                (capital_per_position pv s) false (cycle_longs s)) as Hl.
  pose proof (place_orders_prefix (historical_data s)
                (capital_per_position pv s) true (cycle_shorts s)) as Hs.
  fold (long_orders pv s) in Hl. fold (short_orders pv s) in Hs.
  destruct (place_orders _ _ false _) as [los [e|]] eqn:Hlongs; simpl in *.
  - apply prefix_app. etrans; [exact Hl|]. by apply prefix_app_r.
  - apply place_orders_inv in Hlongs as [-> _]. fold (long_orders pv s).
    destruct (place_orders _ _ true _) as [sos [e|]]; simpl in *;
      by do 2 apply prefix_app.
Qed.
End partial_emission.

(** X7.  The orders of a call are sent in a fixed sequence and are not
    all-or-nothing: whatever a call has sent, also when an exception
    ended it, is an initial segment of "a zero target for each flat
    instrument, then the long targets, then the short targets" of that
    cycle.  Proper initial segments do occur: a last price of 0 in the
    short list raises [ZeroDivisionError] after the long orders have
    gone out. *)
Theorem orders_are_an_initial_segment :
  (forall pv md (s : AlgoEvent.t),
     let r := on_marketdatafeed pv md s in
     orders r `prefix_of`
       flat_orders (state r) ++ long_orders pv (state r)
       ++ short_orders pv (state r)) ∧
  (exists pv md (s : AlgoEvent.t),
     let r := on_marketdatafeed pv md s in
     out r = Raised ZeroDivisionError ∧ orders r ≠ [] ∧
     length (orders r) <
       length (flat_orders (state r) ++ long_orders pv (state r)
               ++ short_orders pv (state r)))%nat.
Proof.
  split.
  - intros pv md s r.
    destruct (on_marketdatafeed_cases pv md s)
      as [[_ Hnil]|[(_ & Hnil & _)|(_ & Hos & _)]]; fold r in Hnil || fold r in Hos.
    + rewrite Hnil. apply prefix_nil.
    + rewrite Hnil. apply prefix_nil.
    + rewrite Hos. apply rebalance_prefix.
  - exists (Qc_of_Z 100), (Sample.tick "A" 12), Sample.small_zero_last.
    split; [vm_compute; reflexivity|]. split.
    + vm_compute. discriminate.
    + vm_compute. lia.
Qed.

(** ** Outcomes that cannot happen *)

Section outcomes.
Implicit Types (s : AlgoEvent.t) (h : gmap string (list Qc)) (pv : Qc).
Local Open Scope Qc_scope.

Lemma dict_set_nonempty {V} (d : dict V) k v : dict_set d k v ≠ [].
Proof. destruct d as [|[k' v'] d]; simpl; [done|]. by destruct (decide _). Qed.

Lemma momentum_loop_nonempty h lookback (l : list string) : forall d scores,
  momentum_loop h lookback l d = Ok scores ->
  d ≠ [] ∨ l ≠ [] -> scores ≠ [].
Proof.
  induction l as [|inst l IH]; intros d scores; simpl.
  - intros [= <-] [?|?]; done.
  - unfold lookup_key. destruct (h !! inst) as [prices|]; simpl; [|done].
    destruct (momentum prices lookback) as [m|]; simpl; [|done].
    intros Hloop _. apply (IH _ _ Hloop). left. apply dict_set_nonempty.
Qed.

Lemma positions_nonempty (ranked : list (string * Qc)) (hold : Z) :
  ranked ≠ [] -> (0 <= hold)%Z ->
  (Z.of_nat (length (longs_of ranked hold))
   + Z.of_nat (length (shorts_of ranked hold)) ≠ 0)%Z.
Proof.
  intros Hne Hhold.
  assert (0 < length ranked)%nat by (destruct ranked; [done|simpl; lia]).
  destruct (decide (hold = 0%Z)) as [->|Hpos].
  - rewrite shorts_of_hold_zero, length_fmap. lia.
  - rewrite longs_of_take by done.
    rewrite length_take, length_fmap. lia.
Qed.

Lemma rebalance_has_positions s pv :
  instrument_list s ≠ [] -> (0 <= hold_N_assets s)%Z ->
  (rebalance s pv).2 ≠ NoPositions.
Proof.
  intros Hu Hhold. unfold rebalance.
  destruct (check_history _ _ _) as [[inst|]|e]; simpl; [done| |done].
  destruct (momentum_loop _ _ _ _) as [scores|e] eqn:Hloop; simpl; [|done].
  apply momentum_loop_nonempty in Hloop; [|by right].
  assert (ranked_instruments scores ≠ []) as Hranked.
  { intros Hnil. apply Hloop.
    apply (f_equal length) in Hnil. unfold ranked_instruments in Hnil.
    rewrite sorted_reverse_perm in Hnil. by destruct scores. }
  pose proof (positions_nonempty _ _ Hranked Hhold) as Hnum.
  unfold execute_trades. rewrite decide_False by done.
  repeat case_match; simpl; congruence.
Qed.
End outcomes.

(** X8.  With a hold count that is not negative, no call ends at the
    "no positions" [return] of line 109 (the code comments it as "should
    not happen"): a call that gets as far as line 108 has at least one
    long or short instrument. *)
Theorem no_positions_never_happens pv md (s : AlgoEvent.t) :
  0 <= hold_N_assets s ->
  out (on_marketdatafeed pv md s) ≠ NoPositions.
Proof.
  intros Hhold.
  pose proof (on_marketdatafeed_params pv md s) as (Hl & _ & _ & Hk).
  simpl in Hl, Hk.
  destruct (instrument_list s) as [|reference rest] eqn:Hu.
  { unfold on_marketdatafeed. by rewrite count_tick_empty. }
  destruct (on_marketdatafeed_cases pv md s)
    as [[Ho _]|[(Ho & _)|(Hst & _ & Ho)]]; [congruence|congruence|].
  rewrite Ho. apply rebalance_has_positions; [by rewrite Hl|by rewrite Hk].
Qed.

Lemma no_positions_never_happens_witness :
  out (on_marketdatafeed (Qc_of_Z 100) (Sample.tick "A" 12)
         Sample.small_loaded) ≠ NoPositions.
Proof.
  apply no_positions_never_happens. vm_compute. discriminate.
Defined.

(** With a negative hold count the return of line 109 is reached. *)
Example no_positions_with_negative_hold :
  out (on_marketdatafeed (Qc_of_Z 100) (Sample.tick "A" 12)
         {| instrument_list := ["A"]%string; lookback_period := 1;
            rebalance_period := 1; hold_N_assets := -1;
            rebalance_counter := 0;
            historical_data := {[ "A"%string := [Qc_of_Z 10] ]} |})
    = NoPositions.
Proof. vm_compute. reflexivity. Qed.

(** ** Calls that cannot raise *)

Section no_exception.
Implicit Types (s : AlgoEvent.t) (h : gmap string (list Qc)) (pv : Qc).
Local Open Scope Qc_scope.

Lemma momentum_nonzero_prices (prices : list Qc) (lookback : Z) :
  (0 < lookback <= Z.of_nat (length prices))%Z ->
  Forall (λ p, p ≠ 0) prices ->
  exists m, momentum prices lookback = Ok m.
Proof.
  intros Hk Hprices. eexists. apply momentum_defined; [done|].
  destruct (lookup_lt_is_Some_2 prices (length prices - Z.to_nat lookback))
    as [base Hbase]; [lia|].
  rewrite nth_lookup, Hbase. simpl.
  by apply (proj1 (Forall_lookup _ _) Hprices _ _ Hbase).
Qed.

Lemma momentum_loop_total h lookback (l : list string) : forall d,
  (0 < lookback)%Z ->
  (forall inst, inst ∈ l ->
     exists prices, h !! inst = Some prices ∧
       (lookback <= Z.of_nat (length prices))%Z ∧
       Forall (λ p, p ≠ 0) prices) ->
  exists scores, momentum_loop h lookback l d = Ok scores.
Proof.
  induction l as [|inst l IH]; intros d Hlb Hall; simpl; [by eexists|].
  destruct (Hall inst) as (prices & Hp & Hlen & Hnz); [by left|].
  unfold lookup_key. rewrite Hp. simpl.
  destruct (momentum_nonzero_prices prices lookback) as [m ->]; [lia|done|].
  simpl. apply IH; [done|]. intros k Hk. apply Hall. by right.
Qed.

Lemma place_orders_total h cpp short (l : list string) :
  (forall inst, inst ∈ l ->
     exists prices, h !! inst = Some prices ∧ prices ≠ [] ∧
       Forall (λ p, p ≠ 0) prices) ->
  (place_orders h cpp short l).2 = None.
Proof.
  induction l as [|inst l IH]; intros Hall; simpl; [done|].
  destruct (Hall inst) as (prices & Hp & Hne & Hnz); [by left|].
  destruct (exists_last Hne) as (front & x & ->).
  unfold target_quantity, lookup_key. rewrite Hp. simpl.
  rewrite getitem_last. simpl. unfold div.
  apply Forall_app in Hnz as [_ Hx]. apply Forall_inv in Hx.
  rewrite decide_False by done. simpl.
  fold (target_quantity h cpp short).
  destruct (place_orders h cpp short l) as [os e] eqn:Hrest. simpl.
  rewrite <- (IH (fun k Hk => Hall k (list_elem_of_further _ _ _ Hk))).
  done.
Qed.

Lemma rebalance_never_raises s pv e :
  (0 < lookback_period s)%Z ->
  (forall inst, inst ∈ instrument_list s ->
     is_Some (historical_data s !! inst)) ->
  prices_nonzero (historical_data s) ->
  (rebalance s pv).2 ≠ Raised e.
Proof.
  intros Hlb Hkeys Hnz. unfold rebalance.
  destruct (check_history_total (historical_data s) (lookback_period s)
              (instrument_list s) Hkeys) as [[inst|] Hcheck];
    rewrite Hcheck; simpl; [done|].
  pose proof (proj1 (check_history_enough _ _ _) Hcheck) as Henough.
  destruct (momentum_loop_total (historical_data s) (lookback_period s)
              (instrument_list s) [] Hlb) as [scores Hloop].
  { intros inst Hin. destruct (Henough inst Hin) as (prices & Hp & Hlen).
    exists prices. split; [done|]. split; [done|]. by apply (Hnz inst). }
  rewrite Hloop.
  assert (forall k, k ∈ (ranked_instruments scores).*1 ->
            exists prices, historical_data s !! k = Some prices ∧
              prices ≠ [] ∧ Forall (λ p, p ≠ 0) prices) as Hranked.
  { intros k Hk. rewrite ranked_instruments_keys in Hk.
    destruct (momentum_loop_keys _ _ _ _ _ _ Hloop Hk) as [Hnil|Hin];
      [by apply elem_of_nil in Hnil|].
    destruct (Henough k Hin) as (prices & Hp & Hlen).
    exists prices. split; [done|]. split; [|by apply (Hnz k)].
    intros ->. simpl in Hlen. lia. }
  unfold execute_trades. destruct (decide _); [done|].
  unfold div. rewrite decide_False by by apply Qc_of_Z_nonzero.
  pose proof (place_orders_total (historical_data s)
    (pv / Qc_of_Z (Z.of_nat (length (longs_of (ranked_instruments scores)
                                       (hold_N_assets s)))
                   + Z.of_nat (length (shorts_of (ranked_instruments scores)
                                         (hold_N_assets s)))))
    false (longs_of (ranked_instruments scores) (hold_N_assets s))) as Hl.
  pose proof (place_orders_total (historical_data s)
    (pv / Qc_of_Z (Z.of_nat (length (longs_of (ranked_instruments scores)
                                       (hold_N_assets s)))
                   + Z.of_nat (length (shorts_of (ranked_instruments scores)
                                         (hold_N_assets s)))))
    true (shorts_of (ranked_instruments scores) (hold_N_assets s))) as Hs.
  destruct (place_orders _ _ false _) as [los el].
  destruct (place_orders _ _ true _) as [sos es]. simpl in *.
  rewrite Hl by (intros k Hk; by apply Hranked, (longs_of_ranked _ _ _ Hk)).
  rewrite Hs by (intros k Hk; by apply Hranked, (shorts_of_ranked _ _ _ Hk)).
  done.
Qed.
End no_exception.

(** X9.  A call of [on_marketdatafeed] raises no exception when the
    universe is not empty, the lookback period is at least 1, every
    universe instrument has a history list (as after [start]), no
    recorded price is 0 and the close of the tick is not 0: it returns
    early, skips the cycle, or sends all its orders. *)
Theorem handler_never_raises pv md (s : AlgoEvent.t) e :
  instrument_list s ≠ [] ->
  0 < lookback_period s ->
  (forall inst, inst ∈ instrument_list s ->
     is_Some (historical_data s !! inst)) ->
  prices_nonzero (historical_data s) ->
  close md ≠ 0%Qc ->
  out (on_marketdatafeed pv md s) ≠ Raised e.
Proof.
  intros Hu Hlb Hkeys Hnz Hclose.
  destruct (on_marketdatafeed_cases pv md s)
    as [[Ho _]|[(_ & _ & Hnil)|(Hst & _ & Ho)]]; [congruence|done|].
  rewrite Ho, Hst. apply rebalance_never_raises; simpl.
  - done.
  - intros inst Hin. apply lookup_alter_is_Some. by apply Hkeys.
  - intros inst prices.
    destruct (decide (inst = instrument md)) as [->|Hne].
    + rewrite lookup_alter_eq.
      destruct (historical_data s !! instrument md) as [old|] eqn:Hold;
        simpl; [|done].
      intros [= <-]. apply Forall_app. split; [by apply (Hnz _ _ Hold)|].
      by constructor.
    + rewrite lookup_alter_ne by done. apply Hnz.
Qed.

Lemma handler_never_raises_witness :
  out (on_marketdatafeed (Qc_of_Z 100) (Sample.tick "A" 12)
         Sample.small_preloaded) ≠ Raised ZeroDivisionError.
Proof.
  apply handler_never_raises.
  - vm_compute. discriminate.
  - vm_compute. reflexivity.
  - intros inst Hin. simpl in Hin. rewrite !elem_of_cons in Hin.
    destruct Hin as [->|[->|Hnil]]; [by eexists|by eexists|].
    by apply elem_of_nil in Hnil.
  - intros inst prices. simpl. unfold Sample.small_histories.
    intros [[<- <-]|[_ [[<- <-]|[_ Hempty]]%lookup_insert_Some]]%lookup_insert_Some.
    + repeat constructor; discriminate.
    + repeat constructor; discriminate.
    + by rewrite lookup_empty in Hempty.
  - vm_compute. discriminate.
Defined.

(** ** Hold counts at the edges *)

Section hold_edges.
Implicit Types (s : AlgoEvent.t) (pv : Qc).
Local Open Scope Qc_scope.

Lemma filter_none {A} (P : A -> Prop) `{!forall x, Decision (P x)}
    (l : list A) :
  (forall x, x ∈ l -> ¬ P x) -> filter P l = [].
Proof.
  induction l as [|x l IH]; intros Hall; [done|].
  rewrite filter_cons, decide_False by (apply Hall; by left).
  apply IH. intros y Hy. apply Hall. by right.
Qed.

Lemma check_history_first h lookback (l : list string) inst :
  check_history h lookback l = Ok (Some inst) ->
  exists before after,
    l = before ++ inst :: after ∧
    (forall k, k ∈ before ->
       exists prices, h !! k = Some prices ∧
                      (lookback <= Z.of_nat (length prices))%Z) ∧
    exists prices, h !! inst = Some prices ∧
                   (Z.of_nat (length prices) < lookback)%Z.
Proof.
  induction l as [|k l IH]; simpl; [done|].
  unfold lookup_key. destruct (h !! k) as [prices|] eqn:Hk; simpl; [|done].
  destruct (decide (Z.of_nat (length prices) < lookback)%Z).
  - intros [= <-]. exists [], l. split; [done|]. split.
    + intros k' Hin. by apply elem_of_nil in Hin.
    + by exists prices.
  - intros (before & after & -> & Hbefore & Hinst)%IH.
    exists (k :: before), after. split; [done|]. split; [|done].
    intros k' [->|Hin]%elem_of_cons; [|by apply Hbefore].
    exists prices. split; [done|lia].
Qed.
End hold_edges.

(** X10.  A hold count at least as large as a universe of distinct
    instruments puts every instrument both in the long and in the short
    list, in ranking order, and leaves the flat list empty. *)
Theorem oversized_hold_takes_everything (s : AlgoEvent.t) :
  NoDup (instrument_list s) ->
  Z.of_nat (length (instrument_list s)) <= hold_N_assets s ->
  cycle_longs s = (cycle_ranking s).*1 ∧
  cycle_shorts s = (cycle_ranking s).*1 ∧
  cycle_flats s = [] ∧
  (cycle_ranking s).*1 ≡ₚ instrument_list s.
Proof.
  intros Hnodup Hhold.
  pose proof (cycle_ranking_perm s Hnodup) as Hperm.
  assert (length (cycle_ranking s).*1 = length (instrument_list s)) as Hlen
    by by rewrite Hperm.
  assert (cycle_longs s = (cycle_ranking s).*1) as Hlongs.
  { unfold cycle_longs. rewrite longs_of_take by lia.
    apply take_ge. lia. }
  assert (cycle_shorts s = (cycle_ranking s).*1) as Hshorts.
  { unfold cycle_shorts. destruct (decide (hold_N_assets s = 0)) as [->|Hne].
    - apply shorts_of_hold_zero.
    - rewrite shorts_of_drop by lia.
      replace (length (cycle_ranking s).*1 - Z.to_nat (hold_N_assets s))%nat
        with 0%nat by lia. done. }
  split; [done|]. split; [done|]. split; [|done].
  unfold cycle_flats, flats_of. apply filter_none.
  intros inst Hin [Hnot _]. apply Hnot. by rewrite Hlongs, Hperm.
Qed.

Lemma oversized_hold_takes_everything_witness :
  let s := set_history Sample.small_histories
             {| instrument_list := ["A"; "B"]%string; lookback_period := 2;
                rebalance_period := 1; hold_N_assets := 5;
                rebalance_counter := 0; historical_data := ∅ |} in
  cycle_longs s = (cycle_ranking s).*1 ∧
  cycle_shorts s = (cycle_ranking s).*1 ∧
  cycle_flats s = [] ∧
  (cycle_ranking s).*1 ≡ₚ instrument_list s.
Proof.
  apply oversized_hold_takes_everything.
  - apply (bool_decide_unpack _). vm_compute. exact I.
  - simpl. lia.
Defined.

(** X11.  With a hold count of 0 and distinct instruments, an executed
    cycle sends nothing but short orders, one for every instrument of
    the universe: [ranked[-0:]] is the whole ranking, so nothing is long
    and nothing is flat. *)
Theorem zero_hold_shorts_everything pv md (s : AlgoEvent.t) :
  hold_N_assets s = 0 ->
  NoDup (instrument_list s) ->
  let r := on_marketdatafeed pv md s in
  out r = Rebalanced ->
  orders r = short_orders pv (state r) ∧
  order_instrument <$> orders r ≡ₚ instrument_list s ∧
  cycle_longs (state r) = [] ∧ cycle_flats (state r) = [].
Proof.
  intros Hzero Hnodup r Hout.
  pose proof (on_marketdatafeed_params pv md s) as (Hl & _ & _ & Hk).
  fold r in Hl, Hk. simpl in Hl, Hk.
  destruct (on_marketdatafeed_executed pv md s Hout) as [Hreb Hos].
  fold r in Hreb, Hos.
  destruct (rebalance_executed (state r) pv Hreb) as (_ & Horders & _).
  rewrite Hos, Horders. clear Hos Horders.
  assert (NoDup (instrument_list (state r))) as Hnodup' by by rewrite Hl.
  pose proof (cycle_ranking_perm (state r) Hnodup') as Hperm.
  assert (cycle_longs (state r) = []) as Hlongs.
  { unfold cycle_longs. rewrite Hk, Hzero. by rewrite longs_of_take. }
  assert (cycle_shorts (state r) = (cycle_ranking (state r)).*1) as Hshorts.
  { unfold cycle_shorts. rewrite Hk, Hzero. apply shorts_of_hold_zero. }
  assert (cycle_flats (state r) = []) as Hflats.
  { unfold cycle_flats, flats_of. apply filter_none.
    intros inst Hin [_ Hnot]. apply Hnot. by rewrite Hshorts, Hperm. }
  unfold flat_orders, long_orders. rewrite Hflats, Hlongs. simpl.
  split; [done|]. split; [|done].
  unfold short_orders. rewrite sendOrder_instruments, Hshorts, Hperm, Hl. done.
Qed.

Lemma zero_hold_shorts_everything_witness :
  let s := set_history Sample.small_histories
             {| instrument_list := ["A"; "B"]%string; lookback_period := 2;
                rebalance_period := 1; hold_N_assets := 0;
                rebalance_counter := 0; historical_data := ∅ |} in
  let r := on_marketdatafeed (Qc_of_Z 100) (Sample.tick "A" 12) s in
  orders r = short_orders (Qc_of_Z 100) (state r) ∧
  order_instrument <$> orders r ≡ₚ instrument_list s ∧
  cycle_longs (state r) = [] ∧ cycle_flats (state r) = [].
Proof.
  apply zero_hold_shorts_everything.
  - reflexivity.
  - apply (bool_decide_unpack _). vm_compute. exact I.
  - vm_compute. reflexivity.
Defined.

(** X12.  A skipped cycle names the first instrument, in universe order,
    whose history is shorter than the lookback period: every instrument
    before it in the universe has enough prices.  The call has then sent
    no order and has reset the counter to 0. *)
Theorem skip_names_first_short_history pv md (s : AlgoEvent.t) inst :
  let r := on_marketdatafeed pv md s in
  out r = SkippedRebalance inst ->
  (exists before after,
     instrument_list s = before ++ inst :: after ∧
     (forall k, k ∈ before ->
        exists prices, historical_data (state r) !! k = Some prices ∧
                       lookback_period s <= Z.of_nat (length prices)) ∧
     exists prices, historical_data (state r) !! inst = Some prices ∧
                    Z.of_nat (length prices) < lookback_period s) ∧
  orders r = [] ∧ rebalance_counter (state r) = 0.
Proof.
  intros r Hout.
  pose proof (on_marketdatafeed_params pv md s) as (Hl & Hlb & _).
  fold r in Hl, Hlb. simpl in Hl, Hlb.
  destruct (on_marketdatafeed_cases pv md s)
    as [[Ho _]|[(Ho & _)|(Hst & Hos & Ho)]]; fold r in Ho; [congruence..|].
  fold r in Hst, Hos. rewrite Hout in Ho. symmetry in Ho.
  pose proof (rebalance_skipped _ _ _ Ho) as Hcheck.
  split; [|split].
  - rewrite <- Hl, <- Hlb. by apply check_history_first.
  - rewrite Hos. unfold rebalance. by rewrite Hcheck.
  - by rewrite Hst.
Qed.

Lemma skip_names_first_short_history_witness :
  let r := on_marketdatafeed (Qc_of_Z 100) (Sample.tick "A" 10)
             (start Sample.small) in
  orders r = [] ∧ rebalance_counter (state r) = 0.
Proof.
  apply (skip_names_first_short_history (Qc_of_Z 100) (Sample.tick "A" 10)
           (start Sample.small) "A"%string).
  vm_compute. reflexivity.
Defined.

(** ** The momentum score *)

Section momentum_score.
Local Open Scope Qc_scope.
Implicit Types (prices : list Qc) (lookback : Z).

Lemma getitem_fmap {A B} (f : A -> B) (l : list A) (i : Z) :
  getitem (f <$> l) i =
    match getitem l i with
    | Ok x => Ok (f x)
    | Raise e => Raise e
    end.
Proof.
  unfold getitem. rewrite length_fmap. cbv zeta.
  destruct (decide (0 <= _ < _)%Z); [|done].
  rewrite list_lookup_fmap. by destruct (l !! _).
Qed.

Lemma getitem_app_from_end {A} (older l : list A) (k : Z) :
  (0 < k <= Z.of_nat (length l))%Z ->
  getitem (older ++ l) (- k) = getitem l (- k).
Proof.
  intros Hk.
  destruct (lookup_lt_is_Some_2 l (length l - Z.to_nat k)) as [x Hx]; [lia|].
  rewrite (getitem_from_end l k x) by done.
  apply getitem_from_end; rewrite length_app; [lia|].
  rewrite lookup_app_r by lia. rewrite <- Hx. f_equal. lia.
Qed.

Lemma momentum_value prices lookback last base :
  getitem prices (-1) = Ok last ->
  getitem prices (- lookback) = Ok base ->
  momentum prices lookback =
    if decide (base = 0) then Raise ZeroDivisionError
    else Ok (last / base - 1).
Proof.
  intros Hlast Hbase. unfold momentum. rewrite Hlast, Hbase. simpl.
  unfold div. by destruct (decide (base = 0)).
Qed.
End momentum_score.

(** X13.  The momentum score does not depend on the price unit:
    multiplying every price of a history by the same nonzero factor
    leaves the result of line 86 unchanged, exceptions included. *)
Theorem momentum_ignores_price_unit (c : Qc) (prices : list Qc)
    (lookback : Z) :
  c ≠ 0%Qc ->
  momentum ((fun p => c * p)%Qc <$> prices) lookback =
    momentum prices lookback.
Proof.
  intros Hc. unfold momentum. rewrite !getitem_fmap.
  destruct (getitem prices (-1)) as [last|]; simpl; [|done].
  destruct (getitem prices (- lookback)) as [base|]; simpl; [|done].
  unfold div. destruct (decide (base = 0%Qc)) as [->|Hbase].
  - rewrite decide_True by ring. done.
  - rewrite decide_False.
    + simpl. do 2 f_equal. by field.
    + intros [?|?]%Qcmult_integral; done.
Qed.

Lemma momentum_ignores_price_unit_witness :
  momentum ((fun p => Qc_of_Z 100 * p)%Qc <$> [Qc_of_Z 10; Qc_of_Z 11; Qc_of_Z 12]) 2 =
    momentum [Qc_of_Z 10; Qc_of_Z 11; Qc_of_Z 12] 2.
Proof.
  apply momentum_ignores_price_unit.
  apply (bool_decide_unpack _). vm_compute. exact I.
Defined.

(** X14.  Only the last [lookback] prices count: once a history has at
    least [lookback >= 1] prices, any older prices in front of it change
    neither the momentum nor the guard of line 76. *)
Theorem momentum_uses_last_window (older prices : list Qc) (lookback : Z) :
  0 < lookback <= Z.of_nat (length prices) ->
  momentum (older ++ prices) lookback = momentum prices lookback ∧
  guarded_momentum (older ++ prices) lookback =
    guarded_momentum prices lookback.
Proof.
  intros Hk.
  assert (momentum (older ++ prices) lookback = momentum prices lookback)
    as Heq.
  { unfold momentum.
    assert (getitem (older ++ prices) (-1) = getitem prices (-1)) as ->
      by (apply (getitem_app_from_end older prices 1); lia).
    rewrite (getitem_app_from_end older prices lookback) by done. done. }
  split; [done|]. unfold guarded_momentum. rewrite Heq, length_app.
  rewrite !decide_False by lia. done.
Qed.

Lemma momentum_uses_last_window_witness :
  momentum ([Qc_of_Z 7; Qc_of_Z 8] ++ [Qc_of_Z 10; Qc_of_Z 11; Qc_of_Z 12]) 2 =
    momentum [Qc_of_Z 10; Qc_of_Z 11; Qc_of_Z 12] 2.
Proof.
  apply (momentum_uses_last_window [Qc_of_Z 7; Qc_of_Z 8]
           [Qc_of_Z 10; Qc_of_Z 11; Qc_of_Z 12] 2).
  simpl. lia.
Defined.

(** X15.  For positive prices and [1 <= lookback <= len(prices)] the
    momentum is a number above -1 (a loss of less than 100%); it is
    positive exactly when the last price is above the price [lookback]
    periods back, and 0 exactly when the two are equal. *)
Theorem momentum_of_positive_prices (prices : list Qc) (lookback : Z) :
  0 < lookback <= Z.of_nat (length prices) ->
  Forall (λ p, 0 < p)%Qc prices ->
  exists last base m,
    getitem prices (-1) = Ok last ∧
    getitem prices (- lookback) = Ok base ∧
    momentum prices lookback = Ok m ∧
    (-1 < m)%Qc ∧ ((0 < m)%Qc <-> (base < last)%Qc) ∧
    (m = 0%Qc <-> last = base).
Proof.
  intros Hk Hpos.
  destruct (lookup_lt_is_Some_2 prices (length prices - Z.to_nat 1))
    as [last Hlast]; [lia|].
  destruct (lookup_lt_is_Some_2 prices (length prices - Z.to_nat lookback))
    as [base Hbase]; [lia|].
  pose proof (proj1 (Forall_lookup _ _) Hpos _ _ Hlast) as Hlast_pos.
  pose proof (proj1 (Forall_lookup _ _) Hpos _ _ Hbase) as Hbase_pos.
  simpl in Hlast_pos, Hbase_pos.
  apply (getitem_from_end prices 1) in Hlast; [|lia].
  apply (getitem_from_end prices lookback) in Hbase; [|done].
  exists last, base, (last / base - 1)%Qc.
  split; [done|]. split; [done|]. split.
  { rewrite (momentum_value prices lookback last base) by done.
    rewrite decide_False by by apply Qc_pos_nonzero. done. }
  assert (last = last / base * base)%Qc as Hq
    by (field; by apply Qc_pos_nonzero).
  set (q := (last / base)%Qc) in *.
  assert (0 < q)%Qc as Hq_pos.
  { unfold q, Qcdiv. apply Qcmult_pos_pos; [done|by apply Qcinv_pos]. }
  split; [to_Q; lra|]. split; [split|split].
  - intros Hm. rewrite Hq. rewrite <- (Qcmult_1_l base) at 1.
    apply Qcmult_lt_compat_r; [done|]. to_Q. lra.
  - intros Hlt. rewrite Hq in Hlt. rewrite <- (Qcmult_1_l base) in Hlt at 1.
    apply Qcmult_lt_mono_pos_r in Hlt; [|done]. to_Q. lra.
  - intros Hm. rewrite Hq. assert (q = 1)%Qc as -> by (to_Q; lra). ring.
  - intros Heq. unfold q. rewrite Heq. field. by apply Qc_pos_nonzero.
Qed.

Lemma momentum_of_positive_prices_witness :
  exists last base m,
    getitem [Qc_of_Z 10; Qc_of_Z 11; Qc_of_Z 12] (-1) = Ok last ∧
    getitem [Qc_of_Z 10; Qc_of_Z 11; Qc_of_Z 12] (- 2) = Ok base ∧
    momentum [Qc_of_Z 10; Qc_of_Z 11; Qc_of_Z 12] 2 = Ok m ∧
    (-1 < m)%Qc ∧ ((0 < m)%Qc <-> (base < last)%Qc) ∧
    (m = 0%Qc <-> last = base).
Proof.
  apply (momentum_of_positive_prices [Qc_of_Z 10; Qc_of_Z 11; Qc_of_Z 12] 2).
  - simpl. lia.
  - repeat constructor.
Defined.

(** ** Net exposure *)

Section net_exposure.
Implicit Types (s : AlgoEvent.t) (pv : Qc).
Local Open Scope Qc_scope.

Lemma cycle_lists_same_length s :
  (0 < hold_N_assets s)%Z ->
  length (cycle_longs s) = length (cycle_shorts s).
Proof.
  intros Hhold. unfold cycle_longs, cycle_shorts.
  rewrite longs_of_take by lia. rewrite shorts_of_drop by done.
  rewrite length_take, length_drop. lia.
Qed.

Lemma net_notional_positions pv s :
  Forall (λ inst, last_price (historical_data s) inst ≠ 0)
         (cycle_longs s ++ cycle_shorts s) ->
  net_notional (historical_data s) (long_orders pv s ++ short_orders pv s)
    = (Qc_of_Z (Z.of_nat (length (cycle_longs s)))
       - Qc_of_Z (Z.of_nat (length (cycle_shorts s))))
      * capital_per_position pv s.
Proof.
  intros [Hlongs Hshorts]%Forall_app. unfold net_notional.
  rewrite fmap_app, foldr_app.
  rewrite (sum_constant _ (short_orders pv s) (- capital_per_position pv s)).
  - unfold short_orders at 1. rewrite length_fmap.
    assert (forall (l : list Qc) a, foldr Qcplus a l = foldr Qcplus 0 l + a)
      as Hshift.
    { induction l as [|x l IH]; intros a; simpl; [ring|].
      rewrite IH. ring. }
    rewrite Hshift.
    rewrite (sum_constant _ (long_orders pv s) (capital_per_position pv s)).
    + unfold long_orders at 1. rewrite length_fmap. ring.
    + unfold long_orders. apply Forall_fmap.
      eapply Forall_impl; [exact Hlongs|]. intros inst Hne. simpl. by field.
  - unfold short_orders. apply Forall_fmap.
    eapply Forall_impl; [exact Hshorts|]. intros inst Hne. simpl. by field.
Qed.
End net_exposure.

(** X16.  With a hold count of at least 1, an executed cycle is
    dollar-neutral: there are as many long as short orders, and the sum
    over them of target quantity x last price, counted with its sign, is
    0 (each long is worth the capital per position, each short minus
    that). *)
Theorem executed_cycle_is_dollar_neutral pv md (s : AlgoEvent.t) :
  0 < hold_N_assets s ->
  let r := on_marketdatafeed pv md s in
  out r = Rebalanced ->
  length (long_orders pv (state r)) = length (short_orders pv (state r)) ∧
  net_notional (historical_data (state r))
               (long_orders pv (state r) ++ short_orders pv (state r)) = 0%Qc.
Proof.
  intros Hhold r Hout.
  pose proof (on_marketdatafeed_params pv md s) as (_ & _ & _ & Hk).
  fold r in Hk. simpl in Hk.
  destruct (on_marketdatafeed_executed pv md s Hout) as [Hreb _].
  fold r in Hreb.
  destruct (rebalance_executed (state r) pv Hreb) as (_ & _ & Hprices).
  pose proof (cycle_lists_same_length (state r)) as Hlen.
  rewrite Hk in Hlen. specialize (Hlen Hhold).
  split.
  - unfold long_orders, short_orders. by rewrite !length_fmap.
  - rewrite net_notional_positions by done. rewrite Hlen. ring.
Qed.

Lemma executed_cycle_is_dollar_neutral_witness :
  let r := on_marketdatafeed (Qc_of_Z 100) (Sample.tick "A" 12)
             Sample.small_loaded in
  length (long_orders (Qc_of_Z 100) (state r))
    = length (short_orders (Qc_of_Z 100) (state r)) ∧
  net_notional (historical_data (state r))
               (long_orders (Qc_of_Z 100) (state r)
                ++ short_orders (Qc_of_Z 100) (state r)) = 0%Qc.
Proof.
  apply executed_cycle_is_dollar_neutral.
  - vm_compute. reflexivity.
  - vm_compute. reflexivity.
Defined.

(** X17.  Every state of a session ([start] on the constructed object,
    then any bulk feeds and ticks, whether they raise or not) keeps the
    four parameters as constructed, has a history list for exactly the
    universe instruments, and, for a positive rebalance period, a
    counter in [0, rebalance_period). *)
Theorem session_invariant universe lookback period hold s0 (s : AlgoEvent.t) :
  construct universe lookback period hold = Ok s0 ->
  0 < period ->
  reachable s0 s ->
  (forall inst, is_Some (historical_data s !! inst) <-> inst ∈ universe) ∧
  0 <= rebalance_counter s < period ∧
  instrument_list s = universe ∧ lookback_period s = lookback ∧
  rebalance_period s = period ∧ hold_N_assets s = hold.
Proof.
  intros Hs0 Hp Hreach.
  destruct (reachable_well_formed _ _ _ _ _ _ Hs0 Hp Hreach)
    as ([Hdom Hc] & Hl & Hlb & Hper & Hk).
  rewrite Hl in Hdom. rewrite Hper in Hc. done.
Qed.

Lemma session_invariant_witness :
  let s := state (on_marketdatafeed (Qc_of_Z 100) (Sample.tick "A" 12)
                    Sample.small_loaded) in
  (forall inst, is_Some (historical_data s !! inst) <->
                inst ∈ ["A"; "B"]%string) ∧
  0 <= rebalance_counter s < 1 ∧
  instrument_list s = ["A"; "B"]%string ∧ lookback_period s = 2 ∧
  rebalance_period s = 1 ∧ hold_N_assets s = 1.
Proof.
  apply (session_invariant ["A"; "B"]%string 2 1 1 Sample.small).
  - reflexivity.
  - lia.
  - apply reach_tick.
    apply (reach_bulk Sample.small (start Sample.small)), reach_start.
Defined.

(** ** The cumulative path *)

Section cumulative_path.
Local Open Scope Qc_scope.
Implicit Types (l returns : list Qc) (acc : Qc).

Lemma cumprod_from_length l : forall acc,
  length (cumprod_from acc l) = length l.
Proof. induction l as [|x l IH]; intros acc; simpl; [done|]. by rewrite IH. Qed.

Lemma cumprod_from_lookup l : forall acc (t : nat),
  (t < length l)%nat ->
  cumprod_from acc l !! t = Some (acc * prod (take (S t) l)).
Proof.
  induction l as [|x l IH]; intros acc t Ht; simpl in Ht; [lia|].
  destruct t as [|t]; simpl.
  - f_equal. unfold prod. simpl. ring.
  - rewrite IH by lia. f_equal. unfold prod. simpl. ring.
Qed.

Lemma cumprod_from_last l x : forall acc,
  last (cumprod_from acc (x :: l)) = Some (acc * prod (x :: l)).
Proof.
  revert x. induction l as [|y l IH]; intros x acc.
  - simpl. f_equal. unfold prod. simpl. ring.
  - change (cumprod_from acc (x :: y :: l))
      with (acc * x :: cumprod_from (acc * x) (y :: l)).
    rewrite last_cons, (IH y (acc * x)). f_equal. unfold prod. simpl. ring.
Qed.

Lemma prod_shift returns :
  prod ((fun r => r + 1) <$> returns) = prod ((fun r => 1 + r) <$> returns).
Proof.
  unfold prod. induction returns as [|r returns IH]; [done|].
  rewrite !fmap_cons. cbn [foldr]. rewrite IH. ring.
Qed.

Lemma extend_prices_cumprod returns : forall acc,
  extend_prices acc returns = cumprod_from acc ((fun r => 1 + r) <$> returns).
Proof.
  induction returns as [|r returns IH]; intros acc; simpl; [done|].
  by rewrite IH.
Qed.
End cumulative_path.

(** X18.  The cumulative path of line 87 has one entry per return, entry
    [t] being the product of [1 + r] over the returns up to and
    including [t]; its last entry is the 'Total Return' of the metrics
    plus one. *)
Theorem cumulative_path_and_total_return (returns : list Qc) :
  length (cumulative returns) = length returns ∧
  (forall t : nat, (t < length returns)%nat ->
     cumulative returns !! t =
       Some (StrategyBacktester.prod
               ((fun r => 1 + r)%Qc <$> take (S t) returns))) ∧
  (forall m, calculate_performance_metrics returns = Some m ->
     last (cumulative returns) = Some (Total_Return m + 1)%Qc).
Proof.
  unfold cumulative, cumprod. split; [|split].
  - by rewrite cumprod_from_length, length_fmap.
  - intros t Ht. rewrite cumprod_from_lookup by by rewrite length_fmap.
    rewrite fmap_take. f_equal. ring.
  - unfold calculate_performance_metrics.
    destruct returns as [|r returns]; [done|].
    rewrite decide_False by done. intros m [= <-]. cbn [Total_Return].
    rewrite prod_shift, fmap_cons, cumprod_from_last. f_equal.
    unfold prod. cbn [foldr]. ring.
Qed.

Lemma cumulative_path_and_total_return_witness :
  cumulative [Q2Qc 0.01; Q2Qc (-0.02)] !! 1%nat =
    Some (StrategyBacktester.prod
            ((fun r => 1 + r)%Qc <$> take 2 [Q2Qc 0.01; Q2Qc (-0.02)])).
Proof.
  apply (cumulative_path_and_total_return [Q2Qc 0.01; Q2Qc (-0.02)]).
  simpl. lia.
Defined.

(** X19.  The price path that lines 42-44 build from a start price and a
    series of returns has one more entry than there are returns, starts
    at the start price and continues with the start price times the
    cumulative path; for a start price that is not 0, the momentum over
    the whole path is the product of [1 + r] minus one, the 'Total
    Return' that the metrics report for these returns. *)
Theorem price_path_total_return (start_price : Qc) (returns : list Qc) :
  price_path start_price returns =
    start_price :: ((fun c => start_price * c)%Qc <$> cumulative returns) ∧
  length (price_path start_price returns) = S (length returns) ∧
  (start_price ≠ 0%Qc ->
   forall m, calculate_performance_metrics returns = Some m ->
     momentum (price_path start_price returns)
              (Z.of_nat (length returns) + 1) = Ok (Total_Return m)).
Proof.
  assert (forall l acc, cumprod_from acc l
            = (fun c => acc * c)%Qc <$> cumprod_from 1%Qc l) as Hscale.
  { induction l as [|x l IH]; intros acc; simpl; [done|].
    rewrite (IH (acc * x)%Qc), (IH (1 * x)%Qc). f_equal; [ring|].
    rewrite <- list_fmap_compose. apply list_fmap_ext. intros _ c _.
    simpl. ring. }
  assert (price_path start_price returns =
            start_price :: ((fun c => start_price * c)%Qc
                              <$> cumulative returns)) as Hpath.
  { unfold price_path, cumulative, cumprod.
    by rewrite extend_prices_cumprod, Hscale. }
  split; [done|]. split.
  { unfold price_path. simpl.
    by rewrite extend_prices_cumprod, cumprod_from_length, length_fmap. }
  intros Hstart m Hm.
  unfold calculate_performance_metrics in Hm.
  destruct returns as [|r returns]; [done|].
  rewrite decide_False in Hm by done. injection Hm as <-. cbn [Total_Return].
  assert (length (price_path start_price (r :: returns))
          = S (S (length returns))) as Hlen.
  { unfold price_path. simpl.
    by rewrite extend_prices_cumprod, cumprod_from_length, length_fmap. }
  assert (getitem (price_path start_price (r :: returns)) (-1) =
          Ok (start_price
              * StrategyBacktester.prod ((fun r => 1 + r) <$> r :: returns))%Qc)
    as Hlast.
  { apply (getitem_from_end _ 1); rewrite Hlen; [lia|].
    unfold price_path. rewrite extend_prices_cumprod, fmap_cons.
    replace (S (S (length returns)) - Z.to_nat 1)%nat
      with (S (length returns)) by lia.
    rewrite <- cumprod_from_last, last_lookup, cumprod_from_length.
    cbn [length]. by rewrite length_fmap. }
  assert (getitem (price_path start_price (r :: returns))
            (- (Z.of_nat (length (r :: returns)) + 1)) = Ok start_price)
    as Hbase.
  { apply getitem_from_end; rewrite Hlen; simpl length; [lia|].
    replace (S (S (length returns))
             - Z.to_nat (Z.of_nat (S (length returns)) + 1))%nat
      with 0%nat by lia. done. }
  rewrite (momentum_value _ _ _ _ Hlast Hbase).
  rewrite decide_False by done. f_equal.
  change (list_fmap Qc Qc (fun r0 => r0 + 1)%Qc returns)
    with ((fun r0 => r0 + 1)%Qc <$> returns).
  rewrite prod_shift, fmap_cons. unfold StrategyBacktester.prod.
  cbn [foldr]. by field.
Qed.

Lemma price_path_total_return_witness :
  exists m,
    calculate_performance_metrics [Q2Qc 0.01; Q2Qc (-0.02)] = Some m ∧
    momentum (price_path (Qc_of_Z 100) [Q2Qc 0.01; Q2Qc (-0.02)])
             (Z.of_nat 2 + 1) = Ok (Total_Return m).
Proof.
  eexists. split; [reflexivity|].
  apply (price_path_total_return (Qc_of_Z 100) [Q2Qc 0.01; Q2Qc (-0.02)]).
  - apply (bool_decide_unpack _). vm_compute. exact I.
  - reflexivity.
Defined.

(** ** Bounds of the maximum drawdown *)

Section drawdown_bounds.
Local Open Scope Qc_scope.
Implicit Types (l fs : list Qc) (c m acc : Qc).

Local Abbreviation dd_of start l :=
  (zip_with (fun c' m' => nan_div (c' - m') m') l
            (expanding_max_from start l)).

Lemma drawdown_entry_lower c m : 0 < m -> 0 <= c -> - 1 <= (c - m) / m.
Proof.
  intros Hm Hc. apply (Qcmult_lt_0_le_reg_r _ _ m Hm).
  replace ((c - m) / m * m) with (c - m)
    by (field; by apply Qc_pos_nonzero).
  to_Q. lra.
Qed.

Lemma drawdown_entry_minus_one c m : 0 < m -> (c - m) / m = - 1 -> c = 0.
Proof.
  intros Hm Hone.
  assert (c - m = (c - m) / m * m) as Heq
    by (field; by apply Qc_pos_nonzero).
  rewrite Hone in Heq. to_Q. lra.
Qed.

(** Above a positive running maximum and along a path that is never
    negative, no drawdown entry is below -1, and an entry is -1 exactly
    where the path is 0. *)
Lemma dd_of_bounded l : forall m,
  0 < m -> Forall (Qcle 0) l ->
  exists ds, dd_of m l = Some <$> ds ∧
    Forall (Qcle (- 1)) ds ∧ (- 1 ∈ ds <-> 0 ∈ l).
Proof.
  induction l as [|c l IH]; intros m Hm Hl.
  - exists []. split; [done|]. split; [constructor|].
    split; intros H; by apply elem_of_nil in H.
  - apply Forall_cons in Hl as [Hc Hl].
    cbn [expanding_max_from zip_with].
    set (m' := StrategyBacktester.max m c).
    assert (0 < m') as Hm'
      by (apply Qclt_le_trans with m; [done|apply max_ge_l]).
    destruct (IH m' Hm' Hl) as (ds & Hds & Hlow & Hiff).
    exists ((c - m') / m' :: ds). split; [|split].
    + rewrite Hds. unfold nan_div.
      by rewrite decide_False by by apply Qc_pos_nonzero.
    + constructor; [by apply drawdown_entry_lower|done].
    + rewrite !elem_of_cons, Hiff.
      split; intros [H|H]; [left|by right|left|by right].
      * symmetry in H. symmetry. by apply (drawdown_entry_minus_one _ m').
      * rewrite <- H. symmetry. field. by apply Qc_pos_nonzero.
Qed.

Lemma cumprod_from_nonneg fs : forall acc,
  0 <= acc -> Forall (Qcle 0) fs -> Forall (Qcle 0) (cumprod_from acc fs).
Proof.
  induction fs as [|x fs IH]; intros acc Hacc Hfs; simpl; [constructor|].
  apply Forall_cons in Hfs as [Hx Hfs].
  assert (0 <= acc * x) as Hnext by (to_Q; nra).
  constructor; [done|]. by apply IH.
Qed.

Lemma cumprod_from_zero fs : forall acc,
  acc ≠ 0 -> (0 ∈ cumprod_from acc fs <-> 0 ∈ fs).
Proof.
  induction fs as [|x fs IH]; intros acc Hacc; simpl; [done|].
  rewrite !elem_of_cons. destruct (decide (x = 0)) as [->|Hx].
  - split; intros _; left; [done|ring].
  - assert (acc * x ≠ 0) as Hnext.
    { intros H. apply Qcmult_integral in H as [H|H]; done. }
    rewrite (IH (acc * x) Hnext).
    split; intros [H|H]; [|by right| |by right]; by symmetry in H.
Qed.

Lemma nan_div_self c : c ≠ 0 -> nan_div (c - c) c = Some 0.
Proof.
  intros Hc. unfold nan_div. rewrite decide_False by done.
  f_equal. by field.
Qed.

(** Along a path whose factors are all at least 1 the running maximum is
    the path itself. *)
Lemma dd_of_rising fs : forall m,
  0 < m -> Forall (Qcle 1) fs ->
  dd_of m (cumprod_from m fs) = replicate (length fs) (Some 0).
Proof.
  induction fs as [|x fs IH]; intros m Hm Hfs; [done|].
  apply Forall_cons in Hfs as [Hx Hfs].
  assert (m <= m * x) as Hup by (to_Q; nra).
  assert (0 < m * x) as Hpos by (by apply Qclt_le_trans with m).
  cbn [cumprod_from expanding_max_from zip_with length replicate].
  assert (StrategyBacktester.max m (m * x) = m * x) as ->.
  { unfold StrategyBacktester.max. destruct (decide (m < m * x)); [done|].
    apply Qcle_antisym; [done|by apply Qcnot_lt_le]. }
  rewrite (IH _ Hpos Hfs). f_equal.
  apply nan_div_self. by apply Qc_pos_nonzero.
Qed.

Lemma series_min_zeros (n : nat) :
  series_min (replicate (S n) (Some 0)) = Some 0.
Proof.
  induction n as [|n IH]; [done|].
  change (replicate (S (S n)) (Some 0))
    with (Some 0 :: replicate (S n) (Some 0)).
  cbn [series_min]. rewrite IH. unfold StrategyBacktester.min.
  by destruct (decide (0 < 0)).
Qed.

Lemma cumprod_from_zero_acc fs :
  cumprod_from 0 fs = replicate (length fs) 0.
Proof.
  induction fs as [|x fs IH]; [done|].
  cbn [cumprod_from length replicate]. rewrite Qcmult_0_l. by rewrite IH.
Qed.

Lemma dd_of_zero (n : nat) : dd_of 0 (replicate n 0) = replicate n None.
Proof.
  induction n as [|n IH]; [done|].
  cbn [replicate expanding_max_from zip_with].
  assert (StrategyBacktester.max 0 0 = 0) as ->
    by (unfold StrategyBacktester.max; by destruct (decide (0 < 0))).
  rewrite IH. f_equal; unfold nan_div; by rewrite decide_True.
Qed.

Lemma series_min_nan (n : nat) : series_min (replicate n None) = None.
Proof. induction n as [|n IH]; [done|]. exact IH. Qed.

Lemma series_min_some x (l : list (option Qc)) :
  series_min (Some x :: l) ≠ None.
Proof. cbn [series_min]. by destruct (series_min l). Qed.
End drawdown_bounds.

(** X20.  For a nonempty return series whose first return is above
    -100% and whose other returns are not below -100%, the maximum
    drawdown is a number between -1 and 0, and it is -1 exactly when
    some return is -100%. *)
Theorem max_drawdown_bounds (first : Qc) (rest : list Qc) :
  (- 1 < first)%Qc ->
  Forall (Qcle (- 1)%Qc) rest ->
  exists mdd, calculate_max_drawdown (first :: rest) = Some mdd ∧
    (- 1 <= mdd)%Qc ∧ (mdd <= 0)%Qc ∧
    (mdd = (- 1)%Qc <-> (- 1)%Qc ∈ rest).
Proof.
  intros Hfirst Hrest.
  unfold calculate_max_drawdown, drawdown, cumulative, cumprod.
  cbn [fmap list_fmap cumprod_from expanding_max zip_with].
  set (c0 := (1 * (1 + first))%Qc).
  assert (0 < c0)%Qc as Hc0 by (unfold c0; to_Q; lra).
  assert (Forall (Qcle 0) ((fun r => (1 + r)%Qc) <$> rest)) as Hfs.
  { apply Forall_fmap. eapply Forall_impl; [exact Hrest|].
    intros r Hr. simpl in *. to_Q. lra. }
  destruct (dd_of_bounded
              (cumprod_from c0 ((fun r => (1 + r)%Qc) <$> rest)) c0 Hc0)
    as (ds & -> & Hlow & Hiff).
  { apply cumprod_from_nonneg; [by apply Qclt_le_weak|done]. }
  rewrite cumprod_from_zero in Hiff by by apply Qc_pos_nonzero.
  assert (nan_div (c0 - c0) c0 = Some 0%Qc) as ->.
  { unfold nan_div. rewrite decide_False by by apply Qc_pos_nonzero.
    f_equal. field. by apply Qc_pos_nonzero. }
  destruct (series_min_numbers 0%Qc ds) as (dmin & Hmin & Hin & Hall).
  exists dmin. rewrite <- fmap_cons. split; [done|].
  apply Forall_cons in Hall as [Hhead Htail].
  assert ((- 1)%Qc ∈ ds <-> (- 1)%Qc ∈ rest) as Hiff'.
  { rewrite Hiff, list_elem_of_fmap. split.
    - intros (r & Hr & Hin'). replace (- 1)%Qc with r; [done|]. to_Q. lra.
    - intros Hin'. exists (- 1)%Qc. split; [ring|done]. }
  split; [|split; [done|]].
  - apply elem_of_cons in Hin as [->|Hin].
    + to_Q. lra.
    + by apply (proj1 (Forall_forall _ _) Hlow).
  - rewrite <- Hiff'. split.
    + intros ->. apply elem_of_cons in Hin as [H|H]; [|done].
      exfalso. to_Q. lra.
    + intros Hin'. apply Qcle_antisym.
      * by apply (proj1 (Forall_forall _ _) Htail).
      * apply elem_of_cons in Hin as [->|Hin]; [to_Q; lra|].
        by apply (proj1 (Forall_forall _ _) Hlow).
Qed.

Lemma max_drawdown_bounds_witness :
  exists mdd,
    calculate_max_drawdown [Q2Qc 0.5; (- 1)%Qc; Q2Qc 0.25] = Some mdd ∧
    (- 1 <= mdd)%Qc ∧ (mdd <= 0)%Qc ∧
    (mdd = (- 1)%Qc <-> (- 1)%Qc ∈ [(- 1)%Qc; Q2Qc 0.25]).
Proof.
  apply (max_drawdown_bounds (Q2Qc 0.5) [(- 1)%Qc; Q2Qc 0.25]).
  - apply (bool_decide_unpack _). vm_compute. exact I.
  - apply (bool_decide_unpack _). vm_compute. exact I.
Defined.

(** X21.  A nonempty return series without a negative return has
    maximum drawdown 0, and the metrics report a Calmar ratio of 0 for
    it (the [else 0] of line 75), whatever the mean return. *)
Theorem no_loss_no_drawdown (returns : list Qc) :
  returns ≠ [] ->
  Forall (Qcle 0%Qc) returns ->
  calculate_max_drawdown returns = Some 0%Qc ∧
  calmar returns = Some 0%Qc ∧
  forall m, calculate_performance_metrics returns = Some m ->
    Max_Drawdown m = Some 0%Qc ∧ Calmar_Ratio m = Some 0%Qc.
Proof.
  intros Hne Hall. destruct returns as [|first rest]; [done|].
  apply Forall_cons in Hall as [Hfirst Hrest].
  assert (calculate_max_drawdown (first :: rest) = Some 0%Qc) as Hmdd.
  { unfold calculate_max_drawdown, drawdown, cumulative, cumprod.
    cbn [fmap list_fmap cumprod_from expanding_max zip_with].
    set (c0 := (1 * (1 + first))%Qc).
    assert (0 < c0)%Qc as Hc0 by (unfold c0; to_Q; lra).
    rewrite dd_of_rising; [|done|].
    - assert (nan_div (c0 - c0) c0 = Some 0%Qc) as ->.
      { unfold nan_div. rewrite decide_False by by apply Qc_pos_nonzero.
        f_equal. field. by apply Qc_pos_nonzero. }
      apply (series_min_zeros (length _)).
    - apply Forall_fmap. eapply Forall_impl; [exact Hrest|].
      intros r Hr. simpl in *. to_Q. lra. }
  assert (calmar (first :: rest) = Some 0%Qc) as Hcalmar.
  { unfold calmar. rewrite Hmdd. by destruct (decide (0%Qc ≠ 0%Qc)). }
  split; [done|]. split; [done|].
  unfold calculate_performance_metrics. rewrite decide_False by done.
  intros m [= <-]. cbn [Max_Drawdown Calmar_Ratio]. done.
Qed.

Lemma no_loss_no_drawdown_witness :
  calculate_max_drawdown [Q2Qc 0.01; 0%Qc; Q2Qc 0.02] = Some 0%Qc ∧
  calmar [Q2Qc 0.01; 0%Qc; Q2Qc 0.02] = Some 0%Qc ∧
  forall m,
    calculate_performance_metrics [Q2Qc 0.01; 0%Qc; Q2Qc 0.02] = Some m ->
    Max_Drawdown m = Some 0%Qc ∧ Calmar_Ratio m = Some 0%Qc.
Proof.
  apply (no_loss_no_drawdown [Q2Qc 0.01; 0%Qc; Q2Qc 0.02]).
  - done.
  - apply (bool_decide_unpack _). vm_compute. exact I.
Defined.

(** X22.  The maximum drawdown of a nonempty return series is NaN
    exactly when the first return is -100%: the cumulative path is then
    0 throughout and every drawdown entry is 0/0.  The Calmar ratio is
    NaN in exactly the same case. *)
Theorem max_drawdown_nan_iff_first_total_loss (first : Qc) (rest : list Qc) :
  (calculate_max_drawdown (first :: rest) = None <-> first = (- 1)%Qc) ∧
  (calmar (first :: rest) = None <-> first = (- 1)%Qc).
Proof.
  assert (calculate_max_drawdown (first :: rest) = None <-> first = (- 1)%Qc)
    as Hmdd.
  { unfold calculate_max_drawdown, drawdown, cumulative, cumprod.
    cbn [fmap list_fmap cumprod_from expanding_max zip_with].
    set (c0 := (1 * (1 + first))%Qc). split.
    - intros Hnone. destruct (decide (c0 = 0%Qc)) as [H0|H0].
      + unfold c0 in H0. to_Q. lra.
      + exfalso. revert Hnone.
        assert (nan_div (c0 - c0) c0 = Some ((c0 - c0) / c0)%Qc) as ->
          by (unfold nan_div; by rewrite decide_False).
        apply series_min_some.
    - intros Hfirst. assert (c0 = 0%Qc) as Hc0.
      { unfold c0. rewrite Hfirst. ring. }
      clearbody c0. subst c0.
      rewrite cumprod_from_zero_acc, dd_of_zero.
      assert (nan_div (0 - 0) 0 = None) as Hnan
        by (unfold nan_div; by rewrite decide_True).
      rewrite Hnan. apply (series_min_nan (S _)). }
  split; [done|]. rewrite <- Hmdd. unfold calmar.
  destruct (calculate_max_drawdown (first :: rest)) as [mdd|]; [|done].
  destruct (decide (mdd ≠ 0%Qc)); done.
Qed.

(** ** Winning and losing periods *)

Section wins_and_losses.
Local Open Scope Qc_scope.
Implicit Types (l returns : list Qc) (x y : Qc).

Lemma sum_cons x l :
  StrategyBacktester.sum (x :: l) = x + StrategyBacktester.sum l.
Proof. done. Qed.

Lemma length_nonzero {A} (l : list A) :
  l ≠ [] -> Qc_of_Z (Z.of_nat (length l)) ≠ 0.
Proof.
  intros Hne. apply Qc_of_Z_nonzero. destruct l; [done|]. simpl. lia.
Qed.

Lemma length_positive {A} (l : list A) :
  l ≠ [] -> 0 < Qc_of_Z (Z.of_nat (length l)).
Proof.
  intros Hne. rewrite <- Z2Qc_inj_0. apply (proj1 (Z2Qc_inj_lt 0 _)).
  destruct l; [done|]. simpl. lia.
Qed.

Lemma Qcdiv_nonneg x y : 0 < y -> 0 <= x -> 0 <= x / y.
Proof.
  intros Hy Hx. apply (Qcmult_lt_0_le_reg_r _ _ y Hy).
  replace (x / y * y) with x by (field; by apply Qc_pos_nonzero).
  by rewrite Qcmult_0_l.
Qed.

Lemma Qcdiv_le_iff x y z : 0 < y -> (x / y <= z <-> x <= z * y).
Proof.
  intros Hy. assert (x = x / y * y) as Hx
    by (field; by apply Qc_pos_nonzero).
  split; intros H.
  - rewrite Hx. apply Qcmult_le_compat_r; [done|by apply Qclt_le_weak].
  - apply (Qcmult_lt_0_le_reg_r _ _ y Hy). by rewrite <- Hx.
Qed.

Lemma Qcdiv_ge_iff x y z : 0 < y -> (z <= x / y <-> z * y <= x).
Proof.
  intros Hy. assert (x = x / y * y) as Hx
    by (field; by apply Qc_pos_nonzero).
  split; intros H.
  - rewrite Hx. apply Qcmult_le_compat_r; [done|by apply Qclt_le_weak].
  - apply (Qcmult_lt_0_le_reg_r _ _ y Hy). by rewrite <- Hx.
Qed.

Lemma Qcdiv_gt_one_iff x y : 0 < y -> (1 < x / y <-> y < x).
Proof.
  intros Hy. split; intros H.
  - apply Qcnot_le_lt. intros Hle. apply (Qclt_not_le _ _ H).
    apply Qcdiv_le_iff; [done|]. by rewrite Qcmult_1_l.
  - apply Qcnot_le_lt. intros Hle. apply (Qclt_not_le _ _ H).
    apply Qcdiv_le_iff in Hle; [|done]. by rewrite Qcmult_1_l in Hle.
Qed.

Lemma mean_times_length l :
  l ≠ [] -> mean l * Qc_of_Z (Z.of_nat (length l)) = StrategyBacktester.sum l.
Proof. intros Hne. unfold mean. field. by apply length_nonzero. Qed.

(** Every return is a win, a loss, or 0. *)
Lemma sum_wins_losses returns :
  StrategyBacktester.sum returns =
    StrategyBacktester.sum (wins returns)
    + StrategyBacktester.sum (losses returns).
Proof.
  unfold wins, losses. induction returns as [|r returns IH]; [done|].
  rewrite !filter_cons, sum_cons, IH.
  destruct (decide (0 < r)), (decide (r < 0)); rewrite ?sum_cons;
    generalize (StrategyBacktester.sum (filter (λ r, 0 < r) returns))
               (StrategyBacktester.sum (filter (λ r, r < 0) returns));
    intros sw sl; to_Q; lra.
Qed.

Lemma average_win_total returns :
  average_win returns * Qc_of_Z (Z.of_nat (length (wins returns)))
  = StrategyBacktester.sum (wins returns).
Proof.
  unfold average_win. destruct (decide (wins returns ≠ [])) as [Hne|He].
  - by apply mean_times_length.
  - destruct (wins returns) as [|w ws]; [|by destruct He].
    apply (bool_decide_unpack _). vm_compute. exact I.
Qed.

Lemma average_loss_total returns :
  average_loss returns * Qc_of_Z (Z.of_nat (length (losses returns)))
  = StrategyBacktester.sum (losses returns).
Proof.
  unfold average_loss. destruct (decide (losses returns ≠ [])) as [Hne|He].
  - by apply mean_times_length.
  - destruct (losses returns) as [|w ws]; [|by destruct He].
    apply (bool_decide_unpack _). vm_compute. exact I.
Qed.

Lemma sum_of_negatives l :
  Forall (λ x, x < 0) l ->
  StrategyBacktester.sum l <= 0 ∧ (l ≠ [] -> StrategyBacktester.sum l < 0).
Proof.
  induction 1 as [|x l Hx _ [IH _]].
  - split; [|done]. apply Qcle_refl.
  - rewrite sum_cons. generalize dependent (StrategyBacktester.sum l).
    intros sl Hsl. split; [|intros _]; to_Q; lra.
Qed.

Lemma sum_of_positives l :
  Forall (λ x, 0 < x) l -> 0 <= StrategyBacktester.sum l.
Proof.
  induction 1 as [|x l Hx _ IH].
  - apply Qcle_refl.
  - rewrite sum_cons. generalize dependent (StrategyBacktester.sum l).
    intros sl Hsl. to_Q. lra.
Qed.

Lemma sum_between lo hi l :
  Forall (λ y, lo <= y ∧ y <= hi) l ->
  Qc_of_Z (Z.of_nat (length l)) * lo <= StrategyBacktester.sum l ∧
  StrategyBacktester.sum l <= Qc_of_Z (Z.of_nat (length l)) * hi.
Proof.
  induction 1 as [|y l [Hlo Hhi] _ [IHlo IHhi]].
  - split; apply (bool_decide_unpack _); vm_compute; exact I.
  - rewrite sum_cons. cbn [length].
    rewrite Nat2Z.inj_succ, <- Z.add_1_r, Z2Qc_inj_add, Z2Qc_inj_1.
    generalize dependent (StrategyBacktester.sum l).
    generalize (Qc_of_Z (Z.of_nat (length l))).
    intros n sl Hsl Hsl'. split; to_Q; nra.
Qed.

Lemma mean_between lo hi l :
  l ≠ [] -> Forall (λ y, lo <= y ∧ y <= hi) l ->
  lo <= mean l ∧ mean l <= hi.
Proof.
  intros Hne Hall. destruct (sum_between lo hi l Hall) as [Hlo Hhi].
  pose proof (length_positive l Hne) as Hn. unfold mean. split.
  - apply Qcdiv_ge_iff; [done|]. by rewrite Qcmult_comm.
  - apply Qcdiv_le_iff; [done|]. by rewrite Qcmult_comm.
Qed.

Lemma min_le_l x y : StrategyBacktester.min x y <= x.
Proof.
  unfold StrategyBacktester.min. destruct (decide (y < x)).
  - by apply Qclt_le_weak.
  - apply Qcle_refl.
Qed.

Lemma min_le_r x y : StrategyBacktester.min x y <= y.
Proof.
  unfold StrategyBacktester.min. destruct (decide (y < x)).
  - apply Qcle_refl.
  - by apply Qcnot_lt_le.
Qed.

Lemma series_max_bound x l :
  series_max x l ∈ x :: l ∧ Forall (λ y, y <= series_max x l) (x :: l).
Proof.
  unfold series_max. induction l as [|y l [IHin IH]].
  - split; [by left|]. constructor; [apply Qcle_refl|constructor].
  - cbn [foldr]. set (M := foldr StrategyBacktester.max x l) in *.
    apply Forall_cons in IH as [Hx Hl]. split.
    + unfold StrategyBacktester.max. destruct (decide (y < M)).
      * apply elem_of_cons in IHin as [->|IHin]; [by left|].
        by right; right.
      * right. by left.
    + assert (M <= StrategyBacktester.max y M) as HM by apply max_ge_r.
      constructor; [by apply Qcle_trans with M|].
      constructor; [apply max_ge_l|].
      eapply Forall_impl; [exact Hl|]. intros z Hz. simpl in Hz.
      by apply Qcle_trans with M.
Qed.

Lemma series_least_bound x l :
  series_least x l ∈ x :: l ∧ Forall (λ y, series_least x l <= y) (x :: l).
Proof.
  unfold series_least. induction l as [|y l [IHin IH]].
  - split; [by left|]. constructor; [apply Qcle_refl|constructor].
  - cbn [foldr]. set (M := foldr StrategyBacktester.min x l) in *.
    apply Forall_cons in IH as [Hx Hl]. split.
    + unfold StrategyBacktester.min. destruct (decide (M < y)).
      * apply elem_of_cons in IHin as [->|IHin]; [by left|].
        by right; right.
      * right. by left.
    + assert (StrategyBacktester.min y M <= M) as HM by apply min_le_r.
      constructor; [by apply Qcle_trans with M|].
      constructor; [apply min_le_l|].
      eapply Forall_impl; [exact Hl|]. intros z Hz. simpl in Hz.
      by apply Qcle_trans with M.
Qed.

Lemma wins_losses_length l :
  (length (filter (λ x, (0 < x)%Qc) l)
   + length (filter (λ x, (x < 0)%Qc) l) <= length l)%nat.
Proof.
  induction l as [|x l IH]; [done|].
  rewrite !filter_cons.
  destruct (decide (0 < x)), (decide (x < 0)); simpl; try lia.
  exfalso. to_Q. lra.
Qed.
End wins_and_losses.

(** X23.  For a nonempty return series the 'Win Rate' lies between 0
    and 1, and the mean return is the win rate times the 'Average Win'
    plus the share of losing periods times the 'Average Loss' (periods
    with return 0 count in neither). *)
Theorem win_rate_and_expectancy (returns : list Qc) :
  returns ≠ [] ->
  (0 <= win_rate returns)%Qc ∧ (win_rate returns <= 1)%Qc ∧
  mean returns =
    (win_rate returns * average_win returns
     + Qc_of_Z (Z.of_nat (length (losses returns)))
       / Qc_of_Z (Z.of_nat (length returns)) * average_loss returns)%Qc.
Proof.
  intros Hne. pose proof (length_positive returns Hne) as Hn.
  split; [|split].
  - unfold win_rate. apply Qcdiv_nonneg; [done|].
    rewrite <- Z2Qc_inj_0. apply (proj1 (Z2Qc_inj_le 0 _)). lia.
  - unfold win_rate. apply Qcdiv_le_iff; [done|]. rewrite Qcmult_1_l.
    apply (proj1 (Z2Qc_inj_le _ _)). apply inj_le, length_filter.
  - unfold mean at 1, win_rate.
    rewrite sum_wins_losses, <- average_win_total, <- average_loss_total.
    field. by apply Qc_pos_nonzero.
Qed.

Lemma win_rate_and_expectancy_witness :
  (0 <= win_rate [Q2Qc 0.02; 0%Qc; Q2Qc (-0.01)])%Qc ∧
  (win_rate [Q2Qc 0.02; 0%Qc; Q2Qc (-0.01)] <= 1)%Qc ∧
  mean [Q2Qc 0.02; 0%Qc; Q2Qc (-0.01)] =
    (win_rate [Q2Qc 0.02; 0%Qc; Q2Qc (-0.01)]
     * average_win [Q2Qc 0.02; 0%Qc; Q2Qc (-0.01)]
     + Qc_of_Z (Z.of_nat (length (losses [Q2Qc 0.02; 0%Qc; Q2Qc (-0.01)])))
       / Qc_of_Z (Z.of_nat (length [Q2Qc 0.02; 0%Qc; Q2Qc (-0.01)]))
       * average_loss [Q2Qc 0.02; 0%Qc; Q2Qc (-0.01)])%Qc.
Proof.
  apply (win_rate_and_expectancy [Q2Qc 0.02; 0%Qc; Q2Qc (-0.01)]). done.
Defined.

(** X24.  The 'Profit Factor' is infinite exactly when no return is
    negative.  Otherwise it is a number that is not negative, the
    divisor of line 74 is negative (so the division cannot fail), and
    the factor is above 1 exactly when the returns sum to more than 0. *)
Theorem profit_factor_cases (returns : list Qc) :
  (profit_factor returns = Infinite <-> Forall (Qcle 0%Qc) returns) ∧
  (forall q, profit_factor returns = Finite q ->
     (StrategyBacktester.sum (losses returns) < 0)%Qc ∧
     (0 <= q)%Qc ∧
     ((1 < q)%Qc <-> (0 < StrategyBacktester.sum returns)%Qc)).
Proof.
  unfold profit_factor.
  assert (Forall (λ x, x < 0)%Qc (losses returns)) as Hneg.
  { apply Forall_forall. intros x Hx.
    by apply list_elem_of_filter in Hx as [Hx _]. }
  assert (Forall (λ x, 0 < x)%Qc (wins returns)) as Hpos.
  { apply Forall_forall. intros x Hx.
    by apply list_elem_of_filter in Hx as [Hx _]. }
  destruct (decide (losses returns ≠ [])) as [Hne|He]; split.
  - split; [done|]. intros Hall. exfalso.
    destruct (losses returns) as [|x ls] eqn:Hls; [done|].
    assert (x ∈ losses returns) as Hx by (rewrite Hls; by left).
    apply list_elem_of_filter in Hx as [Hx Hin].
    apply (proj1 (Forall_forall _ _) Hall) in Hin.
    by apply (Qclt_not_le _ _ Hx).
  - intros q [= <-].
    destruct (sum_of_negatives _ Hneg) as [_ Hlt]. specialize (Hlt Hne).
    pose proof (sum_of_positives _ Hpos) as Hge.
    rewrite (sum_wins_losses returns).
    generalize dependent (StrategyBacktester.sum (losses returns)).
    generalize dependent (StrategyBacktester.sum (wins returns)).
    intros G HG L HL. split; [done|].
    assert (0 < - L)%Qc as HL' by (to_Q; lra).
    assert (G / L = - (G / - L))%Qc as ->.
    { field. split; intros H0; to_Q; lra. }
    rewrite abs_opp, abs_nonneg by by apply Qcdiv_nonneg.
    split; [by apply Qcdiv_nonneg|].
    rewrite Qcdiv_gt_one_iff by done. split; intros H; to_Q; lra.
  - split; [intros _|done]. apply Forall_forall. intros x Hx.
    apply Qcnot_lt_le. intros Hlt. apply He. intros Hnil.
    assert (x ∈ losses returns) as Hin
      by (apply list_elem_of_filter; by split).
    rewrite Hnil in Hin. by apply elem_of_nil in Hin.
  - done.
Qed.

Lemma profit_factor_cases_witness :
  exists q, profit_factor [Q2Qc 0.03; Q2Qc (-0.01)] = Finite q ∧
    (StrategyBacktester.sum (losses [Q2Qc 0.03; Q2Qc (-0.01)]) < 0)%Qc ∧
    (0 <= q)%Qc ∧
    ((1 < q)%Qc <->
     (0 < StrategyBacktester.sum [Q2Qc 0.03; Q2Qc (-0.01)])%Qc).
Proof.
  eexists. split; [reflexivity|].
  apply (profit_factor_cases [Q2Qc 0.03; Q2Qc (-0.01)]). reflexivity.
Defined.

(** X25.  [analyze_trade_distribution] reports on every nonempty list of
    trades: the best and the worst trade are the results of trades of
    the list, the average result lies between them, and the winning and
    the losing trades together are at most all trades. *)
Theorem trade_distribution_bounds (trades : list Trade) :
  trades ≠ [] ->
  exists a, analyze_trade_distribution trades = Some a ∧
    Total_Trades a = length trades ∧
    (Winning_Trades a + Losing_Trades a <= Total_Trades a)%nat ∧
    Best_Trade a ∈ pnl <$> trades ∧
    Worst_Trade a ∈ pnl <$> trades ∧
    (Worst_Trade a <= Average_Trade_PnL a)%Qc ∧
    (Average_Trade_PnL a <= Best_Trade a)%Qc.
Proof.
  intros Hne. destruct trades as [|first rest]; [done|].
  eexists. split; [reflexivity|].
  cbn [Total_Trades Winning_Trades Losing_Trades Best_Trade Worst_Trade
       Average_Trade_PnL].
  destruct (series_max_bound (pnl first) (pnl <$> rest)) as [Hmax_in Hmax].
  destruct (series_least_bound (pnl first) (pnl <$> rest)) as [Hmin_in Hmin].
  rewrite fmap_cons.
  split; [done|]. split.
  { rewrite <- fmap_cons, <- (length_fmap pnl (first :: rest)).
    apply wins_losses_length. }
  split; [done|]. split; [done|].
  apply mean_between; [done|].
  apply Forall_forall. intros y Hy. split.
  - by apply (proj1 (Forall_forall _ _) Hmin).
  - by apply (proj1 (Forall_forall _ _) Hmax).
Qed.

Lemma trade_distribution_bounds_witness :
  exists a,
    analyze_trade_distribution
      [{| pnl := Qc_of_Z 5; duration := Qc_of_Z 2 |};
       {| pnl := Qc_of_Z (-3); duration := Qc_of_Z 1 |};
       {| pnl := 0%Qc; duration := Qc_of_Z 4 |}] = Some a ∧
    Total_Trades a = 3%nat ∧
    (Winning_Trades a + Losing_Trades a <= Total_Trades a)%nat ∧
    Best_Trade a ∈ [Qc_of_Z 5; Qc_of_Z (-3); 0%Qc] ∧
    Worst_Trade a ∈ [Qc_of_Z 5; Qc_of_Z (-3); 0%Qc] ∧
    (Worst_Trade a <= Average_Trade_PnL a)%Qc ∧
    (Average_Trade_PnL a <= Best_Trade a)%Qc.
Proof.
  apply (trade_distribution_bounds
           [{| pnl := Qc_of_Z 5; duration := Qc_of_Z 2 |};
            {| pnl := Qc_of_Z (-3); duration := Qc_of_Z 1 |};
            {| pnl := 0%Qc; duration := Qc_of_Z 4 |}]).
  done.
Defined.

(** ** [setOfWords2Vec] *)

Section word_vectors.
Implicit Types (vocabList inputSet : list string) (word w : string)
               (returnVec : list Z) (i : nat).

Lemma index_lookup vocabList w :
  w ∈ vocabList -> vocabList !! HatredTextFilter.index vocabList w = Some w.
Proof.
  induction vocabList as [|v vocabList IH]; intros Hin.
  - by apply elem_of_nil in Hin.
  - cbn [HatredTextFilter.index]. destruct (decide (v = w)) as [->|Hne].
    + done.
    + apply elem_of_cons in Hin as [Heq|Hin]; [by destruct Hne|].
      by apply IH.
Qed.

Lemma index_first vocabList i w :
  vocabList !! i = Some w -> (HatredTextFilter.index vocabList w <= i)%nat.
Proof.
  revert i. induction vocabList as [|v vocabList IH]; intros i Hi; [done|].
  cbn [HatredTextFilter.index]. destruct (decide (v = w)) as [->|Hne].
  - lia.
  - destruct i as [|i]; simpl in Hi; [by injection Hi|].
    apply IH in Hi. lia.
Qed.

Lemma mark_words_length vocabList inputSet : forall returnVec,
  length (HatredTextFilter.mark_words vocabList inputSet returnVec)
  = length returnVec.
Proof.
  induction inputSet as [|word inputSet IH]; intros returnVec; [done|].
  cbn [HatredTextFilter.mark_words].
  destruct (decide (word ∈ vocabList)); rewrite IH; [|done].
  by rewrite length_insert.
Qed.

(** The loop sets slot [i] exactly when it meets a word whose first
    position in the vocabulary is [i]; every assignment is in range. *)
Lemma mark_words_lookup vocabList inputSet : forall returnVec i w,
  length returnVec = length vocabList ->
  vocabList !! i = Some w ->
  HatredTextFilter.mark_words vocabList inputSet returnVec !! i =
    (fun x => if decide (w ∈ inputSet ∧ HatredTextFilter.index vocabList w = i)
              then 1%Z else x) <$> returnVec !! i.
Proof.
  induction inputSet as [|word inputSet IH]; intros returnVec i w Hlen Hi.
  - cbn [HatredTextFilter.mark_words].
    destruct (returnVec !! i) as [x|]; [|done].
    cbn [fmap option_fmap option_map].
    by rewrite decide_False by (intros [H _]; by apply elem_of_nil in H).
  - cbn [HatredTextFilter.mark_words].
    assert (w ∈ vocabList) as Hw by by eapply list_elem_of_lookup_2.
    destruct (decide (word ∈ vocabList)) as [Hword|Hword].
    + rewrite (IH _ i w) by (by rewrite ?length_insert).
      rewrite list_lookup_insert.
      destruct (decide (HatredTextFilter.index vocabList word = i
                        ∧ (HatredTextFilter.index vocabList word
                           < length returnVec)%nat)) as [[Hk _]|Hk].
      * assert (word = w) as ->.
        { apply index_lookup in Hword. rewrite Hk in Hword. congruence. }
        destruct (lookup_lt_is_Some_2 returnVec i) as [x ->].
        { rewrite Hlen. by eapply lookup_lt_Some. }
        cbn [fmap option_fmap option_map].
        rewrite (decide_True (P := w ∈ w :: inputSet ∧ _))
          by (split; [by left|done]).
        by destruct (decide (w ∈ inputSet ∧ _)).
      * assert (HatredTextFilter.index vocabList word ≠ i) as Hne.
        { intros Heq. apply Hk. split; [done|]. rewrite Hlen, Heq.
          by eapply lookup_lt_Some. }
        destruct (returnVec !! i) as [x|]; [|done].
        cbn [fmap option_fmap option_map]. f_equal. apply decide_ext.
        rewrite elem_of_cons. split; [tauto|].
        intros [[->|Hin] Hidx]; [done|tauto].
    + rewrite (IH _ i w) by done.
      destruct (returnVec !! i) as [x|]; [|done].
      cbn [fmap option_fmap option_map]. f_equal. apply decide_ext.
      rewrite elem_of_cons. split; [tauto|].
      intros [[->|Hin] Hidx]; [done|tauto].
Qed.

Lemma setOfWords2Vec_lookup vocabList inputSet i w :
  vocabList !! i = Some w ->
  HatredTextFilter.setOfWords2Vec vocabList inputSet !! i =
    Some (if decide (w ∈ inputSet ∧ HatredTextFilter.index vocabList w = i)
          then 1%Z else 0%Z).
Proof.
  intros Hi. unfold HatredTextFilter.setOfWords2Vec.
  rewrite (mark_words_lookup _ _ _ i w) by (by rewrite ?length_replicate).
  rewrite lookup_replicate_2 by by eapply lookup_lt_Some. done.
Qed.

Lemma setOfWords2Vec_length vocabList inputSet :
  length (HatredTextFilter.setOfWords2Vec vocabList inputSet)
  = length vocabList.
Proof.
  unfold HatredTextFilter.setOfWords2Vec.
  by rewrite mark_words_length, length_replicate.
Qed.
End word_vectors.

(** X26.  The vector that [setOfWords2Vec] returns has one entry per
    vocabulary slot, each 0 or 1: slot [i] is 1 exactly when its word
    occurs in the input and [i] is the first position of that word in
    the vocabulary.  For a vocabulary without repetitions (what
    [createVocabList] returns), slot [i] is 1 exactly when its word
    occurs in the input. *)
Theorem setOfWords2Vec_entries (vocabList inputSet : list string) :
  length (HatredTextFilter.setOfWords2Vec vocabList inputSet)
    = length vocabList ∧
  (forall i w, vocabList !! i = Some w ->
     HatredTextFilter.setOfWords2Vec vocabList inputSet !! i =
       Some (if decide (w ∈ inputSet
                        ∧ HatredTextFilter.index vocabList w = i)
             then 1 else 0)) ∧
  (NoDup vocabList ->
   forall i w, vocabList !! i = Some w ->
     HatredTextFilter.setOfWords2Vec vocabList inputSet !! i =
       Some (if decide (w ∈ inputSet) then 1 else 0)).
Proof.
  split; [apply setOfWords2Vec_length|]. split.
  - intros i w. apply setOfWords2Vec_lookup.
  - intros Hnodup i w Hi. rewrite (setOfWords2Vec_lookup _ _ i w Hi).
    f_equal. apply decide_ext. split; [tauto|]. intros Hin. split; [done|].
    apply (NoDup_lookup vocabList _ _ w Hnodup); [|done].
    apply index_lookup. by eapply list_elem_of_lookup_2.
Qed.

Lemma setOfWords2Vec_entries_witness :
  HatredTextFilter.setOfWords2Vec
    ["dog"; "my"; "stupid"]%string ["my"; "cat"; "my"]%string !! 1%nat
  = Some (if decide ("my"%string ∈ ["my"; "cat"; "my"]%string)
          then 1 else 0).
Proof.
  apply (proj2 (proj2 (setOfWords2Vec_entries
                         ["dog"; "my"; "stupid"]%string
                         ["my"; "cat"; "my"]%string))).
  - apply (bool_decide_unpack _). vm_compute. exact I.
  - reflexivity.
Defined.

(** X27.  The vector depends on the input only through the set of its
    words: order and repetitions in the input do not matter, and words
    outside the vocabulary are ignored. *)
Theorem setOfWords2Vec_input_as_set
    (vocabList inputSet inputSet' : list string) :
  (forall w, w ∈ vocabList -> (w ∈ inputSet <-> w ∈ inputSet')) ->
  HatredTextFilter.setOfWords2Vec vocabList inputSet
  = HatredTextFilter.setOfWords2Vec vocabList inputSet'.
Proof.
  intros Hsame. apply list_eq. intros i.
  destruct (vocabList !! i) as [w|] eqn:Hi.
  - rewrite !(setOfWords2Vec_lookup _ _ i w Hi). f_equal.
    apply decide_ext. rewrite (Hsame w); [done|].
    by eapply list_elem_of_lookup_2.
  - apply lookup_ge_None in Hi.
    rewrite !(proj2 (lookup_ge_None _ _)); [done| |];
      by rewrite setOfWords2Vec_length.
Qed.

Lemma setOfWords2Vec_input_as_set_witness :
  HatredTextFilter.setOfWords2Vec
    ["dog"; "my"; "stupid"]%string ["my"; "cat"; "dog"; "my"]%string
  = HatredTextFilter.setOfWords2Vec
    ["dog"; "my"; "stupid"]%string ["dog"; "my"]%string.
Proof.
  apply (setOfWords2Vec_input_as_set ["dog"; "my"; "stupid"]%string).
  intros w Hw. rewrite !elem_of_cons in Hw. rewrite !elem_of_cons.
  destruct Hw as [->|[->|[->|Hw]]].
  - split; intros _; [by left|by right; right; left].
  - split; intros _; [by right; left|by left].
  - split.
    + intros [H|[H|[H|[H|H]]]]; try discriminate H.
      by apply elem_of_nil in H.
    + intros [H|[H|H]]; try discriminate H. by apply elem_of_nil in H.
  - by apply elem_of_nil in Hw.
Defined.
